(** * Metrics engine of the Prime-block viewer (main.js)

    A shallow embedding of the numeric core (logBigInt, computeExactDeltaK,
    the legacy normalized formula), of the JSON-RPC batching client
    (rpcCall, rpcBatch, sendBatchWithLimit), of the series window
    (fetchWindowData, fetchAndAppendLatest) and of the chunk averaging done
    by updateUIFromSeries / avgDec, followed by the properties checked
    against the specification.

    Conventions.
    - A JS BigInt is a [Z]; BigInt division truncates and is [Z.quot];
      shifts are [Z.shiftl] / [Z.shiftr].
    - JS values coming back from the node are [JsValue]s; a JS object used
      as an id -> result map is a [gmap string JsValue].
    - Code that can throw lives in the [Completion] monad; [try_catch]
      is the JS try/catch.  The asynchronous functions, which also send
      POSTs and write the page state, live in the [Eff] monad.
    - Decimal.js values are [Decimal]s, with the configuration the source
      installs: 40 significant digits, ROUND_HALF_UP. *)

From Stdlib Require Import ZArith Lia List Ascii String Zwf Bool DecimalString.
From Stdlib Require DecimalPos.
From stdpp Require Import gmap strings list well_founded.

Local Open Scope Z_scope.

(* ===================================================================== *)
(** ** Completions: normal return or a thrown exception                  *)
(* ===================================================================== *)

Inductive Completion (A : Type) : Type :=
| Return (a : A)
| Throw.
Arguments Return {A} a.
Arguments Throw {A}.

Global Instance Completion_ret : MRet Completion := λ A a, Return a.
Global Instance Completion_bind : MBind Completion := λ A B f c,
  match c with
  | Return a => f a
  | Throw => Throw
  end.

(** [try { body } catch (e) { handler }] *)
Definition try_catch {A} (body handler : Completion A) : Completion A :=
  match body with
  | Return a => Return a
  | Throw => handler
  end.

(* ===================================================================== *)
(** ** JavaScript values                                                 *)
(* ===================================================================== *)

(** A Number is either integral or something else (a fraction, NaN, an
    infinity), the latter identified by its ToString rendering.  Integral
    Numbers are rendered in plain decimal, which is what JS does below
    10^21; block numbers and JSON-RPC ids are far below that. *)
Inductive JsNum : Type :=
| NumInt (z : Z)
| NumOther (repr : string).

#[local] Unset Elimination Schemes.
Inductive JsValue : Type :=
| JUndefined
| JNull
| JBool (b : bool)
| JNumber (n : JsNum)
| JBigInt (z : Z)
| JString (s : string)
| JArray (elems : list JsValue)
| JObject (fields : list (string * JsValue)).
#[local] Set Elimination Schemes.

(** ToBoolean *)
Definition truthy (v : JsValue) : bool :=
  match v with
  | JUndefined | JNull => false
  | JBool b => b
  | JNumber (NumInt z) => negb (z =? 0)
  | JNumber (NumOther r) => negb (String.eqb r "NaN")
  | JBigInt z => negb (z =? 0)
  | JString s => negb (String.eqb s EmptyString)
  | JArray _ | JObject _ => true
  end.

(** [a || b] *)
Definition js_or (a b : JsValue) : JsValue := if truthy a then a else b.

Fixpoint assoc_get (k : string) (fs : list (string * JsValue)) : JsValue :=
  match fs with
  | [] => JUndefined
  | (k', v) :: rest => if String.eqb k k' then v else assoc_get k rest
  end.

(** [v.name] for the data property names the source reads (error, id,
    result, exchangeRate, minerDifficulty): own property of an object,
    undefined on every other non-nullish value.  Property access on
    null/undefined throws; every such access in the source is guarded,
    except the one in rpcCall, which is modelled there. *)
Definition get_prop (v : JsValue) (name : string) : JsValue :=
  match v with
  | JObject fs => assoc_get name fs
  | _ => JUndefined
  end.

(** *** Number and string conversions *)

Definition decimal_of_Z (z : Z) : string :=
  DecimalString.NilZero.string_of_int (Z.to_int z).

Definition hex_digit_char (d : Z) : ascii :=
  ascii_of_nat (Z.to_nat (if d <? 10 then 48 + d else 87 + d)).

Fixpoint hex_of_pos (p : positive) (fuel : nat) (acc : string) : string :=
  match fuel with
  | O => acc
  | S k =>
      let acc' := String (hex_digit_char (Z.pos p mod 16)) acc in
      match Z.pos p / 16 with
      | Z.pos q => hex_of_pos q k acc'
      | _ => acc'
      end
  end.

(** [n.toString(16)] for an integral Number. *)
Definition toString16 (n : Z) : string :=
  match n with
  | 0 => "0"
  | Z.pos p => hex_of_pos p (Pos.size_nat p) EmptyString
  | Z.neg p => String "-" (hex_of_pos p (Pos.size_nat p) EmptyString)
  end.

Fixpoint join_with (sep : string) (l : list string) : string :=
  match l with
  | [] => EmptyString
  | [s] => s
  | s :: rest => s +:+ sep +:+ join_with sep rest
  end.

(** ToString; an array joins its elements with commas, null and undefined
    elements rendering as the empty string (Array.prototype.join). *)
Fixpoint js_toString (v : JsValue) : string :=
  match v with
  | JUndefined => "undefined"
  | JNull => "null"
  | JBool true => "true"
  | JBool false => "false"
  | JNumber (NumInt z) => decimal_of_Z z
  | JNumber (NumOther r) => r
  | JBigInt z => decimal_of_Z z
  | JString s => s
  | JArray elems =>
      join_with ","
        (map (fun e => match e with
                       | JUndefined | JNull => EmptyString
                       | _ => js_toString e
                       end) elems)
  | JObject _ => "[object Object]"
  end.

(** White space and line terminators; strings are taken as ASCII, so
    these are tab, LF, VT, FF, CR and space. *)
Definition is_ws (c : ascii) : bool :=
  let n := Z.of_nat (nat_of_ascii c) in
  ((9 <=? n) && (n <=? 13)) || (n =? 32).

Fixpoint drop_ws (s : string) : string :=
  match s with
  | String c rest => if is_ws c then drop_ws rest else s
  | EmptyString => EmptyString
  end.

Definition trim (s : string) : string :=
  String.rev (drop_ws (String.rev (drop_ws s))).

Definition digit_value (radix : Z) (c : ascii) : option Z :=
  let n := Z.of_nat (nat_of_ascii c) in
  let d := if (48 <=? n) && (n <=? 57) then n - 48
           else if (97 <=? n) && (n <=? 122) then n - 87
           else if (65 <=? n) && (n <=? 90) then n - 55
           else radix in
  if d <? radix then Some d else None.

(** All of [s] as digits in [radix], most significant first. *)
Fixpoint parse_digits (radix : Z) (s : string) (acc : Z) : option Z :=
  match s with
  | EmptyString => Some acc
  | String c rest =>
      match digit_value radix c with
      | Some d => parse_digits radix rest (acc * radix + d)
      | None => None
      end
  end.

Definition parse_nonempty (radix : Z) (s : string) : Completion Z :=
  match s with
  | EmptyString => Throw
  | _ => match parse_digits radix s 0 with
         | Some z => Return z
         | None => Throw
         end
  end.

(** StringToBigInt: optional surrounding white space; the empty string is
    0n; a 0x/0o/0b literal (either case) or a signed decimal literal;
    anything else is a SyntaxError. *)
Definition StringToBigInt (s : string) : Completion Z :=
  match trim s with
  | EmptyString => Return 0
  | String "0" (String "x" r) | String "0" (String "X" r) => parse_nonempty 16 r
  | String "0" (String "o" r) | String "0" (String "O" r) => parse_nonempty 8 r
  | String "0" (String "b" r) | String "0" (String "B" r) => parse_nonempty 2 r
  | String "-" r => z ← parse_nonempty 10 r; Return (- z)
  | String "+" r => parse_nonempty 10 r
  | t => parse_nonempty 10 t
  end.

(** The [BigInt(v)] conversion function. *)
Definition BigInt (v : JsValue) : Completion Z :=
  match v with
  | JUndefined | JNull => Throw                    (* TypeError *)
  | JBool b => Return (if b then 1 else 0)
  | JNumber (NumInt z) => Return z
  | JNumber (NumOther _) => Throw                  (* RangeError *)
  | JBigInt z => Return z
  | JString s => StringToBigInt s
  | JArray _ | JObject _ => StringToBigInt (js_toString v)
  end.

Definition startsWith (s prefix : string) : bool :=
  String.prefix prefix s.

(** Longest prefix of [s] made of digits in [radix]; [None] if empty. *)
Fixpoint parse_prefix (radix : Z) (s : string) (acc : option Z) : option Z :=
  match s with
  | EmptyString => acc
  | String c rest =>
      match digit_value radix c with
      | Some d => parse_prefix radix rest (Some (default 0 acc * radix + d))
      | None => acc
      end
  end.

(** [parseInt(v, 16)]; [None] is NaN.  The result is taken exactly (block
    numbers are far below 2^53). *)
Definition parseInt16 (v : JsValue) : option Z :=
  let s := drop_ws (js_toString v) in
  let '(neg, s1) := match s with
                    | String "-" r => (true, r)
                    | String "+" r => (false, r)
                    | _ => (false, s)
                    end in
  let s2 := match s1 with
            | String "0" (String "x" r) | String "0" (String "X" r) => r
            | _ => s1
            end in
  z ← parse_prefix 16 s2 None; Some (if neg : bool then - z else z).

(** [parseInt(input.value, 10)], the input's value being a string. *)
Definition parseInt10 (s : string) : option Z :=
  let s := drop_ws s in
  let '(neg, s1) := match s with
                    | String "-" r => (true, r)
                    | String "+" r => (false, r)
                    | _ => (false, s)
                    end in
  z ← parse_prefix 10 s1 None; Some (if neg : bool then - z else z).

(* ===================================================================== *)
(** ** hexToBigInt                                                       *)
(* ===================================================================== *)

(** The conversion attempted inside the try block. *)
Definition hexConversion (hex : JsValue) : Completion Z :=
  match hex with
  | JString s =>
      let clean := if startsWith s "0x" then s else "0x" +:+ s in
      BigInt (JString clean)
  | _ => BigInt hex
  end.

Definition hexToBigInt (hex : JsValue) : Completion Z :=
  if negb (truthy hex) then Return 0
  else try_catch (hexConversion hex) (Return 0).

(* ===================================================================== *)
(** ** Decimal.js, as configured by the source                           *)
(* ===================================================================== *)

(** [Decimal.set({ precision: DECIMAL_PREC, rounding: ROUND_HALF_UP })].

    decimal.js is an external library (vendor/load-libs.js loads it from a
    CDN or from vendor/decimal.min.js); its arithmetic is written here as
    the library documents it.  A finite Decimal is [coef * 10^expo],
    stored without trailing zeros (zero is [DFin 0 0]).  The constructor
    is exact; [plus] and [div] return the exact result rounded to
    [DECIMAL_PREC] significant digits, ties away from zero.  The sign of
    zero is not represented, nor is the exponent range of the library
    (9e15), which no value built from a hex string can reach. *)
Definition DECIMAL_PREC : Z := 40.

Inductive Decimal : Type :=
| DFin (coef expo : Z)
| DInf (neg : bool)
| DNaN.

Fixpoint digits_go (fuel : nat) (x : Z) : Z :=
  match fuel with
  | O => 0
  | S k => if x <? 10 then 1 else 1 + digits_go k (x / 10)
  end.

(** Number of decimal digits of [x >= 0] (1 for 0). *)
Definition digits (x : Z) : Z := digits_go (S (Z.to_nat (Z.log2 x))) x.

Fixpoint strip_zeros (fuel : nat) (m e : Z) : Z * Z :=
  match fuel with
  | O => (m, e)
  | S k => if m mod 10 =? 0 then strip_zeros k (m / 10) (e + 1) else (m, e)
  end.

Definition mkDecimal (m e : Z) : Decimal :=
  if m =? 0 then DFin 0 0
  else let '(m', e') := strip_zeros (S (Z.to_nat (Z.log2 (Z.abs m)))) m e in
       DFin m' e'.

(** Rounding of [m * 10^e] to [DECIMAL_PREC] significant digits, half up. *)
Definition finalise (m e : Z) : Decimal :=
  let a := Z.abs m in
  let n := digits a in
  if n <=? DECIMAL_PREC then mkDecimal m e
  else
    let k := n - DECIMAL_PREC in
    let q := (a + 5 * 10 ^ (k - 1)) / 10 ^ k in
    mkDecimal (Z.sgn m * q) (e + k).

(** [new Decimal(bi.toString())], [new Decimal(1)], [new Decimal(arr.length)] *)
Definition Decimal_ofZ (z : Z) : Decimal := mkDecimal z 0.

Definition toDecimalFromBigInt (bi : Z) : Decimal := Decimal_ofZ bi.

(** The exact sum of two finite values, as coefficient and exponent. *)
Definition plus_exact (m1 e1 m2 e2 : Z) : Z * Z :=
  let e := Z.min e1 e2 in
  (m1 * 10 ^ (e1 - e) + m2 * 10 ^ (e2 - e), e).

Definition Decimal_plus (x y : Decimal) : Decimal :=
  match x, y with
  | DNaN, _ | _, DNaN => DNaN
  | DInf a, DInf b => if Bool.eqb a b then DInf a else DNaN
  | DInf a, DFin _ _ => DInf a
  | DFin _ _, DInf b => DInf b
  | DFin m1 e1, DFin m2 e2 =>
      let '(m, e) := plus_exact m1 e1 m2 e2 in finalise m e
  end.

(** Quotient: the numerator is scaled so that the truncated quotient has
    more than [DECIMAL_PREC] digits, and is then rounded; with ties going
    away from zero only the first dropped digit matters, so this is the
    correctly rounded quotient. *)
Definition Decimal_div (x y : Decimal) : Decimal :=
  match x, y with
  | DNaN, _ | _, DNaN => DNaN
  | DInf _, DInf _ => DNaN
  | DInf a, DFin m _ => DInf (xorb a (m <? 0))
  | DFin _ _, DInf _ => DFin 0 0
  | DFin m1 e1, DFin m2 e2 =>
      if m2 =? 0 then (if m1 =? 0 then DNaN else DInf (m1 <? 0))
      else if m1 =? 0 then DFin 0 0
      else
        let a := Z.abs m1 in
        let b := Z.abs m2 in
        let s := Z.max 0 (DECIMAL_PREC + 1 + digits b - digits a) in
        finalise (Z.sgn m1 * Z.sgn m2 * (a * 10 ^ s / b)) (e1 - e2 - s)
  end.

(* ===================================================================== *)
(** ** logBigInt: log2(x) * 2^64 in fixed point                          *)
(* ===================================================================== *)

Definition MANT_BITS : Z := 64.
Definition SCALE_2E64 : Z := Z.shiftl 1 64.

Definition shiftr1_Zwf (temp : Z) : 1 < temp → Zwf 0 (Z.shiftr temp 1) temp.
Proof.
  intros H. unfold Zwf. rewrite Z.shiftr_div_pow2 by lia.
  change (2 ^ 1) with 2. split; [lia |]. apply Z.div_lt; lia.
Defined.

(** [while (temp > 1n) { temp = temp >> 1n; c++; }], returning [c]. *)
Fixpoint logBigInt_loop (temp : Z) (acc : Acc (Zwf 0) temp) (c : Z)
    {struct acc} : Z :=
  match Z_lt_dec 1 temp with
  | left H =>
      logBigInt_loop (Z.shiftr temp 1) (Acc_inv acc (shiftr1_Zwf temp H)) (c + 1)
  | right _ => c
  end.

Definition logBigInt (x : Z) : Z :=
  if x <=? 0 then 0
  else
    let c := logBigInt_loop x (wf_guard 32 (Zwf_well_founded 0) x) 0 in
    let twoPowC := Z.shiftl 1 c in
    let remainder := x - twoPowC in
    let m := Z.quot (remainder * SCALE_2E64) twoPowC in
    c * SCALE_2E64 + m.

(* ===================================================================== *)
(** ** computeExactDeltaK and the legacy normalized formula              *)
(* ===================================================================== *)

Definition ONE_OVER_ALPHA_BI : Z := 1000.
Definition SCALE_BI : Z := Z.shiftl 1 64.

Module Exact.
Record t : Type := {
  ratio : Decimal;
  deltaK : Decimal;
  kQuaiIncrease : bool
}.
End Exact.

Definition neutralExact : Exact.t :=
  {| Exact.ratio := Decimal_ofZ 1; Exact.deltaK := Decimal_ofZ 0;
     Exact.kQuaiIncrease := false |}.

(** [num] as computed inside computeExactDeltaK. *)
Definition exactNum (xbStar minerDiff : Z) : Z :=
  xbStar * logBigInt minerDiff - SCALE_BI * minerDiff.

Definition computeExactDeltaK (bestDiffNormHex minerDiffHex : JsValue)
    : Completion Exact.t :=
  try_catch
    (xbStar ← hexToBigInt bestDiffNormHex;
     minerDiff ← hexToBigInt minerDiffHex;
     if (xbStar =? 0) || (minerDiff =? 0) || (minerDiff <=? 0) then
       Return neutralExact
     else
       let d1 := SCALE_BI * minerDiff in
       let d2 := logBigInt minerDiff in
       let xbStarTimesD2 := xbStar * d2 in
       let num := xbStarTimesD2 - d1 in
       let kQuaiIncrease := 0 <? num in
       let denum := d1 * ONE_OVER_ALPHA_BI in
       let deltaKDec := Decimal_div (Decimal_ofZ num) (Decimal_ofZ denum) in
       let ratioDec := Decimal_div (Decimal_ofZ xbStarTimesD2) (Decimal_ofZ d1) in
       Return {| Exact.ratio := ratioDec; Exact.deltaK := deltaKDec;
                 Exact.kQuaiIncrease := kQuaiIncrease |})
    (Return neutralExact).

Module Norm.
Record t : Type := {
  ratio : Decimal;
  deltaK : Decimal
}.
End Norm.

Definition neutralNorm : Norm.t :=
  {| Norm.ratio := Decimal_ofZ 1; Norm.deltaK := Decimal_ofZ 0 |}.

(** Legacy formula on the two normalized difficulties (approximate). *)
Definition computeRatioAndDeltaKFromNormHex (bestHex minerHex : JsValue)
    : Completion Norm.t :=
  try_catch
    (best ← hexToBigInt bestHex;
     miner ← hexToBigInt minerHex;
     if (best =? 0) || (miner =? 0) then Return neutralNorm
     else
       let ratioScaled := Z.quot (best * SCALE_BI) miner in
       let deltaScaled := ratioScaled - SCALE_BI in
       let deltaKScaled := Z.quot deltaScaled ONE_OVER_ALPHA_BI in
       let ratioDec := Decimal_div (Decimal_ofZ ratioScaled) (Decimal_ofZ SCALE_BI) in
       let deltaKDec := Decimal_div (Decimal_ofZ deltaKScaled) (Decimal_ofZ SCALE_BI) in
       Return {| Norm.ratio := ratioDec; Norm.deltaK := deltaKDec |})
    (Return neutralNorm).

(** Average an array of Decimal values.  The elements the series hands
    over are Decimals or null; bigints are accepted as well. *)
Inductive AvgArg : Type :=
| ArgDecimal (d : Decimal)
| ArgBigInt (z : Z)
| ArgNullish.

Definition avgArg_value (v : AvgArg) : Decimal :=
  match v with
  | ArgDecimal d => d
  | ArgBigInt z => Decimal_ofZ z
  | ArgNullish => Decimal_ofZ 0
  end.

Definition avgDec (arr : list AvgArg) : Decimal :=
  match arr with
  | [] => Decimal_ofZ 0
  | _ =>
      let sum := fold_left (fun sum v => Decimal_plus sum (avgArg_value v))
                           arr (Decimal_ofZ 0) in
      Decimal_div sum (Decimal_ofZ (Z.of_nat (length arr)))
  end.

(* ===================================================================== *)
(** ** Samples                                                           *)
(* ===================================================================== *)

Record Sample : Type := {
  primeNum : Z;
  header : JsValue;
  dInstant : option Decimal;
  dStar : option Decimal;
  deltaK : Decimal;
  ratio : Decimal;
  convInfo : JsValue;
  kQuai : JsValue
}.

(** [combinedMap[key] || null] *)
Definition map_get_or_null (m : gmap string JsValue) (key : string) : JsValue :=
  match m !! key with
  | Some v => js_or v JNull
  | None => JNull
  end.

(** The template literals [`${n}_m`], [`${n}_b`], [`${n}_h`]. *)
Definition idOf (n : Z) (suffix : string) : string := decimal_of_Z n +:+ suffix.

(** Which of the three branches computes ratio and deltaK of a block. *)
Inductive Formula : Type := UsedExact | UsedFallback | UsedNeutral.

Definition formulaFor (minerRaw bestRaw header : JsValue) : Formula :=
  if truthy bestRaw && truthy header && truthy (get_prop header "minerDifficulty")
  then UsedExact
  else if truthy minerRaw && truthy bestRaw then UsedFallback
  else UsedNeutral.

(** [hexToBigInt] of a raw difficulty, kept when positive. *)
Definition positiveDecimal (raw : JsValue) : Completion (option Decimal) :=
  try_catch
    (if truthy raw then
       big ← hexToBigInt raw;
       Return (if negb (big =? 0) && (0 <? big)
               then Some (toDecimalFromBigInt big) else None)
     else Return None)
    (Return None).

(** The body of the per-block loop, the same in fetchWindowData and in
    fetchAndAppendLatest. *)
Definition makeSample (map : gmap string JsValue) (n : Z) : Completion Sample :=
  let minerRaw := map_get_or_null map (idOf n "_m") in
  let bestRaw := map_get_or_null map (idOf n "_b") in
  let headerRaw := map_get_or_null map (idOf n "_h") in
  dInstant ← positiveDecimal minerRaw;
  dStar ← positiveDecimal bestRaw;
  let header := js_or headerRaw JNull in
  let kQuai := if truthy header && truthy (get_prop header "exchangeRate")
               then get_prop header "exchangeRate" else JNull in
  '(ratio, deltaK) ←
    match formulaFor minerRaw bestRaw header with
    | UsedExact =>
        r ← computeExactDeltaK bestRaw (get_prop header "minerDifficulty");
        Return (Exact.ratio r, Exact.deltaK r)
    | UsedFallback =>
        r ← computeRatioAndDeltaKFromNormHex bestRaw minerRaw;
        Return (Norm.ratio r, Norm.deltaK r)
    | UsedNeutral => Return (Decimal_ofZ 1, Decimal_ofZ 0)
    end;
  Return {| primeNum := n; header := header; dInstant := dInstant;
            dStar := dStar; deltaK := deltaK; ratio := ratio;
            convInfo := JNull; kQuai := kQuai |}.

(** The counter of fetchAndAppendLatest counts a block when all three
    results and both parsed difficulties are there. *)
Definition countsAsDetected (map : gmap string JsValue) (s : Sample) : bool :=
  let n := primeNum s in
  truthy (map_get_or_null map (idOf n "_m"))
  && truthy (map_get_or_null map (idOf n "_b"))
  && truthy (map_get_or_null map (idOf n "_h"))
  && bool_decide (is_Some (dInstant s)) && bool_decide (is_Some (dStar s)).

(* ===================================================================== *)
(** ** The page state and the effect monad                               *)
(* ===================================================================== *)

Record Request : Type := {
  req_method : string;
  req_params : list JsValue;
  req_id : string
}.

(** Body of one HTTP POST: a single JSON-RPC call or an array of them. *)
Inductive PostBody : Type :=
| SingleCall (method : string) (params : list JsValue)
| BatchCall (reqs : list Request).

(** What [fetch] and [res.json()] deliver. *)
Inductive HttpReply : Type :=
| FetchFailed                 (* network error, or abort by the timeout timer *)
| HttpNotOk                   (* !res.ok *)
| BodyNotJson                 (* res.json() rejects *)
| JsonData (data : JsValue).

(** The node, seen from the page: the reply to the k-th POST of the
    session, given its body. *)
Definition Server : Type := nat → PostBody → HttpReply.

Record World : Type := {
  currentSeries : list Sample;
  autoDetectedPrimes : Z;
  windowInputValue : string;      (* windowInput.value *)
  chunkInputValue : string;       (* chunkInput.value *)
  postLog : list PostBody         (* POSTs sent so far, oldest first *)
}.

Definition set_currentSeries (s : list Sample) (w : World) : World :=
  {| currentSeries := s; autoDetectedPrimes := autoDetectedPrimes w;
     windowInputValue := windowInputValue w;
     chunkInputValue := chunkInputValue w; postLog := postLog w |}.

Definition set_autoDetectedPrimes (n : Z) (w : World) : World :=
  {| currentSeries := currentSeries w; autoDetectedPrimes := n;
     windowInputValue := windowInputValue w;
     chunkInputValue := chunkInputValue w; postLog := postLog w |}.

Definition set_inputs (win chunk : string) (w : World) : World :=
  {| currentSeries := currentSeries w;
     autoDetectedPrimes := autoDetectedPrimes w;
     windowInputValue := win; chunkInputValue := chunk;
     postLog := postLog w |}.

Definition log_post (b : PostBody) (w : World) : World :=
  {| currentSeries := currentSeries w;
     autoDetectedPrimes := autoDetectedPrimes w;
     windowInputValue := windowInputValue w;
     chunkInputValue := chunkInputValue w; postLog := postLog w ++ [b] |}.

(** An asynchronous function, run to its end: it returns, it throws
    (rejects), or it never finishes.  Awaits are sequential; no other
    handler runs in between (the callers serialize with a busy flag). *)
Inductive Outcome (A : Type) : Type :=
| Done (a : A) (w : World)
| Raised (w : World)
| Hangs.
Arguments Done {A} a w.
Arguments Raised {A} w.
Arguments Hangs {A}.

Definition Eff (A : Type) : Type := World → Outcome A.

Global Instance Eff_ret : MRet Eff := λ A a w, Done a w.
Global Instance Eff_bind : MBind Eff := λ A B f c w,
  match c w with
  | Done a w' => f a w'
  | Raised w' => Raised w'
  | Hangs => Hangs
  end.

Definition throw {A} : Eff A := λ w, Raised w.
Definition hang {A} : Eff A := λ _, Hangs.
Definition get_world : Eff World := λ w, Done w w.
Definition modify (f : World → World) : Eff unit := λ w, Done tt (f w).

Definition lift {A} (c : Completion A) : Eff A :=
  match c with
  | Return a => mret a
  | Throw => throw
  end.

(** try/catch around awaited code: the handler runs in the state the
    throw left behind. *)
Definition try_catch_eff {A} (body handler : Eff A) : Eff A := λ w,
  match body w with
  | Done a w' => Done a w'
  | Raised w' => handler w'
  | Hangs => Hangs
  end.

(* ===================================================================== *)
(** ** The JSON-RPC client                                               *)
(* ===================================================================== *)

Section Client.
Variable srv : Server.

(** One [fetch(url, { method: "POST", body })]. *)
Definition post (body : PostBody) : Eff HttpReply := λ w,
  Done (srv (length (postLog w)) body) (log_post body w).

(** What one attempt of rpcCall makes of the reply. *)
Definition single_result (reply : HttpReply) : Completion JsValue :=
  match reply with
  | JsonData JNull | JsonData JUndefined => Throw   (* data.error on null *)
  | JsonData data =>
      if truthy (get_prop data "error") then Throw
      else Return (get_prop data "result")
  | _ => Throw
  end.

(** [for (attempt = 0; attempt <= retries; attempt++)], counted by the
    attempts that remain after this one.  The backoff sleeps are not
    represented. *)
Fixpoint rpcCall_from (method : string) (params : list JsValue)
    (retriesLeft : nat) : Eff JsValue :=
  reply ← post (SingleCall method params);
  match single_result reply, retriesLeft with
  | Return r, _ => mret r
  | Throw, S k => rpcCall_from method params k
  | Throw, O => throw
  end.

Definition rpcCall (method : string) (params : list JsValue)
    (retries : nat) : Eff JsValue :=
  rpcCall_from method params retries.

(** One item of a batch response, entered in the id -> result map.  The
    map stands for the own keys of the object the source fills; an id
    spelled [__proto__] is entered here like any other key, while in the
    source that assignment sets the prototype of the object instead (see
    [plain_replies]). *)
Definition batch_item (map : gmap string JsValue) (item : JsValue)
    : gmap string JsValue :=
  let id := get_prop item "id" in
  let id_undefined := match id with JUndefined => true | _ => false end in
  if negb (truthy item) || truthy (get_prop item "error") || id_undefined then
    if truthy item && negb id_undefined
    then <[js_toString id := JNull]> map
    else map
  else <[js_toString id := get_prop item "result"]> map.

Definition batch_result (reply : HttpReply)
    : Completion (gmap string JsValue) :=
  match reply with
  | JsonData (JArray data) => Return (fold_left batch_item data ∅)
  | _ => Throw             (* transport failure or 'Invalid batch response' *)
  end.

Fixpoint rpcBatch_from (batchReq : list Request) (retriesLeft : nat)
    : Eff (gmap string JsValue) :=
  reply ← post (BatchCall batchReq);
  match batch_result reply, retriesLeft with
  | Return m, _ => mret m
  | Throw, S k => rpcBatch_from batchReq k
  | Throw, O => throw
  end.

(** Send a JSON-RPC batch; returns a map id -> result|null. *)
Definition rpcBatch (batchReq : list Request) (retries : nat)
    : Eff (gmap string JsValue) :=
  rpcBatch_from batchReq retries.

(** [arr.slice(b, e)] *)
Definition js_slice {A} (arr : list A) (b e : Z) : list A :=
  let len := Z.of_nat (length arr) in
  let clamp := fun k => if k <? 0 then Z.max (len + k) 0 else Z.min k len in
  let b' := clamp b in
  let e' := clamp e in
  take (Z.to_nat (e' - b')) (drop (Z.to_nat b') arr).

(** [for (let i = 0; i < batchReq.length; i += maxPer)] with its body;
    a failing slice is skipped.  [fuel] bounds the iterations; running
    out of it stands for a loop that does not end. *)
Fixpoint sendSlices (fuel : nat) (batchReq : list Request) (maxPer : Z)
    (retries : nat) (i : Z) (merged : gmap string JsValue)
    : Eff (gmap string JsValue) :=
  if i <? Z.of_nat (length batchReq) then
    match fuel with
    | O => hang
    | S k =>
        let slice := js_slice batchReq i (i + maxPer) in
        merged' ← try_catch_eff
                    (partMap ← rpcBatch slice retries;
                     mret (partMap ∪ merged))
                    (mret merged);
        sendSlices k batchReq maxPer retries (i + maxPer) merged'
    end
  else mret merged.

(** Send very large batch requests by splitting into smaller POSTs of
    [maxPer] items; returns the merged map. *)
Definition sendBatchWithLimit (batchReq : list Request) (maxPer : Z)
    (retries : nat) : Eff (gmap string JsValue) :=
  if (length batchReq =? 0)%nat then mret ∅
  else if Z.of_nat (length batchReq) <=? maxPer then
    try_catch_eff (rpcBatch batchReq retries) throw
  else sendSlices (length batchReq) batchReq maxPer retries 0 ∅.

(* =================================================================== *)
(** ** The series window                                               *)
(* =================================================================== *)

Definition blockParam (n : Z) : list JsValue :=
  [JString ("0x" +:+ toString16 n)].

(** The three requests of one block. *)
Definition blockRequests (n : Z) : list Request :=
  [ {| req_method := "quai_getMinerDiffNormalized";
       req_params := blockParam n; req_id := idOf n "_m" |};
    {| req_method := "quai_getBestDiffNormalized";
       req_params := blockParam n; req_id := idOf n "_b" |};
    {| req_method := "quai_getHeaderByNumber";
       req_params := blockParam n; req_id := idOf n "_h" |} ].

(** [parseInt(input.value, 10) || 4000] *)
Definition inputOr (value : string) (dflt : Z) : Z :=
  match parseInt10 value with
  | Some 0 | None => dflt
  | Some n => n
  end.

(** [for (let n = from; n <= to; n++) push(n)] *)
Definition blockRange (from to : Z) : list Z := seqZ from (to - from + 1).

(** [sendBatchWithLimit(url, batch, 2000, { retries: 0 }).catch(e => ({}))] *)
Definition sendFallback (batch : list Request) : Eff (gmap string JsValue) :=
  try_catch_eff (sendBatchWithLimit batch 2000 0) (mret ∅).

(** The combined batch of fetchWindowData: two POSTs first, size-limited
    slices when that fails. *)
Definition fetchCombined (combinedBatch : list Request)
    : Eff (gmap string JsValue) :=
  try_catch_eff
    (if (length combinedBatch <=? 1)%nat then rpcBatch combinedBatch 0
     else
       let mid := (Z.of_nat (length combinedBatch) + 1) / 2 in
       let firstSlice := js_slice combinedBatch 0 mid in
       let secondSlice :=
         js_slice combinedBatch mid (Z.of_nat (length combinedBatch)) in
       try_catch_eff
         (firstMap ← rpcBatch firstSlice 0;
          secondMap ← rpcBatch secondSlice 0;
          mret (secondMap ∪ firstMap))
         (sendFallback combinedBatch))
    (sendFallback combinedBatch).

Fixpoint makeSeries (map : gmap string JsValue) (primeNums : list Z)
    : Completion (list Sample) :=
  match primeNums with
  | [] => Return []
  | n :: rest =>
      s ← makeSample map n;
      series ← makeSeries map rest;
      Return (s :: series)
  end.

(** fetchWindowData, from reading the inputs to the store into
    [currentSeries].  What follows the store is not part of this
    definition: updateUIFromSeries (the chunk loop, see [aggregate], the
    chart, and the single-value lookups quai_getHeaderByNumber and
    quai_qiToQuai) and fetchConversionAndKQuai (two more single-value
    lookups) read the series and send further single-call POSTs.  What is
    proved of [fetchWindowData] holds of the source up to the store. *)
Definition fetchWindowData : Eff unit :=
  w ← get_world;
  let totalPrime := inputOr (windowInputValue w) 4000 in
  let chunkSizePrime := inputOr (chunkInputValue w) 200 in
  modify (set_inputs (decimal_of_Z totalPrime) (decimal_of_Z chunkSizePrime));;
  try_catch_eff
    (latestHex ← rpcCall "quai_blockNumber" [] 0;
     match parseInt16 latestHex with
     | None => throw                 (* NaN bounds: the list stays empty *)
     | Some latestPrimeBlock =>
         let startPrimeBlock := Z.max 0 (latestPrimeBlock - totalPrime + 1) in
         let primeNums := blockRange startPrimeBlock latestPrimeBlock in
         match primeNums with
         | [] => throw               (* "No Prime blocks found in this window." *)
         | _ =>
             let combinedBatch := flat_map blockRequests primeNums in
             combinedMap ← fetchCombined combinedBatch;
             series ← lift (makeSeries combinedMap primeNums);
             match series with
             | [] => throw           (* "No valid Prime samples in this window." *)
             | _ => modify (set_currentSeries series)
             end
         end
     end)
    (mret tt).

(** [while (currentSeries.length > totalPrime) currentSeries.shift()] *)
Fixpoint trimSeries (fuel : nat) (totalPrime : Z) (series : list Sample)
    : option (list Sample) :=
  if totalPrime <? Z.of_nat (length series) then
    match fuel with
    | O => None
    | S k => trimSeries k totalPrime (tail series)
    end
  else Some series.

(** The per-block loop of fetchAndAppendLatest: push, then count. *)
Fixpoint appendSamples (map : gmap string JsValue) (newPrimes : list Z)
    : Eff unit :=
  match newPrimes with
  | [] => mret tt
  | n :: rest =>
      s ← lift (makeSample map n);
      modify (λ w, set_currentSeries (currentSeries w ++ [s]) w);;
      (if countsAsDetected map s
       then modify (λ w, set_autoDetectedPrimes (autoDetectedPrimes w + 1) w)
       else mret tt);;
      appendSamples map rest
  end.

(** Incremental polling: fetch the latest prime and append if new (up to
    the trim of the series; the chart update follows). *)
Definition fetchAndAppendLatest : Eff unit :=
  try_catch_eff
    (latestHex ← rpcCall "quai_blockNumber" [] 0;
     let latest := parseInt16 latestHex in
     w ← get_world;
     match last (currentSeries w) with
     | None => fetchWindowData
     | Some lastSample =>
         let lastPrimeNum := primeNum lastSample in
         match latest with
         | None => mret tt           (* NaN: the list of new primes is empty *)
         | Some latestPrimeBlock =>
             if latestPrimeBlock <=? lastPrimeNum then mret tt
             else
               let newPrimes := blockRange (lastPrimeNum + 1) latestPrimeBlock in
               match newPrimes with
               | [] => mret tt
               | _ =>
                   let batch := flat_map blockRequests newPrimes in
                   map ← try_catch_eff (rpcBatch batch 0) (sendFallback batch);
                   appendSamples map newPrimes;;
                   w' ← get_world;
                   let totalPrime := inputOr (windowInputValue w') 4000 in
                   match trimSeries (S (length (currentSeries w'))) totalPrime
                                    (currentSeries w') with
                   | None => hang
                   | Some trimmed => modify (set_currentSeries trimmed)
                   end
               end
         end
     end)
    (mret tt).

End Client.

(* ===================================================================== *)
(** ** Chunk averages (the first loop of updateUIFromSeries)             *)
(* ===================================================================== *)

Record ChunkRow : Type := {
  firstPrime : Z;                 (* the label is `${firstPrime}–${lastPrime}` *)
  lastPrime : Z;
  avgD : Decimal;
  avgDStar : Decimal;
  avgDk : Decimal
}.

Definition optArg (d : option Decimal) : AvgArg :=
  match d with
  | Some x => ArgDecimal x
  | None => ArgNullish
  end.

Definition chunkRow (chunk : list Sample) : option ChunkRow :=
  match chunk, last chunk with
  | first :: _, Some lst =>
      Some {| firstPrime := primeNum first; lastPrime := primeNum lst;
              avgD := avgDec (map (λ x, optArg (dInstant x)) chunk);
              avgDStar := avgDec (map (λ x, optArg (dStar x)) chunk);
              avgDk := avgDec (map (λ x, ArgDecimal (deltaK x)) chunk) |}
  | _, _ => None
  end.

(** [for (let i = 0; i < series.length; i += chunkSizePrime)]; [None]
    when the fuel runs out, which stands for a loop that does not end. *)
Fixpoint chunkLoop (fuel : nat) (series : list Sample) (chunkSizePrime : Z)
    (i : Z) : option (list ChunkRow) :=
  if i <? Z.of_nat (length series) then
    match fuel with
    | O => None
    | S k =>
        let chunk := js_slice series i (i + chunkSizePrime) in
        rest ← chunkLoop k series chunkSizePrime (i + chunkSizePrime);
        Some (match chunkRow chunk with
              | Some row => row :: rest
              | None => rest                 (* if (!chunk.length) continue *)
              end)
    end
  else Some [].

Definition aggregate (series : list Sample) (chunkSizePrime : Z)
    : option (list ChunkRow) :=
  chunkLoop (length series) series chunkSizePrime 0.

(* ===================================================================== *)
(** ** Notions used in the statements                                    *)
(* ===================================================================== *)

(** Number of binary digits of a positive integer (0 otherwise). *)
Definition bitLength (x : Z) : Z :=
  match x with
  | Z.pos p => Z.pos (Pos.size p)
  | _ => 0
  end.

(** Comparison of a Decimal with zero. *)
Definition Decimal_lt0 (d : Decimal) : Prop :=
  match d with
  | DFin m _ => m < 0
  | DInf neg => neg = true
  | DNaN => False
  end.

Definition Decimal_gt0 (d : Decimal) : Prop :=
  match d with
  | DFin m _ => 0 < m
  | DInf neg => neg = false
  | DNaN => False
  end.

(** The sum of two Decimals without rounding. *)
Definition Decimal_plus_exact (x y : Decimal) : Decimal :=
  match x, y with
  | DNaN, _ | _, DNaN => DNaN
  | DInf a, DInf b => if Bool.eqb a b then DInf a else DNaN
  | DInf a, DFin _ _ => DInf a
  | DFin _ _, DInf b => DInf b
  | DFin m1 e1, DFin m2 e2 =>
      let '(m, e) := plus_exact m1 e1 m2 e2 in mkDecimal m e
  end.

(** The average as the specification words it: the exact decimal sum of
    the values, divided by their count. *)
Definition avgExact (arr : list AvgArg) : Decimal :=
  match arr with
  | [] => Decimal_ofZ 0
  | _ =>
      Decimal_div
        (fold_left (fun sum v => Decimal_plus_exact sum (avgArg_value v))
                   arr (Decimal_ofZ 0))
        (Decimal_ofZ (Z.of_nat (length arr)))
  end.

(** No running sum of [arr], started from [sum], needs more than
    DECIMAL_PREC digits. *)
Fixpoint sumsFit (sum : Decimal) (arr : list AvgArg) : Prop :=
  match arr with
  | [] => True
  | v :: rest =>
      match sum, avgArg_value v with
      | DFin m1 e1, DFin m2 e2 =>
          digits (Z.abs (fst (plus_exact m1 e1 m2 e2))) <= DECIMAL_PREC
      | _, _ => True
      end
      ∧ sumsFit (Decimal_plus sum (avgArg_value v)) rest
  end.

(** Consecutive groups of [n] elements, the last one possibly shorter. *)
Fixpoint chunksOf_go {A} (fuel n : nat) (l : list A) : list (list A) :=
  match fuel, l with
  | S k, _ :: _ => take n l :: chunksOf_go k n (drop n l)
  | _, _ => []
  end.

Definition chunksOf {A} (n : nat) (l : list A) : list (list A) :=
  chunksOf_go (length l) n l.

(** The page after some more POSTs and nothing else. *)
Definition add_posts (ps : list PostBody) (w : World) : World :=
  {| currentSeries := currentSeries w;
     autoDetectedPrimes := autoDetectedPrimes w;
     windowInputValue := windowInputValue w;
     chunkInputValue := chunkInputValue w; postLog := postLog w ++ ps |}.

(** An effectful computation that only sends POSTs. *)
Definition only_posts {A} (c : Eff A) : Prop :=
  ∀ w, match c w with
       | Done _ w' | Raised w' => ∃ ps, w' = add_posts ps w
       | Hangs => True
       end.

(** An effectful computation that cannot run forever. *)
Definition no_hang {A} (c : Eff A) : Prop := ∀ w, c w ≠ Hangs.

(** An effectful computation that always returns. *)
Definition always_done {A} (c : Eff A) : Prop :=
  ∀ w, ∃ a ps, c w = Done a (add_posts ps w).

(** The ids a list of requests asks for. *)
Definition idsOf (reqs : list Request) : gset string :=
  list_to_set (map req_id reqs).

(** The window fetchWindowData reads from the input, and the block range
    it derives from the latest block number. *)
Definition windowOf (w : World) : Z := inputOr (windowInputValue w) 4000.

Definition windowRange (w : World) (latestPrimeBlock : Z) : list Z :=
  blockRange (Z.max 0 (latestPrimeBlock - windowOf w + 1)) latestPrimeBlock.

(** The page once fetchWindowData has rewritten the two inputs. *)
Definition normalizedInputs (w : World) : World :=
  set_inputs (decimal_of_Z (inputOr (windowInputValue w) 4000))
             (decimal_of_Z (inputOr (chunkInputValue w) 200)) w.

(** The outcome of the quai_blockNumber call that opens both fetches:
    the parsed block number, when the call succeeds and parses. *)
Definition latestBlockReply (srv : Server) (w : World) : option Z :=
  match single_result (srv (length (postLog w)) (SingleCall "quai_blockNumber" [])) with
  | Return latestHex => parseInt16 latestHex
  | Throw => None
  end.

(** The sample of a block none of whose results is in the map. *)
Definition neutralSample (n : Z) : Sample :=
  {| primeNum := n; header := JNull; dInstant := None; dStar := None;
     deltaK := DFin 0 0; ratio := DFin 1 0; convInfo := JNull; kQuai := JNull |}.

(** What a sample holds besides the raw header it was built from. *)
Definition metricsOf (s : Sample)
    : Z * option Decimal * option Decimal * Decimal * Decimal * JsValue * JsValue :=
  (primeNum s, dInstant s, dStar s, deltaK s, ratio s, convInfo s, kQuai s).

(* ===================================================================== *)
(** ** Concrete nodes, pages and answers                                 *)
(* ===================================================================== *)

Definition blankPage : World :=
  {| currentSeries := []; autoDetectedPrimes := 0;
     windowInputValue := "4000"; chunkInputValue := "200"; postLog := [] |}.

Definition echoItem (r : Request) : JsValue :=
  JObject [("id", JString (req_id r)); ("result", JString "0x1")].

(** A node that answers every request of a batch, except that the POST
    number [failAt] of the session is lost. *)
Definition flakyNode (failAt : nat) : Server := λ k body,
  if (k =? failAt)%nat then FetchFailed
  else match body with
       | BatchCall reqs => JsonData (JArray (map echoItem reqs))
       | SingleCall _ _ => JsonData (JObject [("result", JString "0x0")])
       end.

Definition numberedRequests (count : Z) : list Request :=
  map (λ i, {| req_method := "quai_getHeaderByNumber";
               req_params := [JString ("0x" +:+ toString16 i)];
               req_id := decimal_of_Z i |})
      (seqZ 0 count).

(** A node that reports block 2 as the latest and loses every batch. *)
Definition batchlessNode : Server := λ _ body,
  match body with
  | SingleCall _ _ => JsonData (JObject [("result", JString "0x2")])
  | BatchCall _ => FetchFailed
  end.

(** A node that reports block 10000 as the latest and answers batches
    with an empty array. *)
Definition quietNode : Server := λ _ body,
  match body with
  | SingleCall _ _ => JsonData (JObject [("result", JString "0x2710")])
  | BatchCall _ => JsonData (JArray [])
  end.

(** A page holding one fully populated sample, for block 2. *)
Definition priorSample : Sample :=
  {| primeNum := 2;
     header := JObject [("minerDifficulty", JString "0x6");
                        ("exchangeRate", JString "0x3e8")];
     dInstant := Some (DFin 5 0); dStar := Some (DFin 1 0);
     deltaK := DFin (-5833333333333333333333333333333333333333) (-43);
     ratio := DFin 4166666666666666666666666666666666666667 (-40);
     convInfo := JNull; kQuai := JString "0x3e8" |}.

Definition priorPage : World :=
  {| currentSeries := [priorSample]; autoDetectedPrimes := 0;
     windowInputValue := "4000"; chunkInputValue := "200"; postLog := [] |}.

(** Block 7 answered with the raw miner difficulty in its header, and
    answered without it. *)
Definition exactAnswers : gmap string JsValue :=
  <["7_m" := JString "0x2"]>
    (<["7_b" := JString "0x2"]>
       (<["7_h" := JObject [("minerDifficulty", JString "0x2")]]> ∅)).

Definition fallbackAnswers : gmap string JsValue :=
  <["7_m" := JString "0x2"]>
    (<["7_b" := JString "0x2"]>
       (<["7_h" := JObject [("timestamp", JString "0x65f0")]]> ∅)).

(** Blocks 1 and 2, both with their raw miner difficulty. *)
Definition twoBlockAnswers : gmap string JsValue :=
  <["1_b" := JString "0x7d2"]>
    (<["1_h" := JObject [("minerDifficulty", JString "0x2")]]>
       (<["2_b" := JString "0x1"]>
          (<["2_h" := JObject [("minerDifficulty", JString "0x6")]]> ∅))).

(* ===================================================================== *)
(** ** hexToInt and formatWeiToQuai                                      *)
(* ===================================================================== *)

(** [if (!hex) return 0; return parseInt(hex, 16);]  [None] is NaN; the
    Number is taken exactly, which it is below 2^53. *)
Definition hexToInt (hex : JsValue) : option Z :=
  if negb (truthy hex) then Some 0 else parseInt16 hex.

(** [s.padStart(targetLength, c)] for a one-character pad string. *)
Definition padStart (s : string) (targetLength : Z) (c : ascii) : string :=
  Nat.iter (Z.to_nat targetLength - String.length s) (String c) s.

Fixpoint drop_zeros (s : string) : string :=
  match s with
  | String c rest => if Ascii.eqb c "0" then drop_zeros rest else s
  | EmptyString => EmptyString
  end.

(** [s.replace(/0+$/, '')] *)
Definition strip_trailing_zeros (s : string) : string :=
  String.rev (drop_zeros (String.rev s)).

(** Format a BigInt amount in wei (1e18) as a Quai string.  A negative
    [decimals] makes [10n ** BigInt(decimals)] throw a RangeError, and
    the catch clause answers [String(amountWei)]. *)
Definition formatWeiToQuai (amountWei : Z) (decimals : Z) : string :=
  if decimals <? 0 then decimal_of_Z amountWei
  else
    let WEI := 10 ^ 18 in
    let whole := Z.quot amountWei WEI in
    let rem := Z.rem amountWei WEI in
    let scale := 10 ^ decimals in
    let frac := Z.quot (rem * scale) WEI in
    let fracStr := padStart (decimal_of_Z frac) decimals "0" in
    let fracStr := if 0 <? decimals then strip_trailing_zeros fracStr
                   else fracStr in
    match fracStr with
    | EmptyString => decimal_of_Z whole
    | _ => decimal_of_Z whole +:+ "." +:+ fracStr
    end.

(* ===================================================================== *)
(** ** Further notions, nodes and pages                                  *)
(* ===================================================================== *)

(** A string made of hexadecimal digits only. *)
Fixpoint all_hex (s : string) : bool :=
  match s with
  | EmptyString => true
  | String c r => bool_decide (is_Some (digit_value 16 c)) && all_hex r
  end.

(** A string without white space. *)
Fixpoint no_ws (s : string) : bool :=
  match s with
  | EmptyString => true
  | String c r => negb (is_ws c) && no_ws r
  end.

(** The key under which rpcBatch enters an item of a batch response, if it
    enters it, and the value it enters. *)
Definition item_id (item : JsValue) : option string :=
  match get_prop item "id" with
  | JUndefined => None
  | id => if truthy item then Some (js_toString id) else None
  end.

Definition item_value (item : JsValue) : JsValue :=
  if truthy (get_prop item "error") then JNull else get_prop item "result".

(** A finite Decimal that is not negative. *)
Definition Decimal_ge0 (d : Decimal) : Prop :=
  match d with
  | DFin m _ => 0 <= m
  | _ => False
  end.

(** A node that reports block 5 as the latest and answers every request
    of a batch. *)
Definition growingNode : Server := λ _ body,
  match body with
  | SingleCall _ _ => JsonData (JObject [("result", JString "0x5")])
  | BatchCall reqs => JsonData (JArray (map echoItem reqs))
  end.


Definition negativePage : World :=
  {| currentSeries := [priorSample]; autoDetectedPrimes := 0;
     windowInputValue := "-5"; chunkInputValue := "200"; postLog := [] |}.

(* ===================================================================== *)
(** ** What the batch replies deliver                                    *)
(* ===================================================================== *)









(** Block 7 with a normalized miner difficulty that does not parse, a
    best difficulty and the raw miner difficulty in its header. *)
Definition malformedMinerAnswers : gmap string JsValue :=
  <["7_m" := JString "0x1g"]>
    (<["7_b" := JString "0x4"]>
       (<["7_h" := JObject [("minerDifficulty", JString "0x2")]]> ∅)).

(* ===================================================================== *)
(** * Properties                                                         *)
(* ===================================================================== *)

(** ** The models on a few inputs *)

Example hexToBigInt_examples :
  hexToBigInt (JString "0x64") = Return 100 ∧
  hexToBigInt (JString "64") = Return 100 ∧
  hexToBigInt (JString "0x") = Return 0 ∧
  hexToBigInt (JString "zz") = Return 0 ∧
  hexToBigInt (JNumber (NumOther "1.5")) = Return 0 ∧
  hexToBigInt (JObject []) = Return 0 ∧
  hexToBigInt (JArray [JString "0x10"]) = Return 16.
Proof. repeat split. Qed.

Example parseInt_examples :
  parseInt16 (JString "0x2710") = Some 10000 ∧
  parseInt16 (JString "zz") = None ∧
  parseInt10 "4000" = Some 4000 ∧
  inputOr "abc" 4000 = 4000 ∧ inputOr "0" 200 = 200 ∧ inputOr "-5" 4000 = -5.
Proof. repeat split. Qed.

Example Decimal_examples :
  Decimal_div (Decimal_ofZ 1) (Decimal_ofZ 3)
    = DFin 3333333333333333333333333333333333333333 (-40) ∧
  Decimal_div (Decimal_ofZ 2) (Decimal_ofZ 3)
    = DFin 6666666666666666666666666666666666666667 (-40) ∧
  Decimal_div (Decimal_ofZ 700) (Decimal_ofZ 100) = DFin 7 0 ∧
  Decimal_plus (Decimal_ofZ (10 ^ 40)) (Decimal_ofZ 1) = DFin 1 40 ∧
  Decimal_plus (DFin 15 (-1)) (DFin 25 (-2)) = DFin 175 (-2).
Proof. repeat split. Qed.

Example logBigInt_examples :
  logBigInt 1 = 0 ∧ logBigInt 2 = 2 ^ 64 ∧
  logBigInt 100 = 6 * 2 ^ 64 + 36 * 2 ^ 64 / 64.
Proof. repeat split. Qed.

(** ** logBigInt *)

Lemma bitLength_log2 (x : Z) : 0 < x → bitLength x = Z.log2 x + 1.
Proof.
  destruct x as [|p|p]; try lia. intros _.
  destruct p as [p|p|]; simpl; try reflexivity; lia.
Qed.

Lemma logBigInt_loop_log2 :
  ∀ (x : Z) (acc : Acc (Zwf 0) x) (c : Z),
    0 < x → logBigInt_loop x acc c = c + Z.log2 x.
Proof.
  fix FIX 2. intros x [a] c Hx. simpl.
  destruct (Z_lt_dec 1 x) as [H|H].
  - rewrite FIX.
    + rewrite Z.log2_shiftr by lia.
      assert (1 <= Z.log2 x) by (apply Z.log2_le_pow2; simpl; lia). lia.
    + rewrite Z.shiftr_div_pow2 by lia. change (2 ^ 1) with 2.
      apply Z.div_str_pos. lia.
  - assert (x = 1) as -> by lia. simpl. lia.
Qed.

Lemma logBigInt_pos (x : Z) :
  0 < x →
  logBigInt x =
    Z.log2 x * 2 ^ 64 + ((x - 2 ^ Z.log2 x) * 2 ^ 64) / 2 ^ Z.log2 x.
Proof.
  intros Hx. unfold logBigInt.
  destruct (Z.leb_spec x 0) as [?|_]; [lia|].
  rewrite logBigInt_loop_log2 by lia. rewrite Z.add_0_l.
  pose proof (Z.log2_nonneg x) as Hc.
  pose proof (Z.log2_spec x Hx) as [Hlo Hhi].
  assert (0 < 2 ^ Z.log2 x) by (apply Z.pow_pos_nonneg; lia).
  cbv zeta. rewrite Z.shiftl_1_l.
  change SCALE_2E64 with (2 ^ 64).
  rewrite Z.quot_div_nonneg; [reflexivity | | lia].
  apply Z.mul_nonneg_nonneg; lia.
Qed.

(** C1. log2Fixed: 0 for x <= 0; for x > 0 the result is c*2^64 + m with
    c = bitLength(x) - 1, which satisfies 2^c <= x < 2^(c+1), and
    m = floor((x - 2^c) * 2^64 / 2^c), which satisfies 0 <= m < 2^64.
    The model computes on integers only. *)
Theorem logBigInt_fixed_point (x : Z) :
  (x <= 0 → logBigInt x = 0) ∧
  (0 < x →
     let c := bitLength x - 1 in
     let m := ((x - 2 ^ c) * 2 ^ 64) / 2 ^ c in
     0 <= c ∧ 2 ^ c <= x < 2 ^ (c + 1) ∧ 0 <= m < 2 ^ 64 ∧
     logBigInt x = c * 2 ^ 64 + m).
Proof.
  split.
  - intros Hx. unfold logBigInt. destruct (Z.leb_spec x 0); [reflexivity | lia].
  - intros Hx. cbv zeta. rewrite bitLength_log2 by lia.
    replace (Z.log2 x + 1 - 1) with (Z.log2 x) by lia.
    pose proof (Z.log2_nonneg x) as Hc.
    pose proof (Z.log2_spec x Hx) as [Hlo Hhi].
    replace (Z.succ (Z.log2 x)) with (Z.log2 x + 1) in Hhi by lia.
    assert (Hp : 0 < 2 ^ Z.log2 x) by (apply Z.pow_pos_nonneg; lia).
    repeat split; try lia.
    + apply Z.div_pos; [|lia]. apply Z.mul_nonneg_nonneg; lia.
    + apply Z.div_lt_upper_bound; [lia|].
      rewrite Z.pow_add_r in Hhi by lia. change (2 ^ 1) with 2 in Hhi. nia.
    + apply logBigInt_pos; lia.
Qed.

Lemma logBigInt_fixed_point_witness :
  logBigInt 0 = 0 ∧
  (0 <= 6 ∧ 2 ^ 6 <= 100 < 2 ^ 7 ∧
   0 <= 10376293541461622784 < 2 ^ 64 ∧
   logBigInt 100 = 6 * 2 ^ 64 + 10376293541461622784).
Proof.
  split.
  - apply (proj1 (logBigInt_fixed_point 0)). lia.
  - apply (proj2 (logBigInt_fixed_point 100)). lia.
Defined.

(** ** Decimal arithmetic: digit counts and signs *)

Lemma digits_go_bounds (fuel : nat) :
  ∀ x, 0 < x → x < 2 ^ Z.of_nat fuel →
       1 <= digits_go fuel x ∧
       10 ^ (digits_go fuel x - 1) <= x < 10 ^ digits_go fuel x.
Proof.
  induction fuel as [|k IH]; intros x Hx Hlt.
  - simpl in Hlt. lia.
  - cbn [digits_go]. destruct (Z.ltb_spec x 10) as [Hs|Hs].
    + simpl. lia.
    + assert (Hq : 0 < x / 10) by (apply Z.div_str_pos; lia).
      assert (Hq2 : x / 10 < 2 ^ Z.of_nat k).
      { apply Z.div_lt_upper_bound; [lia|].
        rewrite Nat2Z.inj_succ, Z.pow_succ_r in Hlt by lia. lia. }
      destruct (IH _ Hq Hq2) as (H1 & Hlo & Hhi).
      pose proof (Z.mul_div_le x 10 ltac:(lia)) as Hm.
      pose proof (Z.mul_succ_div_gt x 10 ltac:(lia)) as Hm'.
      split; [lia|].
      replace (1 + digits_go k (x / 10) - 1) with (Z.succ (digits_go k (x / 10) - 1)) by lia.
      replace (1 + digits_go k (x / 10)) with (Z.succ (digits_go k (x / 10))) by lia.
      rewrite !Z.pow_succ_r by lia. lia.
Qed.

Lemma digits_bounds (x : Z) :
  0 < x → 1 <= digits x ∧ 10 ^ (digits x - 1) <= x < 10 ^ digits x.
Proof.
  intros Hx. unfold digits. apply digits_go_bounds; [lia|].
  rewrite Nat2Z.inj_succ, Z2Nat.id by apply Z.log2_nonneg.
  apply Z.log2_spec. lia.
Qed.

Lemma strip_zeros_sgn (fuel : nat) :
  ∀ m e, m ≠ 0 → Z.sgn (fst (strip_zeros fuel m e)) = Z.sgn m.
Proof.
  induction fuel as [|k IH]; intros m e Hm; [reflexivity|].
  cbn [strip_zeros]. destruct (Z.eqb_spec (m mod 10) 0) as [H0|H0]; [|reflexivity].
  pose proof (Z.div_mod m 10 ltac:(lia)) as Hd.
  rewrite IH by lia. lia.
Qed.

Lemma mkDecimal_sgn (m e : Z) :
  ∃ m' e', mkDecimal m e = DFin m' e' ∧ Z.sgn m' = Z.sgn m.
Proof.
  unfold mkDecimal. destruct (Z.eqb_spec m 0) as [->|Hm].
  - exists 0, 0. split; reflexivity.
  - pose proof (strip_zeros_sgn (S (Z.to_nat (Z.log2 (Z.abs m)))) m e Hm) as Hs.
    destruct (strip_zeros _ m e) as [m' e']. exists m', e'. split; [reflexivity|exact Hs].
Qed.

Lemma finalise_sgn (m e : Z) :
  ∃ m' e', finalise m e = DFin m' e' ∧ Z.sgn m' = Z.sgn m.
Proof.
  unfold finalise. cbv zeta.
  destruct (Z.leb_spec (digits (Z.abs m)) DECIMAL_PREC) as [Hn|Hn].
  - apply mkDecimal_sgn.
  - assert (Ha : 0 < Z.abs m).
    { destruct (Z.eq_dec m 0) as [->|]; [|lia]. change (digits (Z.abs 0)) with 1 in Hn. unfold DECIMAL_PREC in Hn. lia. }
    destruct (digits_bounds _ Ha) as (_ & Hlo & _).
    set (k := digits (Z.abs m) - DECIMAL_PREC) in *.
    assert (Hk : 1 <= k) by lia.
    assert (Hpk : 0 < 10 ^ k) by (apply Z.pow_pos_nonneg; lia).
    assert (Hge : 10 ^ k <= Z.abs m).
    { etransitivity; [|exact Hlo]. apply Z.pow_le_mono_r; unfold DECIMAL_PREC in *; lia. }
    assert (Hq : 0 < (Z.abs m + 5 * 10 ^ (k - 1)) / 10 ^ k).
    { apply Z.div_str_pos. split; [lia|].
      assert (0 < 10 ^ (k - 1)) by (apply Z.pow_pos_nonneg; lia). lia. }
    destruct (mkDecimal_sgn (Z.sgn m * ((Z.abs m + 5 * 10 ^ (k - 1)) / 10 ^ k)) (e + k))
      as (m' & e' & -> & Hs).
    exists m', e'. split; [reflexivity|]. rewrite Hs. nia.
Qed.

Lemma strip_zeros_value (fuel : nat) :
  ∀ m e, let '(m', e') := strip_zeros fuel m e in
         e <= e' ∧ m = m' * 10 ^ (e' - e).
Proof.
  induction fuel as [|k IH]; intros m e.
  - cbn [strip_zeros]. rewrite Z.sub_diag. split; lia.
  - cbn [strip_zeros]. destruct (Z.eqb_spec (m mod 10) 0) as [H0|H0].
    + specialize (IH (m / 10) (e + 1)).
      destruct (strip_zeros k (m / 10) (e + 1)) as [m' e'].
      destruct IH as [Hle Hval]. split; [lia|].
      pose proof (Z.div_mod m 10 ltac:(lia)) as Hd.
      replace (e' - e) with (Z.succ (e' - (e + 1))) by lia.
      rewrite Z.pow_succ_r by lia. lia.
    + rewrite Z.sub_diag. split; lia.
Qed.

(** [mkDecimal] keeps the value: it only moves factors of ten from the
    coefficient to the exponent. *)
Lemma mkDecimal_value (m e : Z) :
  ∃ m' e' d, mkDecimal m e = DFin m' e' ∧ 0 <= d ∧ m = m' * 10 ^ d ∧
             (m ≠ 0 → e' = e + d) ∧ (m ≠ 0 → m mod 10 = 0 → 1 <= d).
Proof.
  unfold mkDecimal. destruct (Z.eqb_spec m 0) as [->|Hm].
  - exists 0, 0, 0. repeat split; lia.
  - set (k := Z.to_nat (Z.log2 (Z.abs m))).
    pose proof (strip_zeros_value (S k) m e) as Hv.
    destruct (strip_zeros (S k) m e) as [m' e'] eqn:Hs. destruct Hv as [Hle Hval].
    exists m', e', (e' - e). split; [reflexivity|]. split; [lia|].
    split; [exact Hval|]. split; [lia|]. intros _ H10.
    cbn [strip_zeros] in Hs. rewrite H10 in Hs. cbn in Hs.
    pose proof (strip_zeros_value k (m / 10) (e + 1)) as Hv'.
    rewrite Hs in Hv'. lia.
Qed.

Lemma strip_zeros_normal (fuel : nat) :
  ∀ m e, m ≠ 0 → Z.abs m < 2 ^ Z.of_nat fuel →
         fst (strip_zeros fuel m e) mod 10 ≠ 0.
Proof.
  induction fuel as [|k IH]; intros m e Hm Hlt.
  - cbn in Hlt. lia.
  - cbn [strip_zeros]. destruct (Z.eqb_spec (m mod 10) 0) as [H0|H0]; [|exact H0].
    pose proof (Z.div_mod m 10 ltac:(lia)) as Hd.
    rewrite Nat2Z.inj_succ, Z.pow_succ_r in Hlt by lia.
    apply IH; lia.
Qed.

(** A non-zero Decimal is stored without trailing zeros. *)
Lemma mkDecimal_normal (m e m' e' : Z) :
  m ≠ 0 → mkDecimal m e = DFin m' e' → m' mod 10 ≠ 0.
Proof.
  intros Hm. unfold mkDecimal. destruct (Z.eqb_spec m 0) as [?|_]; [lia|].
  pose proof (strip_zeros_normal (S (Z.to_nat (Z.log2 (Z.abs m)))) m e Hm) as Hn.
  destruct (strip_zeros _ m e) as [m1 e1]. intros [= <- <-]. apply Hn.
  rewrite Nat2Z.inj_succ, Z2Nat.id by apply Z.log2_nonneg.
  apply Z.log2_spec. lia.
Qed.

(** [finalise] rounds to DECIMAL_PREC significant digits, to nearest: the
    result has fewer than 10^40 in its coefficient, is exact when the
    argument needs no more than 40 digits, and is otherwise off by at
    most half a unit of the last digit kept. *)
Lemma finalise_rounds (m e : Z) :
  ∃ m' e' d, finalise m e = DFin m' e' ∧ 0 <= d ∧ (m ≠ 0 → e' = e + d) ∧
    Z.abs m' < 10 ^ DECIMAL_PREC ∧
    2 * Z.abs (m - m' * 10 ^ d) <= 10 ^ Z.max 0 (digits (Z.abs m) - DECIMAL_PREC) ∧
    (digits (Z.abs m) <= DECIMAL_PREC → m = m' * 10 ^ d).
Proof.
  unfold finalise. cbv zeta.
  destruct (Z.leb_spec (digits (Z.abs m)) DECIMAL_PREC) as [Hn|Hn].
  - destruct (mkDecimal_value m e) as (m' & e' & d & -> & Hd & Hval & He & _).
    exists m', e', d. split; [reflexivity|]. split; [exact Hd|]. split; [exact He|].
    assert (Hpow : 0 < 10 ^ d) by (apply Z.pow_pos_nonneg; lia).
    split; [|split; [|intros _; exact Hval]].
    + destruct (Z.eq_dec m 0) as [->|Hm].
      * assert (m' = 0) by nia. subst m'. reflexivity.
      * destruct (digits_bounds (Z.abs m) ltac:(lia)) as (_ & _ & Hhi).
        assert (10 ^ digits (Z.abs m) <= 10 ^ DECIMAL_PREC)
          by (apply Z.pow_le_mono_r; lia).
        assert (Z.abs m = Z.abs m' * 10 ^ d) by (rewrite Hval, Z.abs_mul; lia).
        nia.
    + rewrite <- Hval, Z.sub_diag. cbn [Z.abs].
      assert (0 < 10 ^ Z.max 0 (digits (Z.abs m) - DECIMAL_PREC))
        by (apply Z.pow_pos_nonneg; lia).
      lia.
  - assert (Ha : 0 < Z.abs m).
    { destruct (Z.eq_dec m 0) as [->|]; [|lia].
      change (digits (Z.abs 0)) with 1 in Hn. unfold DECIMAL_PREC in Hn. lia. }
    destruct (digits_bounds _ Ha) as (_ & Hlo & Hhi).
    set (a := Z.abs m) in *.
    set (k := digits a - DECIMAL_PREC) in *.
    assert (Hk : 1 <= k) by lia.
    rewrite Z.max_r by lia.
    set (h := 5 * 10 ^ (k - 1)).
    assert (Hh : 2 * h = 10 ^ k).
    { unfold h. replace k with (Z.succ (k - 1)) at 2 by lia.
      rewrite Z.pow_succ_r by lia. lia. }
    assert (Hpk : 0 < 10 ^ k) by (apply Z.pow_pos_nonneg; lia).
    set (q := (a + h) / 10 ^ k).
    assert (Hdm : a + h = 10 ^ k * q + (a + h) mod 10 ^ k)
      by (apply Z.div_mod; lia).
    pose proof (Z.mod_pos_bound (a + h) (10 ^ k) Hpk) as Hr.
    assert (Hq40 : q <= 10 ^ DECIMAL_PREC).
    { assert (Hpow : 10 ^ digits a = 10 ^ DECIMAL_PREC * 10 ^ k).
      { rewrite <- Z.pow_add_r by (unfold DECIMAL_PREC; lia).
        f_equal. unfold k. lia. }
      assert (q < 10 ^ DECIMAL_PREC + 1); [|lia].
      apply Z.div_lt_upper_bound; [lia|]. nia. }
    assert (Hq0 : 0 < q).
    { apply Z.div_str_pos. split; [lia|].
      assert (10 ^ k <= 10 ^ (digits a - 1))
        by (apply Z.pow_le_mono_r; unfold k, DECIMAL_PREC; lia).
      lia. }
    destruct (mkDecimal_value (Z.sgn m * q) (e + k))
      as (m' & e' & d & -> & Hd & Hval & He & H10).
    assert (Hpd : 0 < 10 ^ d) by (apply Z.pow_pos_nonneg; lia).
    assert (Hne : Z.sgn m * q ≠ 0) by (unfold a in Ha; nia).
    exists m', e', (d + k). split; [reflexivity|]. split; [lia|].
    split; [intros _; rewrite (He Hne); lia|].
    assert (Hsg : (Z.sgn m = 1 ∧ m = a) ∨ (Z.sgn m = -1 ∧ m = - a))
      by (unfold a in *; lia).
    assert (Habs : q = Z.abs m' * 10 ^ d).
    { destruct Hsg as [[E _]|[E _]]; rewrite E in Hval; nia. }
    split; [|split; [|lia]].
    + destruct (Z.eq_dec q (10 ^ DECIMAL_PREC)) as [E|E].
      * assert (H1d : 1 <= d).
        { apply H10; [exact Hne|]. rewrite E.
          change (10 ^ DECIMAL_PREC) with (10 ^ 39 * 10).
          rewrite Z.mul_assoc, Z.mod_mul by lia. reflexivity. }
        assert (10 ^ 1 <= 10 ^ d) by (apply Z.pow_le_mono_r; lia).
        change (10 ^ 1) with 10 in *. nia.
      * nia.
    + rewrite Z.pow_add_r by lia.
      assert (Hm' : m' * (10 ^ d * 10 ^ k) = Z.sgn m * q * 10 ^ k)
        by (rewrite Hval; ring).
      rewrite Hm'.
      destruct Hsg as [[E1 E2]|[E1 E2]]; rewrite E1; lia.
Qed.

Lemma Decimal_ofZ_sgn (z : Z) :
  ∃ m e, Decimal_ofZ z = DFin m e ∧ Z.sgn m = Z.sgn z.
Proof. apply mkDecimal_sgn. Qed.

Lemma Decimal_div_sgn (m1 e1 m2 e2 : Z) :
  m2 ≠ 0 →
  ∃ m e, Decimal_div (DFin m1 e1) (DFin m2 e2) = DFin m e
         ∧ Z.sgn m = Z.sgn m1 * Z.sgn m2.
Proof.
  intros H2. cbn [Decimal_div].
  destruct (Z.eqb_spec m2 0) as [?|_]; [lia|].
  destruct (Z.eqb_spec m1 0) as [->|H1].
  - exists 0, 0. split; reflexivity.
  - cbv zeta.
    set (a := Z.abs m1). set (b := Z.abs m2).
    set (s := Z.max 0 (DECIMAL_PREC + 1 + digits b - digits a)).
    assert (Ha : 0 < a) by (unfold a; lia).
    assert (Hb : 0 < b) by (unfold b; lia).
    destruct (digits_bounds a Ha) as (Hda & Halo & _).
    destruct (digits_bounds b Hb) as (Hdb & _ & Hbhi).
    assert (Hs : 0 <= s) by (unfold s; lia).
    assert (Hq : 0 < a * 10 ^ s / b).
    { apply Z.div_str_pos. split; [lia|].
      assert (Hle : 10 ^ digits b <= 10 ^ (digits a - 1) * 10 ^ s).
      { rewrite <- Z.pow_add_r by lia. apply Z.pow_le_mono_r; [lia|].
        unfold s, DECIMAL_PREC. lia. }
      assert (0 < 10 ^ s) by (apply Z.pow_pos_nonneg; lia).
      nia. }
    destruct (finalise_sgn (Z.sgn m1 * Z.sgn m2 * (a * 10 ^ s / b)) (e1 - e2 - s))
      as (m & e & -> & Hsg).
    exists m, e. split; [reflexivity|]. rewrite Hsg. nia.
Qed.

Lemma Decimal_div_ofZ_sgn (num den : Z) :
  den ≠ 0 →
  ∃ m e, Decimal_div (Decimal_ofZ num) (Decimal_ofZ den) = DFin m e
         ∧ Z.sgn m = Z.sgn num * Z.sgn den.
Proof.
  intros Hd.
  destruct (Decimal_ofZ_sgn num) as (m1 & e1 & -> & H1).
  destruct (Decimal_ofZ_sgn den) as (m2 & e2 & -> & H2).
  destruct (Decimal_div_sgn m1 e1 m2 e2) as (m & e & -> & Hs); [lia|].
  exists m, e. split; [reflexivity|]. lia.
Qed.

(** ** hexToBigInt and the neutral defaults *)

Lemma hexToBigInt_returns (hex : JsValue) : ∃ z, hexToBigInt hex = Return z.
Proof.
  unfold hexToBigInt. destruct (truthy hex); simpl; [|eauto].
  destruct (hexConversion hex); simpl; eauto.
Qed.

Lemma hexToBigInt_unparsed (hex : JsValue) :
  hexConversion hex = Throw → hexToBigInt hex = Return 0.
Proof.
  intros H. unfold hexToBigInt. rewrite H. destruct (truthy hex); reflexivity.
Qed.

Lemma computeExactDeltaK_zero_best (bestHex minerHex : JsValue) :
  hexToBigInt bestHex = Return 0 →
  computeExactDeltaK bestHex minerHex = Return neutralExact.
Proof.
  intros Hb. unfold computeExactDeltaK. rewrite Hb.
  destruct (hexToBigInt_returns minerHex) as [md ->]. reflexivity.
Qed.

Lemma computeExactDeltaK_nonpos_miner (bestHex minerHex : JsValue) (md : Z) :
  hexToBigInt minerHex = Return md → md <= 0 →
  computeExactDeltaK bestHex minerHex = Return neutralExact.
Proof.
  intros Hm Hle. unfold computeExactDeltaK. rewrite Hm.
  destruct (hexToBigInt_returns bestHex) as [xb ->]. cbn.
  destruct (Z.leb_spec md 0); [|lia].
  rewrite !orb_true_r. reflexivity.
Qed.

Lemma computeRatioAndDeltaKFromNormHex_zero (bestHex minerHex : JsValue) :
  hexToBigInt bestHex = Return 0 ∨ hexToBigInt minerHex = Return 0 →
  computeRatioAndDeltaKFromNormHex bestHex minerHex = Return neutralNorm.
Proof.
  intros [H|H]; unfold computeRatioAndDeltaKFromNormHex; rewrite H.
  - destruct (hexToBigInt_returns minerHex) as [md ->]. reflexivity.
  - destruct (hexToBigInt_returns bestHex) as [xb ->]. cbn.
    rewrite orb_true_r. reflexivity.
Qed.

Lemma computeExactDeltaK_returns (bestHex minerHex : JsValue) :
  ∃ r, computeExactDeltaK bestHex minerHex = Return r.
Proof.
  unfold computeExactDeltaK.
  destruct (hexToBigInt_returns bestHex) as [xb ->].
  destruct (hexToBigInt_returns minerHex) as [md ->]. cbn.
  destruct (_ || _); cbn; eauto.
Qed.

Lemma computeRatioAndDeltaKFromNormHex_returns (bestHex minerHex : JsValue) :
  ∃ r, computeRatioAndDeltaKFromNormHex bestHex minerHex = Return r.
Proof.
  unfold computeRatioAndDeltaKFromNormHex.
  destruct (hexToBigInt_returns bestHex) as [xb ->].
  destruct (hexToBigInt_returns minerHex) as [md ->]. cbn.
  destruct (_ || _); cbn; eauto.
Qed.

Lemma positiveDecimal_returns (raw : JsValue) :
  ∃ d, positiveDecimal raw = Return d.
Proof.
  unfold positiveDecimal. destruct (truthy raw); cbn; [|eauto].
  destruct (hexToBigInt_returns raw) as [z ->]. cbn. eauto.
Qed.

Lemma positiveDecimal_unparsed (raw : JsValue) :
  hexToBigInt raw = Return 0 → positiveDecimal raw = Return None.
Proof.
  intros H. unfold positiveDecimal. rewrite H. destruct (truthy raw); reflexivity.
Qed.

Lemma makeSample_returns (map : gmap string JsValue) (n : Z) :
  ∃ s, makeSample map n = Return s ∧ primeNum s = n.
Proof.
  unfold makeSample.
  destruct (positiveDecimal_returns (map_get_or_null map (idOf n "_m"))) as [d1 ->].
  destruct (positiveDecimal_returns (map_get_or_null map (idOf n "_b"))) as [d2 ->].
  cbn. destruct (formulaFor _ _ _).
  - destruct (computeExactDeltaK_returns (map_get_or_null map (idOf n "_b"))
                (get_prop (js_or (map_get_or_null map (idOf n "_h")) JNull)
                   "minerDifficulty")) as [r ->].
    cbn. eauto.
  - destruct (computeRatioAndDeltaKFromNormHex_returns
                (map_get_or_null map (idOf n "_b"))
                (map_get_or_null map (idOf n "_m"))) as [r ->].
    cbn. eauto.
  - cbn. eauto.
Qed.

Lemma makeSeries_returns (map : gmap string JsValue) (primeNums : list Z) :
  ∃ series, makeSeries map primeNums = Return series
            ∧ List.map primeNum series = primeNums.
Proof.
  induction primeNums as [|n rest (series & IH & Hnums)]; cbn.
  - exists []. split; reflexivity.
  - destruct (makeSample_returns map n) as (s & -> & Hs). cbn.
    rewrite IH. cbn. exists (s :: series). cbn. rewrite Hs, Hnums. split; reflexivity.
Qed.

Lemma Decimal_div_zero_num (den : Z) :
  den ≠ 0 → Decimal_div (Decimal_ofZ 0) (Decimal_ofZ den) = Decimal_ofZ 0.
Proof.
  intros Hd. destruct (Decimal_ofZ_sgn den) as (m2 & e2 & -> & H2).
  change (Decimal_ofZ 0) with (DFin 0 0). cbn.
  destruct (Z.eqb_spec m2 0) as [->|_]; [|reflexivity].
  simpl in H2. lia.
Qed.

(** C2. With a non-zero best difficulty and a positive raw miner
    difficulty, deltaK is the Decimal quotient of num by
    2^64 * minerDifficulty * 1000 and has the sign of num: negative with
    increasing = false, positive with increasing = true, and zero when
    num = 0. *)
Theorem computeExactDeltaK_sign (bestHex minerHex : JsValue) (xbStar minerDiff : Z) :
  hexToBigInt bestHex = Return xbStar →
  hexToBigInt minerHex = Return minerDiff →
  xbStar ≠ 0 → 0 < minerDiff →
  let num := exactNum xbStar minerDiff in
  ∃ r, computeExactDeltaK bestHex minerHex = Return r ∧
       num = xbStar * logBigInt minerDiff - 2 ^ 64 * minerDiff ∧
       Exact.deltaK r =
         Decimal_div (Decimal_ofZ num) (Decimal_ofZ (2 ^ 64 * minerDiff * 1000)) ∧
       (num < 0 → Decimal_lt0 (Exact.deltaK r) ∧ Exact.kQuaiIncrease r = false) ∧
       (0 < num → Decimal_gt0 (Exact.deltaK r) ∧ Exact.kQuaiIncrease r = true) ∧
       (num = 0 → Exact.deltaK r = Decimal_ofZ 0).
Proof.
  intros Hb Hm Hxb Hmd num.
  unfold computeExactDeltaK. rewrite Hb, Hm. cbn.
  destruct (Z.eqb_spec xbStar 0) as [?|_]; [lia|].
  destruct (Z.eqb_spec minerDiff 0) as [?|_]; [lia|].
  destruct (Z.leb_spec minerDiff 0) as [?|_]; [lia|].
  cbn. eexists. split; [reflexivity|]. cbn.
  subst num. unfold exactNum.
  change SCALE_BI with (2 ^ 64). change ONE_OVER_ALPHA_BI with 1000.
  set (num := xbStar * logBigInt minerDiff - 2 ^ 64 * minerDiff).
  destruct (Decimal_div_ofZ_sgn num (2 ^ 64 * minerDiff * 1000) ltac:(lia))
    as (m & e & Hdiv & Hsgn).
  split; [reflexivity|]. split; [reflexivity|].
  assert (Hden : Z.sgn (2 ^ 64 * minerDiff * 1000) = 1) by (apply Z.sgn_pos; lia).
  rewrite Hden, Z.mul_1_r in Hsgn.
  split; [|split].
  - intros Hlt. split; [rewrite Hdiv; cbn; lia | apply Z.ltb_ge; lia].
  - intros Hgt. split; [rewrite Hdiv; cbn; lia | apply Z.ltb_lt; lia].
  - intros Hz. rewrite Hz. apply Decimal_div_zero_num. lia.
Qed.

Lemma computeExactDeltaK_sign_witness :
  (∃ r, computeExactDeltaK (JString "0x1") (JString "0x6") = Return r ∧
        Decimal_lt0 (Exact.deltaK r) ∧ Exact.kQuaiIncrease r = false) ∧
  (∃ r, computeExactDeltaK (JString "0x4") (JString "0x2") = Return r ∧
        Decimal_gt0 (Exact.deltaK r) ∧ Exact.kQuaiIncrease r = true) ∧
  (∃ r, computeExactDeltaK (JString "0x2") (JString "0x2") = Return r ∧
        Exact.deltaK r = Decimal_ofZ 0).
Proof.
  split; [|split].
  - destruct (computeExactDeltaK_sign (JString "0x1") (JString "0x6") 1 6
                eq_refl eq_refl ltac:(lia) ltac:(lia)) as (r & Hr & _ & _ & Hneg & _ & _).
    exists r. split; [exact Hr|]. apply Hneg. reflexivity.
  - destruct (computeExactDeltaK_sign (JString "0x4") (JString "0x2") 4 2
                eq_refl eq_refl ltac:(lia) ltac:(lia)) as (r & Hr & _ & _ & _ & Hpos & _).
    exists r. split; [exact Hr|]. apply Hpos. reflexivity.
  - destruct (computeExactDeltaK_sign (JString "0x2") (JString "0x2") 2 2
                eq_refl eq_refl ltac:(lia) ltac:(lia)) as (r & Hr & _ & _ & _ & _ & Hz).
    exists r. split; [exact Hr|]. apply Hz. reflexivity.
Defined.

(** C9. When either input decodes to zero (missing, absent or unparsable)
    or the raw miner difficulty is not positive, computeExactDeltaK
    returns ratio = 1, deltaK = 0, increasing = false; so it does on
    (0x0, 0x64). *)
Theorem computeExactDeltaK_neutral (bestHex minerHex : JsValue) :
  (hexToBigInt bestHex = Return 0 ∨
   (∃ md, hexToBigInt minerHex = Return md ∧ md <= 0) →
   computeExactDeltaK bestHex minerHex =
     Return {| Exact.ratio := DFin 1 0; Exact.deltaK := DFin 0 0;
               Exact.kQuaiIncrease := false |}) ∧
  computeExactDeltaK (JString "0x0") (JString "0x64") =
    Return {| Exact.ratio := DFin 1 0; Exact.deltaK := DFin 0 0;
              Exact.kQuaiIncrease := false |}.
Proof.
  split; [|reflexivity].
  intros [Hb | (md & Hm & Hle)].
  - apply computeExactDeltaK_zero_best. exact Hb.
  - apply (computeExactDeltaK_nonpos_miner _ _ md); assumption.
Qed.

Lemma computeExactDeltaK_neutral_witness :
  computeExactDeltaK JNull (JString "0x64") =
    Return {| Exact.ratio := DFin 1 0; Exact.deltaK := DFin 0 0;
              Exact.kQuaiIncrease := false |} ∧
  computeExactDeltaK (JString "0x2bc0000000000000000") JUndefined =
    Return {| Exact.ratio := DFin 1 0; Exact.deltaK := DFin 0 0;
              Exact.kQuaiIncrease := false |} ∧
  computeExactDeltaK (JString "0x2bc0000000000000000") (JBigInt (-100)) =
    Return {| Exact.ratio := DFin 1 0; Exact.deltaK := DFin 0 0;
              Exact.kQuaiIncrease := false |}.
Proof.
  split; [|split].
  - apply (proj1 (computeExactDeltaK_neutral JNull (JString "0x64"))).
    left. reflexivity.
  - apply (proj1 (computeExactDeltaK_neutral (JString "0x2bc0000000000000000") JUndefined)).
    right. exists 0. split; [reflexivity | lia].
  - apply (proj1 (computeExactDeltaK_neutral (JString "0x2bc0000000000000000")
                    (JBigInt (-100)))).
    right. exists (-100). split; [reflexivity | lia].
Defined.

(** C10 (amended). hexToBigInt returns a BigInt on every value and never
    throws; it returns 0 on null, on undefined and whenever the conversion
    it attempts fails.  Building a series never throws.  A value that does
    not parse leaves the difficulty read from it null, and takes ratio and
    deltaK to the neutral defaults when the formula used reads it: an
    unparsable best difficulty gives no dStar and ratio = 1, deltaK = 0;
    an unparsable normalized miner difficulty gives no dInstant, and
    ratio = 1, deltaK = 0 under the fallback formula, while under the
    exact formula ratio and deltaK are what computeExactDeltaK gives on
    the best difficulty and header.minerDifficulty; an unparsable
    header.minerDifficulty gives ratio = 1, deltaK = 0 under the exact
    formula. *)
Theorem hexToBigInt_total (hex : JsValue) (map : gmap string JsValue)
    (primeNums : list Z) (n : Z) :
  let minerRaw := map_get_or_null map (idOf n "_m") in
  let bestRaw := map_get_or_null map (idOf n "_b") in
  let header := js_or (map_get_or_null map (idOf n "_h")) JNull in
  (∃ z, hexToBigInt hex = Return z) ∧
  hexToBigInt JNull = Return 0 ∧
  hexToBigInt JUndefined = Return 0 ∧
  (hexConversion hex = Throw → hexToBigInt hex = Return 0) ∧
  (∃ series, makeSeries map primeNums = Return series
             ∧ List.map primeNum series = primeNums) ∧
  (hexConversion bestRaw = Throw →
   ∃ s, makeSample map n = Return s ∧ dStar s = None ∧
        ratio s = DFin 1 0 ∧ deltaK s = DFin 0 0) ∧
  (hexConversion minerRaw = Throw →
   ∃ s, makeSample map n = Return s ∧ dInstant s = None ∧
        (formulaFor minerRaw bestRaw header = UsedFallback →
         ratio s = DFin 1 0 ∧ deltaK s = DFin 0 0) ∧
        (formulaFor minerRaw bestRaw header = UsedExact →
         ∃ r, computeExactDeltaK bestRaw (get_prop header "minerDifficulty")
                = Return r
              ∧ ratio s = Exact.ratio r ∧ deltaK s = Exact.deltaK r) ∧
        (formulaFor minerRaw bestRaw header = UsedNeutral →
         ratio s = DFin 1 0 ∧ deltaK s = DFin 0 0)) ∧
  (hexConversion (get_prop header "minerDifficulty") = Throw →
   formulaFor minerRaw bestRaw header = UsedExact →
   ∃ s, makeSample map n = Return s ∧
        ratio s = DFin 1 0 ∧ deltaK s = DFin 0 0).
Proof.
  intros minerRaw bestRaw header.
  split; [apply hexToBigInt_returns|].
  split; [reflexivity|]. split; [reflexivity|].
  split; [apply hexToBigInt_unparsed|].
  split; [apply makeSeries_returns|].
  split; [|split].
  - intros Hbad. apply hexToBigInt_unparsed in Hbad.
    unfold makeSample. fold minerRaw. fold bestRaw.
    destruct (positiveDecimal_returns minerRaw) as [d1 ->].
    rewrite (positiveDecimal_unparsed _ Hbad). cbn.
    destruct (formulaFor _ _ _).
    + rewrite (computeExactDeltaK_zero_best _ _ Hbad). cbn. eexists. repeat split.
    + rewrite computeRatioAndDeltaKFromNormHex_zero by (left; exact Hbad).
      cbn. eexists. repeat split.
    + cbn. eexists. repeat split.
  - intros Hbad. apply hexToBigInt_unparsed in Hbad.
    unfold makeSample. fold minerRaw. fold bestRaw.
    rewrite (positiveDecimal_unparsed _ Hbad).
    destruct (positiveDecimal_returns bestRaw) as [d2 ->]. cbn. fold header.
    destruct (formulaFor minerRaw bestRaw header).
    + destruct (computeExactDeltaK_returns bestRaw (get_prop header "minerDifficulty"))
        as [r Hr].
      rewrite Hr. cbn. eexists. split; [reflexivity|]. split; [reflexivity|].
      split; [intros [=] | split; [|intros [=]]].
      intros _. exists r. cbn. auto.
    + rewrite computeRatioAndDeltaKFromNormHex_zero by (right; exact Hbad).
      cbn. eexists. split; [reflexivity|]. split; [reflexivity|].
      split; [auto | split; intros [=]].
    + cbn. eexists. split; [reflexivity|]. split; [reflexivity|].
      split; [intros [=] | split; [intros [=] | auto]].
  - intros Hbad Hexact. apply hexToBigInt_unparsed in Hbad.
    unfold makeSample. fold minerRaw. fold bestRaw.
    destruct (positiveDecimal_returns minerRaw) as [d1 ->].
    destruct (positiveDecimal_returns bestRaw) as [d2 ->]. cbn. fold header.
    rewrite Hexact.
    rewrite (computeExactDeltaK_nonpos_miner _ _ 0 Hbad) by lia.
    cbn. eexists. repeat split.
Qed.

Lemma hexToBigInt_total_witness :
  hexToBigInt (JString "0xzz") = Return 0 ∧
  (∃ s, makeSample (<["7_b" := JString "xyz"]> (<["7_m" := JString "0x10"]> ∅)) 7
          = Return s
        ∧ dStar s = None ∧ ratio s = DFin 1 0 ∧ deltaK s = DFin 0 0) ∧
  (∃ s, makeSample (<["7_b" := JString "0x10"]> (<["7_m" := JString "0x1g"]> ∅)) 7
          = Return s
        ∧ dInstant s = None ∧ ratio s = DFin 1 0 ∧ deltaK s = DFin 0 0) ∧
  (∃ s, makeSample (<["7_b" := JString "0x10"]>
                      (<["7_h" := JObject [("minerDifficulty", JString "0x1g")]]> ∅)) 7
          = Return s
        ∧ ratio s = DFin 1 0 ∧ deltaK s = DFin 0 0) ∧
  (∃ s r, makeSample malformedMinerAnswers 7 = Return s ∧ dInstant s = None ∧
          computeExactDeltaK (JString "0x4") (JString "0x2") = Return r ∧
          ratio s = Exact.ratio r ∧ deltaK s = Exact.deltaK r).
Proof.
  split; [|split; [|split; [|split]]].
  - apply (hexToBigInt_total (JString "0xzz") ∅ [] 0). reflexivity.
  - apply (hexToBigInt_total JNull
             (<["7_b" := JString "xyz"]> (<["7_m" := JString "0x10"]> ∅)) [] 7).
    reflexivity.
  - destruct (hexToBigInt_total JNull
                (<["7_b" := JString "0x10"]> (<["7_m" := JString "0x1g"]> ∅)) [] 7)
      as (_ & _ & _ & _ & _ & _ & H & _).
    destruct H as (s & Hs & Hd & Hf & _); [reflexivity|].
    exists s. split; [exact Hs|]. split; [exact Hd|]. apply Hf. reflexivity.
  - apply (hexToBigInt_total JNull
             (<["7_b" := JString "0x10"]>
                (<["7_h" := JObject [("minerDifficulty", JString "0x1g")]]> ∅)) [] 7);
      reflexivity.
  - destruct (hexToBigInt_total JNull malformedMinerAnswers [] 7)
      as (_ & _ & _ & _ & _ & _ & H & _).
    destruct H as (s & Hs & Hd & _ & He & _); [reflexivity|].
    destruct He as (r & Hr & H1 & H2); [reflexivity|].
    exists s, r. repeat split; assumption.
Defined.

(** C10, as stated, fails in its last part: a normalized miner
    difficulty that does not parse decodes to 0 and leaves dInstant null,
    but when the header of the block carries minerDifficulty the exact
    formula does not read it, and ratio and deltaK are not the neutral
    defaults. *)
Lemma malformed_miner_not_neutral :
  hexConversion (JString "0x1g") = Throw ∧
  hexToBigInt (JString "0x1g") = Return 0 ∧
  malformedMinerAnswers !! "7_m"%string = Some (JString "0x1g") ∧
  ∃ s, makeSample malformedMinerAnswers 7 = Return s ∧
       dInstant s = None ∧
       ratio s = DFin 2 0 ∧ deltaK s = DFin 1 (-3) ∧
       ratio s ≠ DFin 1 0 ∧ deltaK s ≠ DFin 0 0.
Proof.
  split; [reflexivity|]. split; [reflexivity|]. split; [reflexivity|].
  eexists. split; [vm_compute; reflexivity|].
  split; [reflexivity|]. split; [reflexivity|]. split; [reflexivity|].
  split; discriminate.
Qed.

(** ** The client only sends POSTs *)

Lemma add_posts_nil (w : World) : add_posts [] w = w.
Proof. destruct w. unfold add_posts. cbn. rewrite app_nil_r. reflexivity. Qed.

Lemma add_posts_app (ps qs : list PostBody) (w : World) :
  add_posts qs (add_posts ps w) = add_posts (ps ++ qs) w.
Proof. unfold add_posts. cbn. rewrite app_assoc. reflexivity. Qed.

Lemma log_post_add (b : PostBody) (w : World) : log_post b w = add_posts [b] w.
Proof. reflexivity. Qed.

Lemma only_posts_ret {A} (a : A) : only_posts (mret a).
Proof. intros w. exists []. symmetry. apply add_posts_nil. Qed.

Lemma only_posts_throw {A} : only_posts (@throw A).
Proof. intros w. exists []. symmetry. apply add_posts_nil. Qed.

Lemma only_posts_bind {A B} (c : Eff A) (f : A → Eff B) :
  only_posts c → (∀ a, only_posts (f a)) → only_posts (c ≫= f).
Proof.
  intros Hc Hf w. unfold mbind, Eff_bind. specialize (Hc w).
  destruct (c w) as [a w1|w1|]; [|exact Hc|exact I].
  destruct Hc as [ps ->]. specialize (Hf a (add_posts ps w)).
  destruct (f a (add_posts ps w)) as [b w2|w2|]; [| |exact I];
    destruct Hf as [qs ->]; exists (ps ++ qs); apply add_posts_app.
Qed.

Lemma only_posts_try_catch {A} (body handler : Eff A) :
  only_posts body → only_posts handler → only_posts (try_catch_eff body handler).
Proof.
  intros Hb Hh w. unfold try_catch_eff. specialize (Hb w).
  destruct (body w) as [a w1|w1|]; [exact Hb| |exact I].
  destruct Hb as [ps ->]. specialize (Hh (add_posts ps w)).
  destruct (handler (add_posts ps w)) as [b w2|w2|]; [| |exact I];
    destruct Hh as [qs ->]; exists (ps ++ qs); apply add_posts_app.
Qed.

Lemma only_posts_post (srv : Server) (b : PostBody) : only_posts (post srv b).
Proof. intros w. exists [b]. reflexivity. Qed.

Lemma only_posts_rpcCall (srv : Server) (method : string) (params : list JsValue)
    (retries : nat) : only_posts (rpcCall srv method params retries).
Proof.
  unfold rpcCall. induction retries as [|k IH]; cbn [rpcCall_from];
    (apply only_posts_bind; [apply only_posts_post|]); intros reply;
    destruct (single_result reply);
    first [apply only_posts_ret | apply only_posts_throw | exact IH].
Qed.

Lemma only_posts_rpcBatch (srv : Server) (reqs : list Request) (retries : nat) :
  only_posts (rpcBatch srv reqs retries).
Proof.
  unfold rpcBatch. induction retries as [|k IH]; cbn [rpcBatch_from];
    (apply only_posts_bind; [apply only_posts_post|]); intros reply;
    destruct (batch_result reply);
    first [apply only_posts_ret | apply only_posts_throw | exact IH].
Qed.

Lemma only_posts_sendSlices (srv : Server) (reqs : list Request) (maxPer : Z)
    (retries : nat) (fuel : nat) :
  ∀ i merged, only_posts (sendSlices srv fuel reqs maxPer retries i merged).
Proof.
  induction fuel as [|k IH]; intros i merged; cbn [sendSlices];
    destruct (i <? Z.of_nat (length reqs)); try apply only_posts_ret.
  - intros w. exact I.
  - apply only_posts_bind; [|intros m; apply IH].
    apply only_posts_try_catch; [|apply only_posts_ret].
    apply only_posts_bind; [apply only_posts_rpcBatch|].
    intros m. apply only_posts_ret.
Qed.

Lemma only_posts_sendBatchWithLimit (srv : Server) (reqs : list Request)
    (maxPer : Z) (retries : nat) :
  only_posts (sendBatchWithLimit srv reqs maxPer retries).
Proof.
  unfold sendBatchWithLimit. destruct (length reqs =? 0)%nat.
  - apply only_posts_ret.
  - destruct (Z.of_nat (length reqs) <=? maxPer).
    + apply only_posts_try_catch; [apply only_posts_rpcBatch|apply only_posts_throw].
    + apply only_posts_sendSlices.
Qed.

(** With a positive slice size the slicing loop ends within its fuel. *)
Lemma sendSlices_terminates (srv : Server) (reqs : list Request) (maxPer : Z)
    (retries : nat) (fuel : nat) :
  0 < maxPer →
  ∀ i merged w, Z.of_nat (length reqs) - i <= Z.of_nat fuel →
    sendSlices srv fuel reqs maxPer retries i merged w ≠ Hangs
    ∧ ∀ w', sendSlices srv fuel reqs maxPer retries i merged w ≠ Raised w'.
Proof.
  intros Hmax. induction fuel as [|k IH]; intros i merged w Hfuel;
    cbn [sendSlices]; destruct (Z.ltb_spec i (Z.of_nat (length reqs))) as [Hi|Hi];
    try (split; [|intros w']; discriminate); [lia|].
  unfold mbind, Eff_bind, try_catch_eff.
  destruct (rpcBatch srv (js_slice reqs i (i + maxPer)) retries w) as [m w1|w1|] eqn:Hb.
  - cbn. apply IH. lia.
  - cbn. apply IH. lia.
  - exfalso. clear -Hb. revert w Hb. unfold rpcBatch.
    induction retries as [|r IHr]; intros w; cbn [rpcBatch_from];
      unfold mbind, Eff_bind, post;
      destruct (batch_result _); try discriminate. apply IHr.
Qed.

(** ** sendBatchWithLimit *)

Lemma js_slice_take_drop {A} (arr : list A) (b e : Z) :
  0 <= b <= e → b <= Z.of_nat (length arr) →
  js_slice arr b e = take (Z.to_nat (e - b)) (drop (Z.to_nat b) arr).
Proof.
  intros Hbe Hb. unfold js_slice. cbv zeta.
  destruct (Z.ltb_spec b 0); [lia|]. destruct (Z.ltb_spec e 0); [lia|].
  rewrite (Z.min_l b) by lia.
  destruct (Z.le_gt_cases e (Z.of_nat (length arr))) as [He|He].
  - rewrite Z.min_l by lia. reflexivity.
  - rewrite Z.min_r by lia.
    rewrite !take_ge; [reflexivity | |]; rewrite length_drop; lia.
Qed.

Lemma sendSlices_step (srv : Server) (k : nat) (reqs : list Request)
    (maxPer i : Z) (merged : gmap string JsValue) (w : World) :
  i < Z.of_nat (length reqs) →
  sendSlices srv (S k) reqs maxPer 0 i merged w =
    sendSlices srv k reqs maxPer 0 (i + maxPer)
      (match batch_result
               (srv (length (postLog w))
                    (BatchCall (js_slice reqs i (i + maxPer)))) with
       | Return m => m ∪ merged
       | Throw => merged
       end)
      (add_posts [BatchCall (js_slice reqs i (i + maxPer))] w).
Proof.
  intros Hi. cbn [sendSlices]. destruct (Z.ltb_spec i (Z.of_nat (length reqs))); [|lia].
  unfold mbind, Eff_bind, try_catch_eff, rpcBatch. cbn [rpcBatch_from].
  unfold mbind, Eff_bind, post.
  destruct (batch_result _); reflexivity.
Qed.

Lemma sendSlices_end (srv : Server) (k : nat) (reqs : list Request)
    (maxPer i : Z) (retries : nat) (merged : gmap string JsValue) (w : World) :
  Z.of_nat (length reqs) <= i →
  sendSlices srv k reqs maxPer retries i merged w = Done merged w.
Proof.
  intros Hi. destruct k; cbn [sendSlices];
    destruct (Z.ltb_spec i (Z.of_nat (length reqs))); try lia; reflexivity.
Qed.

Lemma rpcBatch_once (srv : Server) (reqs : list Request) (w : World) :
  rpcBatch srv reqs 0 w =
    match batch_result (srv (length (postLog w)) (BatchCall reqs)) with
    | Return m => Done m (add_posts [BatchCall reqs] w)
    | Throw => Raised (add_posts [BatchCall reqs] w)
    end.
Proof.
  unfold rpcBatch. cbn [rpcBatch_from]. unfold mbind, Eff_bind, post.
  destruct (batch_result _); reflexivity.
Qed.

Lemma elem_of_idsOf (reqs : list Request) (id : string) :
  id ∈ idsOf reqs ↔ ∃ r, r ∈ reqs ∧ req_id r = id.
Proof.
  unfold idsOf. rewrite elem_of_list_to_set, list_elem_of_fmap.
  split; intros (r & H1 & H2); exists r; auto.
Qed.

(** Three slices, the middle POST failing, no retries. *)
Lemma sendBatchWithLimit_three_slices (srv : Server) (batchReq : list Request)
    (maxPer : Z) (w : World) (m1 m3 : gmap string JsValue) :
  let n := Z.of_nat (length batchReq) in
  let k := length (postLog w) in
  let slice1 := js_slice batchReq 0 maxPer in
  let slice2 := js_slice batchReq maxPer (maxPer + maxPer) in
  let slice3 := js_slice batchReq (maxPer + maxPer) (maxPer + maxPer + maxPer) in
  0 < maxPer → 2 * maxPer < n <= 3 * maxPer →
  NoDup (map req_id batchReq) →
  batch_result (srv k (BatchCall slice1)) = Return m1 → dom m1 = idsOf slice1 →
  batch_result (srv (S k) (BatchCall slice2)) = Throw →
  batch_result (srv (S (S k)) (BatchCall slice3)) = Return m3 → dom m3 = idsOf slice3 →
  sendBatchWithLimit srv batchReq maxPer 0 w =
    Done (m3 ∪ m1)
         (add_posts [BatchCall slice1; BatchCall slice2; BatchCall slice3] w)
  ∧ batchReq = slice1 ++ slice2 ++ slice3
  ∧ Z.of_nat (length slice1) = maxPer
  ∧ Z.of_nat (length slice2) = maxPer
  ∧ Z.of_nat (length slice3) = n - 2 * maxPer
  ∧ (∀ r, r ∈ slice1 ++ slice3 → is_Some ((m3 ∪ m1) !! req_id r))
  ∧ (∀ r, r ∈ batchReq → (m3 ∪ m1) !! req_id r = None ↔ r ∈ slice2).
Proof.
  intros n k slice1 slice2 slice3 Hmax Hn Hnd H1 Hd1 H2 H3 Hd3.
  set (p := Z.to_nat maxPer).
  assert (Hs1 : slice1 = take p batchReq).
  { unfold slice1. rewrite js_slice_take_drop by lia.
    rewrite Z.sub_0_r. reflexivity. }
  assert (Hs2 : slice2 = take p (drop p batchReq)).
  { unfold slice2. rewrite js_slice_take_drop by lia.
    replace (maxPer + maxPer - maxPer) with maxPer by lia. reflexivity. }
  assert (Hs3 : slice3 = drop (p + p) batchReq).
  { unfold slice3. rewrite js_slice_take_drop by lia.
    replace (Z.to_nat (maxPer + maxPer)) with (p + p)%nat by lia.
    apply take_ge. rewrite length_drop. lia. }
  assert (Hcat : batchReq = slice1 ++ slice2 ++ slice3).
  { rewrite Hs1, Hs2, Hs3, <- drop_drop, !take_drop. reflexivity. }
  assert (Hl1 : Z.of_nat (length slice1) = maxPer)
    by (rewrite Hs1, length_take; lia).
  assert (Hl2 : Z.of_nat (length slice2) = maxPer)
    by (rewrite Hs2, length_take, length_drop; lia).
  assert (Hl3 : Z.of_nat (length slice3) = n - 2 * maxPer)
    by (rewrite Hs3, length_drop; lia).
  assert (Hin13 : ∀ r, r ∈ slice1 ++ slice3 → is_Some ((m3 ∪ m1) !! req_id r)).
  { intros r Hr. apply elem_of_dom. rewrite dom_union, Hd1, Hd3.
    apply elem_of_app in Hr as [Hr|Hr].
    - apply elem_of_union_r, elem_of_idsOf. eauto.
    - apply elem_of_union_l, elem_of_idsOf. eauto. }
  assert (Hrun : sendBatchWithLimit srv batchReq maxPer 0 w =
                 Done (m3 ∪ m1)
                   (add_posts [BatchCall slice1; BatchCall slice2; BatchCall slice3] w)).
  { unfold sendBatchWithLimit.
    destruct (Nat.eqb_spec (length batchReq) 0) as [E|_]; [lia|].
    destruct (Z.leb_spec (Z.of_nat (length batchReq)) maxPer) as [?|_]; [lia|].
    destruct (length batchReq) as [|[|[|f]]] eqn:Hlen; try lia.
    rewrite sendSlices_step by lia. rewrite Z.add_0_l.
    fold slice1. fold k. rewrite H1.
    rewrite sendSlices_step by lia. fold slice2.
    replace (length (postLog (add_posts [BatchCall slice1] w))) with (S k)
      by (cbn [postLog add_posts]; rewrite length_app; cbn [length]; lia).
    rewrite H2.
    rewrite sendSlices_step by lia. fold slice3.
    replace (length (postLog (add_posts [BatchCall slice2]
                                (add_posts [BatchCall slice1] w)))) with (S (S k))
      by (cbn [postLog add_posts]; rewrite !length_app; cbn [length]; lia).
    rewrite H3.
    rewrite sendSlices_end by lia.
    rewrite !add_posts_app, map_union_empty. reflexivity. }
  split; [exact Hrun|]. split; [exact Hcat|]. split; [exact Hl1|].
  split; [exact Hl2|]. split; [exact Hl3|]. split; [exact Hin13|].
  intros r Hr. split.
  - intros Hnone. rewrite Hcat in Hr.
    apply elem_of_app in Hr as [Hr|Hr].
    + destruct (Hin13 r) as [v Hv]; [apply elem_of_app; auto|]. congruence.
    + apply elem_of_app in Hr as [Hr|Hr]; [exact Hr|].
      destruct (Hin13 r) as [v Hv]; [apply elem_of_app; auto|]. congruence.
  - intros Hr2. apply not_elem_of_dom. rewrite dom_union, Hd1, Hd3.
    rewrite Hcat, !fmap_app in Hnd.
    apply NoDup_app in Hnd as (_ & Hdisj1 & Hnd).
    apply NoDup_app in Hnd as (_ & Hdisj2 & _).
    intros Hin. apply elem_of_union in Hin as [Hin|Hin];
      apply elem_of_idsOf in Hin as (r' & Hr' & Heq).
    + apply (Hdisj2 (req_id r)).
      * apply list_elem_of_fmap. eauto.
      * apply list_elem_of_fmap. eauto.
    + apply (Hdisj1 (req_id r)).
      * apply list_elem_of_fmap. eauto.
      * apply elem_of_app. left. apply list_elem_of_fmap. eauto.
Qed.

(** The sizes the specification quotes: 5000 requests in slices of 2000. *)
Corollary sendBatchWithLimit_5000_by_2000 (srv : Server) (batchReq : list Request)
    (w : World) (m1 m3 : gmap string JsValue) :
  let k := length (postLog w) in
  let slice1 := js_slice batchReq 0 2000 in
  let slice2 := js_slice batchReq 2000 4000 in
  let slice3 := js_slice batchReq 4000 6000 in
  Z.of_nat (length batchReq) = 5000 →
  NoDup (map req_id batchReq) →
  batch_result (srv k (BatchCall slice1)) = Return m1 → dom m1 = idsOf slice1 →
  batch_result (srv (S k) (BatchCall slice2)) = Throw →
  batch_result (srv (S (S k)) (BatchCall slice3)) = Return m3 → dom m3 = idsOf slice3 →
  sendBatchWithLimit srv batchReq 2000 0 w =
    Done (m3 ∪ m1)
         (add_posts [BatchCall slice1; BatchCall slice2; BatchCall slice3] w)
  ∧ Z.of_nat (length slice1) = 2000
  ∧ Z.of_nat (length slice2) = 2000
  ∧ Z.of_nat (length slice3) = 1000
  ∧ (∀ r, r ∈ batchReq → (m3 ∪ m1) !! req_id r = None ↔ r ∈ slice2).
Proof.
  intros k slice1 slice2 slice3 Hlen Hnd H1 Hd1 H2 H3 Hd3.
  destruct (sendBatchWithLimit_three_slices srv batchReq 2000 w m1 m3
              ltac:(lia) ltac:(lia) Hnd H1 Hd1 H2 H3 Hd3)
    as (Hrun & _ & Hl1 & Hl2 & Hl3 & _ & Hmiss).
  assert (Hl3' : Z.of_nat (length slice3) = Z.of_nat (length batchReq) - 2 * 2000)
    by exact Hl3.
  split; [exact Hrun|]. split; [exact Hl1|]. split; [exact Hl2|].
  split; [lia | exact Hmiss].
Qed.

(** C5 (amended). With a slice size maxPer > 0 and a list of more than 2
    and at most 3 slices (5000 requests and maxPer = 2000 in particular),
    no retries, distinct ids, a failing middle POST and two other POSTs
    answering exactly the ids they were asked: sendBatchWithLimit sends
    exactly three POSTs, the consecutive slices of sizes maxPer, maxPer
    and the rest, and returns a map that holds every id of slices 1 and 3
    and misses exactly the ids of slice 2.  A non-empty list within the
    limit is handed to rpcBatch, which sends one POST per attempt.  An
    empty list returns the empty map without any POST. *)
Theorem sendBatchWithLimit_best_effort (srv : Server) (batchReq : list Request)
    (maxPer : Z) (retries : nat) (w : World) (m1 m3 : gmap string JsValue) :
  let n := Z.of_nat (length batchReq) in
  let k := length (postLog w) in
  let slice1 := js_slice batchReq 0 maxPer in
  let slice2 := js_slice batchReq maxPer (maxPer + maxPer) in
  let slice3 := js_slice batchReq (maxPer + maxPer) (maxPer + maxPer + maxPer) in
  (0 < maxPer → 2 * maxPer < n <= 3 * maxPer →
   NoDup (map req_id batchReq) →
   batch_result (srv k (BatchCall slice1)) = Return m1 → dom m1 = idsOf slice1 →
   batch_result (srv (S k) (BatchCall slice2)) = Throw →
   batch_result (srv (S (S k)) (BatchCall slice3)) = Return m3 → dom m3 = idsOf slice3 →
   sendBatchWithLimit srv batchReq maxPer 0 w =
     Done (m3 ∪ m1)
          (add_posts [BatchCall slice1; BatchCall slice2; BatchCall slice3] w)
   ∧ batchReq = slice1 ++ slice2 ++ slice3
   ∧ Z.of_nat (length slice1) = maxPer
   ∧ Z.of_nat (length slice2) = maxPer
   ∧ Z.of_nat (length slice3) = n - 2 * maxPer
   ∧ (∀ r, r ∈ slice1 ++ slice3 → is_Some ((m3 ∪ m1) !! req_id r))
   ∧ (∀ r, r ∈ batchReq → (m3 ∪ m1) !! req_id r = None ↔ r ∈ slice2))
  ∧ (batchReq ≠ [] → n <= maxPer →
     sendBatchWithLimit srv batchReq maxPer retries w = rpcBatch srv batchReq retries w
     ∧ (retries = 0%nat →
        ∃ outcome, rpcBatch srv batchReq retries w = outcome ∧
          match outcome with
          | Done _ w' | Raised w' => w' = add_posts [BatchCall batchReq] w
          | Hangs => False
          end))
  ∧ sendBatchWithLimit srv [] maxPer retries w = Done ∅ w.
Proof.
  intros n k slice1 slice2 slice3. split; [|split].
  - apply sendBatchWithLimit_three_slices.
  - intros Hne Hn. split.
    + unfold sendBatchWithLimit.
      destruct (Nat.eqb_spec (length batchReq) 0) as [E|_].
      { destruct batchReq; [congruence | discriminate]. }
      destruct (Z.leb_spec (Z.of_nat (length batchReq)) maxPer) as [_|?]; [|lia].
      unfold try_catch_eff, throw.
      destruct (rpcBatch srv batchReq retries w); reflexivity.
    + intros ->. eexists. split; [reflexivity|].
      rewrite rpcBatch_once. destruct (batch_result _); reflexivity.
  - reflexivity.
Qed.

Lemma sendBatchWithLimit_best_effort_witness :
  let batchReq := numberedRequests 5 in
  let slice1 := js_slice batchReq 0 2 in
  let slice2 := js_slice batchReq 2 4 in
  let slice3 := js_slice batchReq 4 6 in
  ∃ m,
    sendBatchWithLimit (flakyNode 1) batchReq 2 0 blankPage =
      Done m (add_posts [BatchCall slice1; BatchCall slice2; BatchCall slice3] blankPage)
    ∧ Z.of_nat (length slice1) = 2
    ∧ Z.of_nat (length slice2) = 2
    ∧ Z.of_nat (length slice3) = 1
    ∧ (∀ r, r ∈ slice1 ++ slice3 → is_Some (m !! req_id r))
    ∧ (∀ r, r ∈ batchReq → m !! req_id r = None ↔ r ∈ slice2).
Proof.
  intros batchReq slice1 slice2 slice3.
  destruct (sendBatchWithLimit_best_effort (flakyNode 1) batchReq 2 0 blankPage
              (fold_left batch_item (map echoItem slice1) ∅)
              (fold_left batch_item (map echoItem slice3) ∅)) as [H _].
  destruct H as (Hrun & _ & Hl1 & Hl2 & Hl3 & Hin & Hout).
  - lia.
  - vm_compute. split; [reflexivity | discriminate].
  - apply (bool_decide_unpack _). vm_compute. reflexivity.
  - reflexivity.
  - vm_compute. reflexivity.
  - reflexivity.
  - reflexivity.
  - vm_compute. reflexivity.
  - eexists. split; [exact Hrun|]. repeat split; try assumption.
    + apply Hout; assumption.
    + apply Hout; assumption.
Defined.

(** C5, as stated, fails on the empty list: it is within the limit, and
    no POST is sent for it. *)
Lemma sendBatchWithLimit_empty_sends_nothing :
  Z.of_nat (length (@nil Request)) <= 2000 ∧
  ∃ w', sendBatchWithLimit (flakyNode 1) [] 2000 0 blankPage = Done ∅ w' ∧
        postLog w' = [] ∧
        postLog w' ≠ postLog blankPage ++ [BatchCall []].
Proof.
  split; [cbn; lia|]. exists blankPage.
  split; [reflexivity|]. split; [reflexivity | discriminate].
Qed.

(** ** fetchWindowData *)

Lemma no_hang_ret {A} (a : A) : no_hang (mret a).
Proof. intros w. discriminate. Qed.

Lemma no_hang_throw {A} : no_hang (@throw A).
Proof. intros w. discriminate. Qed.

Lemma no_hang_bind {A B} (c : Eff A) (f : A → Eff B) :
  no_hang c → (∀ a, no_hang (f a)) → no_hang (c ≫= f).
Proof.
  intros Hc Hf w. unfold mbind, Eff_bind. specialize (Hc w).
  destruct (c w); [apply Hf | discriminate | congruence].
Qed.

Lemma no_hang_try_catch {A} (body handler : Eff A) :
  no_hang body → no_hang handler → no_hang (try_catch_eff body handler).
Proof.
  intros Hb Hh w. unfold try_catch_eff. specialize (Hb w).
  destruct (body w); [discriminate | apply Hh | congruence].
Qed.

Lemma no_hang_rpcCall (srv : Server) (method : string) (params : list JsValue)
    (retries : nat) : no_hang (rpcCall srv method params retries).
Proof.
  unfold rpcCall. induction retries as [|k IH]; cbn [rpcCall_from];
    (apply no_hang_bind; [intros w; discriminate|]); intros reply;
    destruct (single_result reply);
    first [apply no_hang_ret | apply no_hang_throw | exact IH].
Qed.

Lemma no_hang_rpcBatch (srv : Server) (reqs : list Request) (retries : nat) :
  no_hang (rpcBatch srv reqs retries).
Proof.
  unfold rpcBatch. induction retries as [|k IH]; cbn [rpcBatch_from];
    (apply no_hang_bind; [intros w; discriminate|]); intros reply;
    destruct (batch_result reply);
    first [apply no_hang_ret | apply no_hang_throw | exact IH].
Qed.

Lemma no_hang_sendBatchWithLimit (srv : Server) (reqs : list Request)
    (maxPer : Z) (retries : nat) :
  0 < maxPer → no_hang (sendBatchWithLimit srv reqs maxPer retries).
Proof.
  intros Hmax. unfold sendBatchWithLimit. destruct (length reqs =? 0)%nat.
  - apply no_hang_ret.
  - destruct (Z.of_nat (length reqs) <=? maxPer).
    + apply no_hang_try_catch; [apply no_hang_rpcBatch | apply no_hang_throw].
    + intros w. apply sendSlices_terminates; lia.
Qed.

Lemma always_done_try_catch {A} (body handler : Eff A) :
  only_posts body → no_hang body → always_done handler →
  always_done (try_catch_eff body handler).
Proof.
  intros Hp Hn Hh w. unfold try_catch_eff. specialize (Hp w). specialize (Hn w).
  destruct (body w) as [a w1|w1|]; [| |congruence]; destruct Hp as [ps ->].
  - eauto.
  - destruct (Hh (add_posts ps w)) as (a & qs & ->).
    exists a, (ps ++ qs). rewrite add_posts_app. reflexivity.
Qed.

Lemma always_done_ret {A} (a : A) : always_done (mret a).
Proof. intros w. exists a, []. rewrite add_posts_nil. reflexivity. Qed.

Lemma always_done_sendFallback (srv : Server) (batch : list Request) :
  always_done (sendFallback srv batch).
Proof.
  apply always_done_try_catch.
  - apply only_posts_sendBatchWithLimit.
  - apply no_hang_sendBatchWithLimit. lia.
  - apply always_done_ret.
Qed.

Lemma always_done_fetchCombined (srv : Server) (batch : list Request) :
  always_done (fetchCombined srv batch).
Proof.
  unfold fetchCombined. apply always_done_try_catch;
    [| | apply always_done_sendFallback].
  - destruct (length batch <=? 1)%nat; [apply only_posts_rpcBatch|].
    apply only_posts_try_catch.
    + apply only_posts_bind; [apply only_posts_rpcBatch|]. intros m1.
      apply only_posts_bind; [apply only_posts_rpcBatch|]. intros m2.
      apply only_posts_ret.
    + intros w. destruct (always_done_sendFallback srv batch w) as (a & ps & ->). eauto.
  - destruct (length batch <=? 1)%nat; [apply no_hang_rpcBatch|].
    apply no_hang_try_catch.
    + apply no_hang_bind; [apply no_hang_rpcBatch|]. intros m1.
      apply no_hang_bind; [apply no_hang_rpcBatch|]. intros m2.
      apply no_hang_ret.
    + intros w. destruct (always_done_sendFallback srv batch w) as (a & ps & ->).
      discriminate.
Qed.

Lemma rpcCall_once (srv : Server) (method : string) (params : list JsValue)
    (w : World) :
  rpcCall srv method params 0 w =
    match single_result (srv (length (postLog w)) (SingleCall method params)) with
    | Return r => Done r (add_posts [SingleCall method params] w)
    | Throw => Raised (add_posts [SingleCall method params] w)
    end.
Proof.
  unfold rpcCall. cbn [rpcCall_from]. unfold mbind, Eff_bind, post.
  destruct (single_result _); reflexivity.
Qed.


(** fetchWindowData when the first call gives a block range. *)
Lemma fetchWindowData_range (srv : Server) (w : World) (latest : Z) :
  let w1 := add_posts [SingleCall "quai_blockNumber" []] (normalizedInputs w) in
  let primeNums := windowRange w latest in
  latestBlockReply srv w = Some latest →
  primeNums ≠ [] →
  ∃ combinedMap ps series,
    fetchCombined srv (flat_map blockRequests primeNums) w1
      = Done combinedMap (add_posts ps w1)
    ∧ makeSeries combinedMap primeNums = Return series
    ∧ List.map primeNum series = primeNums
    ∧ fetchWindowData srv w = Done tt (set_currentSeries series (add_posts ps w1)).
Proof.
  intros w1 primeNums Hlatest Hne.
  destruct (always_done_fetchCombined srv (flat_map blockRequests primeNums) w1)
    as (combinedMap & ps & Hfc).
  destruct (makeSeries_returns combinedMap primeNums) as (series & Hms & Hnums).
  exists combinedMap, ps, series.
  split; [exact Hfc|]. split; [exact Hms|]. split; [exact Hnums|].
  unfold latestBlockReply in Hlatest. unfold fetchWindowData.
  unfold mbind, Eff_bind, get_world, modify, try_catch_eff.
  fold (normalizedInputs w).
  rewrite rpcCall_once.
  change (length (postLog (normalizedInputs w))) with (length (postLog w)).
  destruct (single_result _) as [latestHex|]; [|discriminate].
  rewrite Hlatest. fold w1.
  change (blockRange (Z.max 0 (latest - inputOr (windowInputValue w) 4000 + 1)) latest)
    with primeNums.
  destruct primeNums as [|n0 rest] eqn:Hrange; [congruence|].
  rewrite <- Hrange in *.
  rewrite Hfc. unfold lift. rewrite Hms. cbn.
  destruct series as [|s0 ss]; [|reflexivity].
  rewrite Hrange in Hnums. discriminate.
Qed.



Section AllBatchesFail.
Variable srv : Server.
Hypothesis batches_fail : ∀ k reqs, batch_result (srv k (BatchCall reqs)) = Throw.

Lemma rpcBatch_fails (reqs : list Request) (w : World) :
  rpcBatch srv reqs 0 w = Raised (add_posts [BatchCall reqs] w).
Proof. rewrite rpcBatch_once, batches_fail. reflexivity. Qed.

Lemma sendSlices_all_fail (fuel : nat) (reqs : list Request) (maxPer : Z) :
  0 < maxPer →
  ∀ i w, Z.of_nat (length reqs) - i <= Z.of_nat fuel →
    ∃ ps, sendSlices srv fuel reqs maxPer 0 i ∅ w = Done ∅ (add_posts ps w).
Proof.
  intros Hmax. induction fuel as [|k IH]; intros i w Hfuel.
  - exists []. rewrite add_posts_nil. apply sendSlices_end. lia.
  - destruct (Z.lt_ge_cases i (Z.of_nat (length reqs))) as [Hi|Hi].
    + rewrite sendSlices_step by lia. rewrite batches_fail.
      destruct (IH (i + maxPer)
                   (add_posts [BatchCall (js_slice reqs i (i + maxPer))] w))
        as [ps ->]; [lia|].
      eexists. rewrite add_posts_app. reflexivity.
    + exists []. rewrite add_posts_nil. apply sendSlices_end. lia.
Qed.

Lemma sendFallback_all_fail (batch : list Request) (w : World) :
  ∃ ps, sendFallback srv batch w = Done ∅ (add_posts ps w).
Proof.
  unfold sendFallback, sendBatchWithLimit, try_catch_eff.
  destruct (length batch =? 0)%nat.
  - exists []. rewrite add_posts_nil. reflexivity.
  - destruct (Z.of_nat (length batch) <=? 2000).
    + rewrite rpcBatch_fails. unfold throw. eexists. reflexivity.
    + destruct (sendSlices_all_fail (length batch) batch 2000 ltac:(lia) 0 w
                  ltac:(lia)) as [ps ->].
      eauto.
Qed.

Lemma fetchCombined_all_fail (batch : list Request) (w : World) :
  ∃ ps, fetchCombined srv batch w = Done ∅ (add_posts ps w).
Proof.
  unfold fetchCombined, try_catch_eff.
  destruct (length batch <=? 1)%nat.
  - rewrite rpcBatch_fails.
    destruct (sendFallback_all_fail batch (add_posts [BatchCall batch] w))
      as [ps ->].
    eexists. rewrite add_posts_app. reflexivity.
  - unfold mbind, Eff_bind. rewrite rpcBatch_fails.
    match goal with
    | |- context [sendFallback srv batch ?w1] =>
        destruct (sendFallback_all_fail batch w1) as [ps ->]
    end.
    eexists. rewrite add_posts_app. reflexivity.
Qed.
End AllBatchesFail.

Lemma Done_inj {A} (a b : A) (w w' : World) :
  Done a w = Done b w' → a = b ∧ w = w'.
Proof. intros H. inversion H. split; reflexivity. Qed.

Lemma add_posts_inj (ps qs : list PostBody) (w : World) :
  add_posts ps w = add_posts qs w → ps = qs.
Proof.
  intros H. apply (f_equal postLog) in H. cbn in H.
  apply app_inv_head in H. exact H.
Qed.

(** ** What the batch replies deliver *)

Lemma chunksOf_go_nil {A} (fuel n : nat) : @chunksOf_go A fuel n [] = [].
Proof. destruct fuel; reflexivity. Qed.

Lemma js_slice_prefix {A} (arr : list A) (mid : Z) :
  0 <= mid <= Z.of_nat (length arr) →
  js_slice arr 0 mid = take (Z.to_nat mid) arr
  ∧ js_slice arr mid (Z.of_nat (length arr)) = drop (Z.to_nat mid) arr.
Proof.
  intros H. split.
  - rewrite js_slice_take_drop by lia. cbn [Z.to_nat drop].
    f_equal. lia.
  - rewrite js_slice_take_drop by lia. apply take_ge.
    rewrite length_drop. lia.
Qed.












Lemma length_flat_map_blockRequests (primeNums : list Z) :
  length (flat_map blockRequests primeNums) = (3 * length primeNums)%nat.
Proof. induction primeNums as [|n rest IH]; cbn; lia. Qed.




Lemma fetchCombined_two_posts (srv : Server) (batch : list Request) (w : World)
    (m1 m2 : gmap string JsValue) :
  let len := Z.of_nat (length batch) in
  let mid := (len + 1) / 2 in
  let firstSlice := js_slice batch 0 mid in
  let secondSlice := js_slice batch mid len in
  (1 < length batch)%nat →
  batch_result (srv (length (postLog w)) (BatchCall firstSlice)) = Return m1 →
  batch_result (srv (S (length (postLog w))) (BatchCall secondSlice)) = Return m2 →
  fetchCombined srv batch w =
    Done (m2 ∪ m1) (add_posts [BatchCall firstSlice; BatchCall secondSlice] w).
Proof.
  intros len mid firstSlice secondSlice Hlen H1 H2.
  unfold fetchCombined, try_catch_eff.
  destruct (Nat.leb_spec (length batch) 1) as [?|_]; [lia|].
  unfold mbind, Eff_bind. fold len. fold mid. fold firstSlice. fold secondSlice.
  rewrite rpcBatch_once, H1, rpcBatch_once.
  replace (length (postLog (add_posts [BatchCall firstSlice] w)))
    with (S (length (postLog w))) by (cbn; rewrite length_app; cbn; lia).
  rewrite H2. rewrite add_posts_app. reflexivity.
Qed.


(** C4. With window 4000 and latest block 10000, fetchWindowData stores a
    series of exactly 4000 samples whose block numbers are 6001..10000 in
    order (the i-th is 6001 + i, hence strictly ascending, without gap or
    duplicate).  The requests are three per block, with ids n_m, n_b and
    n_h and the three accessor methods; when the two batch POSTs succeed
    they are the only POSTs after quai_blockNumber and carry these
    requests in order, 6000 each. *)
Theorem fetchWindowData_10000_4000 (srv : Server) (w : World)
    (m1 m2 : gmap string JsValue) :
  let combinedBatch := flat_map blockRequests (seqZ 6001 4000) in
  let k := length (postLog w) in
  windowOf w = 4000 →
  latestBlockReply srv w = Some 10000 →
  batch_result (srv (S k) (BatchCall (take (Z.to_nat 6000) combinedBatch))) = Return m1 →
  batch_result (srv (S (S k)) (BatchCall (drop (Z.to_nat 6000) combinedBatch))) = Return m2 →
  ∃ w', fetchWindowData srv w = Done tt w' ∧
    List.map primeNum (currentSeries w') = seqZ 6001 4000 ∧
    length (currentSeries w') = 4000%nat ∧
    (∀ i s, currentSeries w' !! i = Some s →
            primeNum s = 6001 + Z.of_nat i ∧ 6001 <= primeNum s <= 10000) ∧
    (∀ i j si sj, currentSeries w' !! i = Some si → currentSeries w' !! j = Some sj →
                  (i < j)%nat → primeNum si < primeNum sj) ∧
    NoDup (List.map primeNum (currentSeries w')) ∧
    makeSeries (m2 ∪ m1) (seqZ 6001 4000) = Return (currentSeries w') ∧
    postLog w' = postLog w ++ [SingleCall "quai_blockNumber" [];
                               BatchCall (take (Z.to_nat 6000) combinedBatch);
                               BatchCall (drop (Z.to_nat 6000) combinedBatch)] ∧
    Z.of_nat (length combinedBatch) = 12000 ∧
    (∀ n, List.map req_id (blockRequests n) = [idOf n "_m"; idOf n "_b"; idOf n "_h"]
          ∧ List.map req_method (blockRequests n) =
              ["quai_getMinerDiffNormalized"; "quai_getBestDiffNormalized";
               "quai_getHeaderByNumber"]).
Proof.
  intros combinedBatch k Hwin Hlatest H1 H2.
  assert (Hrange : windowRange w 10000 = seqZ 6001 4000).
  { unfold windowRange, blockRange. rewrite Hwin. f_equal; lia. }
  assert (Hlen : length (seqZ 6001 4000) = 4000%nat)
    by (rewrite length_seqZ; lia).
  assert (HlenB : Z.of_nat (length combinedBatch) = 12000)
    by (unfold combinedBatch; rewrite length_flat_map_blockRequests, Hlen; lia).
  pose proof (fetchWindowData_range srv w 10000 Hlatest) as H. cbv zeta in H.
  rewrite Hrange in H.
  destruct H as (combinedMap & ps & series & Hfc & Hms & Hnums & Hrun).
  { intros Hnil. rewrite Hnil in Hlen. discriminate. }
  fold combinedBatch in Hfc.
  set (w1 := add_posts [SingleCall "quai_blockNumber" []] (normalizedInputs w)) in *.
  assert (Hk1 : length (postLog w1) = S k)
    by (unfold w1, k; cbn [postLog add_posts normalizedInputs set_inputs];
        rewrite length_app; cbn [length]; lia).
  pose proof (fetchCombined_two_posts srv combinedBatch w1 m1 m2) as Htwo.
  cbv zeta in Htwo. rewrite HlenB in Htwo.
  replace ((12000 + 1) / 2) with 6000 in Htwo by reflexivity.
  rewrite !js_slice_take_drop in Htwo by lia.
  replace (6000 - 0) with 6000 in Htwo by lia.
  replace (12000 - 6000) with 6000 in Htwo by lia.
  replace (Z.to_nat 0) with 0%nat in Htwo by lia.
  rewrite drop_0 in Htwo.
  rewrite (take_ge (drop (Z.to_nat 6000) combinedBatch)) in Htwo
    by (rewrite length_drop; lia).
  rewrite Hk1 in Htwo. specialize (Htwo ltac:(lia) H1 H2).
  rewrite Htwo in Hfc. apply Done_inj in Hfc as [<- Hps].
  apply add_posts_inj in Hps. subst ps.
  exists (set_currentSeries series
            (add_posts [BatchCall (take (Z.to_nat 6000) combinedBatch);
                        BatchCall (drop (Z.to_nat 6000) combinedBatch)] w1)).
  split; [exact Hrun|]. cbn [currentSeries set_currentSeries].
  assert (Hlook : ∀ i s, series !! i = Some s →
                         primeNum s = 6001 + Z.of_nat i ∧ Z.of_nat i < 4000).
  { intros i s Hi.
    assert (Hm : List.map primeNum series !! i = Some (primeNum s))
      by (change (List.map primeNum series) with (primeNum <$> series);
          rewrite list_lookup_fmap, Hi; reflexivity).
    rewrite Hnums in Hm. apply lookup_seqZ in Hm. exact Hm. }
  split; [exact Hnums|].
  split; [rewrite <- (length_map primeNum), Hnums; exact Hlen|].
  split; [intros i s Hi; destruct (Hlook i s Hi); lia|].
  split.
  { intros i j si sj Hi Hj Hij.
    destruct (Hlook i si Hi), (Hlook j sj Hj). lia. }
  split; [rewrite Hnums; apply NoDup_seqZ|].
  split; [exact Hms|].
  split; [unfold w1; cbn [postLog set_currentSeries add_posts normalizedInputs set_inputs];
          rewrite <- app_assoc; reflexivity|].
  split; [exact HlenB|].
  intros n. split; reflexivity.
Qed.

Lemma fetchWindowData_10000_4000_witness :
  ∃ w', fetchWindowData quietNode blankPage = Done tt w' ∧
        List.map primeNum (currentSeries w') = seqZ 6001 4000 ∧
        length (currentSeries w') = 4000%nat.
Proof.
  destruct (fetchWindowData_10000_4000 quietNode blankPage ∅ ∅)
    as (w' & Hrun & Hnums & Hlen & _).
  - vm_compute. reflexivity.
  - vm_compute. reflexivity.
  - reflexivity.
  - reflexivity.
  - exists w'. split; [exact Hrun|]. split; [exact Hnums | exact Hlen].
Defined.

(** ** fetchAndAppendLatest *)

(** C7. When the series is not empty and the latest block number is not
    above the last block of the series, fetchAndAppendLatest returns with
    the series, the counter and the inputs as they were; the only POST it
    sent is the quai_blockNumber call, so no per-block batch request. *)
Theorem fetchAndAppendLatest_noop (srv : Server) (w : World)
    (lastSample : Sample) (latestPrimeBlock : Z) :
  last (currentSeries w) = Some lastSample →
  latestBlockReply srv w = Some latestPrimeBlock →
  latestPrimeBlock <= primeNum lastSample →
  ∃ w', fetchAndAppendLatest srv w = Done tt w' ∧
        currentSeries w' = currentSeries w ∧
        w' = add_posts [SingleCall "quai_blockNumber" []] w ∧
        postLog w' = postLog w ++ [SingleCall "quai_blockNumber" []] ∧
        (∀ reqs, BatchCall reqs ∉ drop (length (postLog w)) (postLog w')).
Proof.
  intros Hlast Hlatest Hle.
  exists (add_posts [SingleCall "quai_blockNumber" []] w).
  split; [|split; [reflexivity|split; [reflexivity|split; [reflexivity|]]]].
  - unfold latestBlockReply in Hlatest.
    unfold fetchAndAppendLatest, try_catch_eff, mbind, Eff_bind, get_world.
    rewrite rpcCall_once.
    destruct (single_result _) as [latestHex|]; [|discriminate].
    cbn [currentSeries add_posts]. rewrite Hlast, Hlatest.
    destruct (Z.leb_spec latestPrimeBlock (primeNum lastSample)); [reflexivity|lia].
  - intros reqs. cbn [postLog add_posts]. rewrite drop_app_length.
    intros Hin. apply list_elem_of_singleton in Hin. discriminate.
Qed.

Lemma fetchAndAppendLatest_noop_witness :
  ∃ w', fetchAndAppendLatest batchlessNode priorPage = Done tt w' ∧
        currentSeries w' = [priorSample] ∧
        postLog w' = [SingleCall "quai_blockNumber" []].
Proof.
  destruct (fetchAndAppendLatest_noop batchlessNode priorPage priorSample 2)
    as (w' & Hrun & Hser & _ & Hlog & _).
  - reflexivity.
  - vm_compute. reflexivity.
  - vm_compute. discriminate.
  - exists w'. split; [exact Hrun|]. split; [exact Hser | exact Hlog].
Defined.

(** ** Which formula a sample came from *)

(** C6 (amended). A sample record has no field that says which formula
    produced its ratio and deltaK: the branch taken only sets these two
    fields.  The formula can be told from the raw header the record
    keeps: a sample computed by the exact formula has a truthy
    header.minerDifficulty, one computed by the fallback has not. *)
Theorem formula_told_by_header_only (map : gmap string JsValue) (n : Z) :
  let minerRaw := map_get_or_null map (idOf n "_m") in
  let bestRaw := map_get_or_null map (idOf n "_b") in
  let headerRaw := map_get_or_null map (idOf n "_h") in
  ∃ s, makeSample map n = Return s ∧
    header s = js_or headerRaw JNull ∧
    (formulaFor minerRaw bestRaw (header s) = UsedExact →
       truthy (get_prop (header s) "minerDifficulty") = true ∧
       ∃ r, computeExactDeltaK bestRaw (get_prop (header s) "minerDifficulty")
              = Return r
            ∧ ratio s = Exact.ratio r ∧ deltaK s = Exact.deltaK r) ∧
    (formulaFor minerRaw bestRaw (header s) = UsedFallback →
       truthy (get_prop (header s) "minerDifficulty") = false ∧
       ∃ r, computeRatioAndDeltaKFromNormHex bestRaw minerRaw = Return r
            ∧ ratio s = Norm.ratio r ∧ deltaK s = Norm.deltaK r) ∧
    (formulaFor minerRaw bestRaw (header s) = UsedNeutral →
       ratio s = DFin 1 0 ∧ deltaK s = DFin 0 0).
Proof.
  intros minerRaw bestRaw headerRaw. unfold makeSample.
  fold minerRaw. fold bestRaw. fold headerRaw.
  destruct (positiveDecimal_returns minerRaw) as [d1 ->].
  destruct (positiveDecimal_returns bestRaw) as [d2 ->]. cbn.
  set (hdr := js_or headerRaw JNull).
  assert (Hhdr : truthy hdr = false → get_prop hdr "minerDifficulty" = JUndefined).
  { unfold hdr, js_or. destruct (truthy headerRaw) eqn:E; [congruence|reflexivity]. }
  destruct (formulaFor minerRaw bestRaw hdr) eqn:Hf.
  - destruct (computeExactDeltaK_returns bestRaw (get_prop hdr "minerDifficulty"))
      as [r Hr].
    rewrite Hr. cbn. eexists. split; [reflexivity|]. cbn [header ratio deltaK].
    fold hdr. rewrite Hf.
    split; [reflexivity|]. split; [|split; intros [=]].
    intros _. split; [|eauto].
    unfold formulaFor in Hf.
    destruct (truthy bestRaw), (truthy hdr),
      (truthy (get_prop hdr "minerDifficulty")), (truthy minerRaw);
      cbn in Hf; congruence.
  - destruct (computeRatioAndDeltaKFromNormHex_returns bestRaw minerRaw) as [r Hr].
    rewrite Hr. cbn. eexists. split; [reflexivity|]. cbn [header ratio deltaK].
    fold hdr. rewrite Hf.
    split; [reflexivity|]. split; [intros [=]|]. split; [|intros [=]].
    intros _. split; [|eauto].
    unfold formulaFor in Hf.
    destruct (truthy hdr) eqn:Eh.
    + destruct (truthy bestRaw), (truthy (get_prop hdr "minerDifficulty")),
        (truthy minerRaw); cbn in Hf; congruence.
    + rewrite (Hhdr eq_refl). reflexivity.
  - cbn. eexists. split; [reflexivity|]. cbn [header ratio deltaK].
    fold hdr. rewrite Hf.
    split; [reflexivity|]. split; [intros [=]|]. split; [intros [=]|].
    intros _. split; reflexivity.
Qed.

Lemma formula_told_by_header_only_witness :
  (∃ s, makeSample exactAnswers 7 = Return s ∧
        truthy (get_prop (header s) "minerDifficulty") = true) ∧
  (∃ s, makeSample fallbackAnswers 7 = Return s ∧
        truthy (get_prop (header s) "minerDifficulty") = false) ∧
  (∃ s, makeSample ∅ 7 = Return s ∧ ratio s = DFin 1 0 ∧ deltaK s = DFin 0 0).
Proof.
  split; [|split].
  - destruct (formula_told_by_header_only exactAnswers 7)
      as (s & Hs & Hh & He & _ & _).
    exists s. split; [exact Hs|]. apply He. rewrite Hh. reflexivity.
  - destruct (formula_told_by_header_only fallbackAnswers 7)
      as (s & Hs & Hh & _ & Hfb & _).
    exists s. split; [exact Hs|]. apply Hfb. rewrite Hh. reflexivity.
  - destruct (formula_told_by_header_only ∅ 7)
      as (s & Hs & Hh & _ & _ & Hn).
    exists s. split; [exact Hs|]. apply Hn. rewrite Hh. reflexivity.
Defined.

(** C6, as stated, fails: one block computed by the exact formula and one
    computed by the fallback give records that agree on every field but
    the raw header, and the chunk averages built from them are the same. *)
Lemma provenance_not_recorded :
  formulaFor (JString "0x2") (JString "0x2")
             (JObject [("minerDifficulty", JString "0x2")]) = UsedExact ∧
  formulaFor (JString "0x2") (JString "0x2")
             (JObject [("timestamp", JString "0x65f0")]) = UsedFallback ∧
  ∃ sExact sFallback,
    makeSample exactAnswers 7 = Return sExact ∧
    makeSample fallbackAnswers 7 = Return sFallback ∧
    metricsOf sExact = metricsOf sFallback ∧
    aggregate [sExact] 200 = aggregate [sFallback] 200.
Proof.
  split; [reflexivity|]. split; [reflexivity|].
  eexists. eexists. split; [vm_compute; reflexivity|].
  split; [vm_compute; reflexivity|]. split; reflexivity.
Qed.

(** ** Chunk averages *)

Lemma chunksOf_go_concat {A} (n : nat) :
  (0 < n)%nat →
  ∀ fuel (l : list A), (length l <= fuel)%nat → concat (chunksOf_go fuel n l) = l.
Proof.
  intros Hn. induction fuel as [|k IH]; intros l Hl.
  - destruct l; [reflexivity | cbn in Hl; lia].
  - destruct l as [|x l']; [reflexivity|].
    cbn [chunksOf_go concat]. rewrite IH.
    + apply take_drop.
    + rewrite length_drop. cbn [length] in *. lia.
Qed.

Lemma chunksOf_go_sizes {A} (n : nat) :
  (0 < n)%nat →
  ∀ fuel (l : list A) i c,
    chunksOf_go fuel n l !! i = Some c →
    c ≠ [] ∧ (length c <= n)%nat ∧
    (S i < length (chunksOf_go fuel n l) → length c = n)%nat.
Proof.
  intros Hn. induction fuel as [|k IH]; intros l i c Hc.
  - destruct l; discriminate.
  - destruct l as [|x l']; [discriminate|].
    cbn [chunksOf_go] in *. destruct i as [|i].
    + injection Hc as <-. split; [|split].
      * destruct n; [lia|discriminate].
      * rewrite length_take. lia.
      * cbn [length]. intros Hmore.
        destruct (chunksOf_go k n (drop n (x :: l'))) as [|c2 cs] eqn:Hrest;
          [cbn in Hmore; lia|].
        rewrite length_take. apply Nat.min_l.
        destruct (Nat.le_gt_cases n (length (x :: l'))) as [?|Hlt]; [assumption|].
        rewrite drop_ge in Hrest by lia. destruct k; discriminate.
    + cbn [lookup list_lookup] in Hc. destruct (IH _ _ _ Hc) as (H1 & H2 & H3).
      split; [exact H1|]. split; [exact H2|].
      cbn [length]. intros Hmore. apply H3. lia.
Qed.

Lemma chunksOf_go_count {A} (cs : Z) :
  0 < cs →
  ∀ fuel (l : list A), (length l <= fuel)%nat →
    Z.of_nat (length (chunksOf_go fuel (Z.to_nat cs) l))
      = (Z.of_nat (length l) + cs - 1) / cs.
Proof.
  intros Hcs. induction fuel as [|k IH]; intros l Hl.
  - destruct l; [|cbn in Hl; lia]. cbn. symmetry. apply Z.div_small. lia.
  - destruct l as [|x l']; [cbn; symmetry; apply Z.div_small; lia|].
    cbn [chunksOf_go length].
    rewrite Nat2Z.inj_succ, IH by (rewrite length_drop; cbn [length] in *; lia).
    rewrite length_drop. cbn [length].
    destruct (Z.le_gt_cases (Z.of_nat (S (length l'))) cs) as [Hle|Hgt].
    + replace (Z.of_nat (S (length l') - Z.to_nat cs)) with 0 by lia.
      rewrite (Z.div_small (0 + cs - 1)) by lia.
      apply (Z.div_unique _ _ _ (Z.of_nat (S (length l')) - 1)); lia.
    + replace (Z.of_nat (S (length l')) + cs - 1)
        with ((Z.of_nat (S (length l') - Z.to_nat cs) + cs - 1) + 1 * cs) by lia.
      rewrite Z.div_add by lia. lia.
Qed.

Lemma chunkRow_some (chunk : list Sample) :
  chunk ≠ [] →
  ∃ first lst, head chunk = Some first ∧ last chunk = Some lst ∧
    chunkRow chunk =
      Some {| firstPrime := primeNum first; lastPrime := primeNum lst;
              avgD := avgDec (map (λ x, optArg (dInstant x)) chunk);
              avgDStar := avgDec (map (λ x, optArg (dStar x)) chunk);
              avgDk := avgDec (map (λ x, ArgDecimal (deltaK x)) chunk) |}.
Proof.
  intros Hne. destruct chunk as [|x rest]; [congruence|].
  destruct (last (x :: rest)) as [lst|] eqn:Hlast.
  - exists x, lst. unfold chunkRow. rewrite Hlast. auto.
  - apply last_None in Hlast. discriminate.
Qed.

Lemma chunkLoop_chunks (series : list Sample) (cs : Z) :
  0 < cs →
  ∀ fuel k, (k <= length series)%nat → (length series - k <= fuel)%nat →
    chunkLoop fuel series cs (Z.of_nat k * cs) =
      Some (omap chunkRow
              (chunksOf_go fuel (Z.to_nat cs) (drop (k * Z.to_nat cs) series))).
Proof.
  intros Hcs. induction fuel as [|f IH]; intros k Hk Hfuel.
  - cbn [chunkLoop]. destruct (Z.ltb_spec (Z.of_nat k * cs) (Z.of_nat (length series))).
    + nia.
    + reflexivity.
  - cbn [chunkLoop].
    destruct (Z.ltb_spec (Z.of_nat k * cs) (Z.of_nat (length series))) as [Hi|Hi].
    + assert (Hdrop : drop (k * Z.to_nat cs) series ≠ []).
      { intros E. apply (f_equal length) in E. rewrite length_drop in E.
        cbn in E. nia. }
      destruct (drop (k * Z.to_nat cs) series) as [|x rest] eqn:Hd; [congruence|].
      cbn [chunksOf_go]. rewrite <- Hd.
      replace (Z.of_nat k * cs + cs) with (Z.of_nat (S k) * cs) by lia.
      destruct (Nat.le_gt_cases (S k) (length series)) as [Hsk|Hsk].
      * rewrite IH by lia. cbn [mbind option_bind omap].
        rewrite drop_drop.
        replace (k * Z.to_nat cs + Z.to_nat cs)%nat with (S k * Z.to_nat cs)%nat by lia.
        rewrite js_slice_take_drop by nia.
        replace (Z.to_nat (Z.of_nat (S k) * cs - Z.of_nat k * cs)) with (Z.to_nat cs) by lia.
        replace (Z.to_nat (Z.of_nat k * cs)) with (k * Z.to_nat cs)%nat by lia.
        cbn [omap list_omap].
        destruct (chunkRow (take (Z.to_nat cs) (drop (k * Z.to_nat cs) series)));
          reflexivity.
      * assert (k = length series) by lia. subst k.
        rewrite drop_ge in Hd by nia. discriminate.
    + rewrite drop_ge by nia. reflexivity.
Qed.

Lemma aggregate_chunks (series : list Sample) (cs : Z) :
  0 < cs →
  aggregate series cs = Some (omap chunkRow (chunksOf (Z.to_nat cs) series)).
Proof.
  intros Hcs. unfold aggregate, chunksOf.
  pose proof (chunkLoop_chunks series cs Hcs (length series) 0 ltac:(lia) ltac:(lia)) as H.
  cbn in H. rewrite drop_0 in H. exact H.
Qed.

Lemma omap_chunkRow_Forall2 (chunks : list (list Sample)) :
  Forall (λ c, c ≠ []) chunks →
  Forall2 (λ row chunk, chunkRow chunk = Some row) (omap chunkRow chunks) chunks.
Proof.
  induction 1 as [|c chunks Hc _ IH]; [constructor|].
  cbn [omap list_omap]. destruct (chunkRow_some c Hc) as (f & l & _ & _ & Hr).
  rewrite Hr. constructor; [exact Hr | exact IH].
Qed.

Lemma sumsFit_fold (arr : list AvgArg) :
  ∀ sum, sumsFit sum arr →
    fold_left (λ s v, Decimal_plus s (avgArg_value v)) arr sum =
    fold_left (λ s v, Decimal_plus_exact s (avgArg_value v)) arr sum.
Proof.
  induction arr as [|v rest IH]; intros sum Hfit; [reflexivity|].
  cbn [fold_left sumsFit] in *. destruct Hfit as [Hstep Hrest].
  assert (E : Decimal_plus sum (avgArg_value v)
              = Decimal_plus_exact sum (avgArg_value v)).
  { destruct sum as [m1 e1| |], (avgArg_value v) as [m2 e2| |]; try reflexivity.
    cbn [Decimal_plus Decimal_plus_exact].
    destruct (plus_exact m1 e1 m2 e2) as [m e] eqn:Hp. cbn [fst] in Hstep.
    unfold finalise. cbv zeta.
    destruct (Z.leb_spec (digits (Z.abs m)) DECIMAL_PREC); [reflexivity | lia]. }
  rewrite <- E. apply IH. exact Hrest.
Qed.

(** C8 (amended). For a chunk size > 0 the chunk loop ends and yields one
    row per consecutive group of chunkSize samples, in order, only the
    last group possibly shorter (ceil(length / chunkSize) rows: 20 for
    4000 samples in chunks of 200).  Each average is the Decimal sum of
    the group's values, rounded to 40 significant digits after every
    addition, divided by the group's size with the quotient rounded
    likewise; a null difficulty counts as 0.  This is the exact sum
    divided by the count whenever no running sum needs more than 40
    digits.  The series is an input only. *)
Theorem aggregate_chunk_averages (series : list Sample) (chunkSize : Z) :
  0 < chunkSize →
  let chunks := chunksOf (Z.to_nat chunkSize) series in
  ∃ rows,
    aggregate series chunkSize = Some rows ∧
    concat chunks = series ∧
    (∀ i c, chunks !! i = Some c →
       c ≠ [] ∧ Z.of_nat (length c) <= chunkSize ∧
       (S i < length chunks → Z.of_nat (length c) = chunkSize)%nat) ∧
    Z.of_nat (length rows) = (Z.of_nat (length series) + chunkSize - 1) / chunkSize ∧
    (length series = 4000%nat → chunkSize = 200 → length rows = 20%nat) ∧
    Forall2 (λ row c,
               head (List.map primeNum c) = Some (firstPrime row) ∧
               last (List.map primeNum c) = Some (lastPrime row) ∧
               avgD row = avgDec (map (λ x, optArg (dInstant x)) c) ∧
               avgDStar row = avgDec (map (λ x, optArg (dStar x)) c) ∧
               avgDk row = avgDec (map (λ x, ArgDecimal (deltaK x)) c))
            rows chunks ∧
    (∀ arr, arr ≠ [] →
       avgDec arr =
         Decimal_div
           (fold_left (λ sum v, Decimal_plus sum (avgArg_value v)) arr (Decimal_ofZ 0))
           (Decimal_ofZ (Z.of_nat (length arr)))
       ∧ (sumsFit (Decimal_ofZ 0) arr → avgDec arr = avgExact arr)) ∧
    avgArg_value ArgNullish = DFin 0 0.
Proof.
  intros Hcs chunks.
  assert (Hn : (0 < Z.to_nat chunkSize)%nat) by lia.
  assert (Hsizes : ∀ i c, chunks !! i = Some c →
            c ≠ [] ∧ Z.of_nat (length c) <= chunkSize ∧
            (S i < length chunks → Z.of_nat (length c) = chunkSize)%nat).
  { intros i c Hc.
    destruct (chunksOf_go_sizes (Z.to_nat chunkSize) Hn _ _ _ _ Hc) as (H1 & H2 & H3).
    split; [exact H1|]. split; [lia|]. intros Hi. specialize (H3 Hi). lia. }
  assert (Hne : Forall (λ c, c ≠ []) chunks).
  { apply Forall_lookup. intros i c Hc. apply (Hsizes i c Hc). }
  pose proof (omap_chunkRow_Forall2 chunks Hne) as Hrows.
  assert (Hcount : Z.of_nat (length (omap chunkRow chunks))
                   = (Z.of_nat (length series) + chunkSize - 1) / chunkSize).
  { rewrite (Forall2_length _ _ _ Hrows).
    apply chunksOf_go_count; [lia | reflexivity]. }
  exists (omap chunkRow chunks).
  split; [apply aggregate_chunks; exact Hcs|].
  split; [apply chunksOf_go_concat; [exact Hn | reflexivity]|].
  split; [exact Hsizes|]. split; [exact Hcount|].
  split.
  { intros Hlen ->. rewrite Hlen in Hcount.
    change ((Z.of_nat 4000 + 200 - 1) / 200) with 20 in Hcount. lia. }
  split.
  { eapply Forall2_impl; [exact Hrows|]. intros row c Hrow. cbn beta in Hrow.
    destruct c as [|x rest]; [discriminate|].
    destruct (chunkRow_some (x :: rest) ltac:(discriminate)) as (f & l & Hf & Hl & Hr).
    rewrite Hr in Hrow. injection Hrow as <-. cbn [firstPrime lastPrime avgD avgDStar avgDk].
    split; [cbn in Hf; injection Hf as <-; reflexivity|].
    split; [|auto].
    change (List.map primeNum (x :: rest)) with (primeNum <$> (x :: rest)).
    rewrite fmap_last, Hl. reflexivity. }
  split; [|reflexivity].
  intros arr Harr. destruct arr as [|v rest]; [congruence|].
  split; [reflexivity|].
  intros Hfit. unfold avgDec, avgExact. rewrite (sumsFit_fold _ _ Hfit). reflexivity.
Qed.

Lemma aggregate_chunk_averages_witness :
  ∃ rows, aggregate [neutralSample 1; neutralSample 2; neutralSample 3] 2 = Some rows ∧
          Z.of_nat (length rows) = 2.
Proof.
  destruct (aggregate_chunk_averages
              [neutralSample 1; neutralSample 2; neutralSample 3] 2)
    as (rows & Hrows & _ & _ & Hcount & _).
  - lia.
  - exists rows. split; [exact Hrows | exact Hcount].
Defined.

(** C8, as stated, fails on the exactness of the sum: two blocks whose
    deltaK are 1 and -7/12000 (to 40 digits) average to ...334e-40, while
    their exact sum divided by 2 is ...333e-40. *)
Lemma avgDec_rounds_partial_sums :
  ∃ series,
    makeSeries twoBlockAnswers [1; 2] = Return series ∧
    List.map deltaK series =
      [DFin 1 0; DFin (-5833333333333333333333333333333333333333) (-43)] ∧
    (∃ row, aggregate series 200 = Some [row] ∧
            avgDk row = DFin 4997083333333333333333333333333333333334 (-40)) ∧
    avgExact (map (λ x, ArgDecimal (deltaK x)) series)
      = DFin 4997083333333333333333333333333333333333 (-40) ∧
    avgDec (map (λ x, ArgDecimal (deltaK x)) series)
      ≠ avgExact (map (λ x, ArgDecimal (deltaK x)) series).
Proof.
  eexists. split; [vm_compute; reflexivity|].
  split; [reflexivity|]. split; [eexists; split; vm_compute; reflexivity|].
  split; [vm_compute; reflexivity|].
  vm_compute. discriminate.
Qed.

(* ===================================================================== *)
(** * Further properties                                               *)
(* ===================================================================== *)

(** ** Printing and parsing numbers *)

Lemma append_empty_l (s : string) : EmptyString +:+ s = s.
Proof. reflexivity. Qed.

Lemma append_String (c : ascii) (s t : string) :
  String c s +:+ t = String c (s +:+ t).
Proof. reflexivity. Qed.

Lemma digit_value_decimal :
  digit_value 10 "0" = Some 0 ∧ digit_value 10 "1" = Some 1 ∧
  digit_value 10 "2" = Some 2 ∧ digit_value 10 "3" = Some 3 ∧
  digit_value 10 "4" = Some 4 ∧ digit_value 10 "5" = Some 5 ∧
  digit_value 10 "6" = Some 6 ∧ digit_value 10 "7" = Some 7 ∧
  digit_value 10 "8" = Some 8 ∧ digit_value 10 "9" = Some 9.
Proof. repeat split. Qed.

Ltac decimal_digit :=
  destruct digit_value_decimal as (H0 & H1 & H2 & H3 & H4 & H5 & H6 & H7 & H8 & H9);
  rewrite ?H0, ?H1, ?H2, ?H3, ?H4, ?H5, ?H6, ?H7, ?H8, ?H9;
  clear H0 H1 H2 H3 H4 H5 H6 H7 H8 H9.

Lemma parse_digits_decimal_acc (d : Decimal.uint) :
  ∀ acc : positive,
    parse_digits 10 (NilEmpty.string_of_uint d) (Z.pos acc)
      = Some (Z.pos (Pos.of_uint_acc d acc)).
Proof.
  induction d; intros acc;
    cbn [NilEmpty.string_of_uint parse_digits Pos.of_uint_acc];
    [reflexivity | ..]; decimal_digit; rewrite <- IHd; f_equal; lia.
Qed.

Lemma parse_digits_decimal (d : Decimal.uint) :
  parse_digits 10 (NilEmpty.string_of_uint d) 0 = Some (Z.of_N (Pos.of_uint d)).
Proof.
  induction d; cbn [NilEmpty.string_of_uint parse_digits Pos.of_uint];
    [reflexivity | ..]; decimal_digit; [exact IHd | ..];
    cbn [Z.of_N]; apply (parse_digits_decimal_acc d).
Qed.

(** The digits [decimal_of_Z] prints for a positive number. *)
Lemma decimal_of_pos (p : positive) :
  decimal_of_Z (Z.pos p) = NilEmpty.string_of_uint (Pos.to_uint p)
  ∧ decimal_of_Z (Z.neg p) = String "-" (NilEmpty.string_of_uint (Pos.to_uint p))
  ∧ NilEmpty.string_of_uint (Pos.to_uint p) ≠ EmptyString.
Proof.
  unfold decimal_of_Z. cbn [Z.to_int NilZero.string_of_int].
  unfold NilZero.string_of_uint.
  pose proof (DecimalPos.Unsigned.to_uint_nonnil p) as Hn.
  destruct (Pos.to_uint p); try congruence; repeat split; discriminate.
Qed.

Lemma parse_digits_decimal_of_pos (p : positive) :
  parse_digits 10 (NilEmpty.string_of_uint (Pos.to_uint p)) 0 = Some (Z.pos p).
Proof.
  rewrite parse_digits_decimal, DecimalPos.Unsigned.of_to. reflexivity.
Qed.

(** A parse of a whole string is also the parse of that string as a
    prefix, when what follows does not start with a digit. *)
Lemma parse_prefix_app (radix : Z) (s rest : string) :
  (match rest with
   | EmptyString => True
   | String c _ => digit_value radix c = None
   end) →
  ∀ acc v, parse_digits radix s acc = Some v →
    parse_prefix radix (s +:+ rest) (Some acc) = Some v.
Proof.
  intros Hrest. induction s as [|c s IH]; intros acc v Hp.
  - cbn [parse_digits] in Hp. injection Hp as <-.
    destruct rest as [|c r]; [reflexivity|].
    rewrite append_empty_l. cbn [parse_prefix]. rewrite Hrest. reflexivity.
  - cbn [parse_digits] in Hp. rewrite append_String. cbn [parse_prefix].
    destruct (digit_value radix c) as [d|]; [|discriminate].
    cbn [default]. apply IH. exact Hp.
Qed.

Lemma parse_prefix_app_start (radix : Z) (s rest : string) (v : Z) :
  (match rest with
   | EmptyString => True
   | String c _ => digit_value radix c = None
   end) →
  s ≠ EmptyString →
  parse_digits radix s 0 = Some v →
  parse_prefix radix (s +:+ rest) None = Some v.
Proof.
  intros Hrest Hne Hp. destruct s as [|c s]; [congruence|].
  cbn [parse_digits] in Hp. rewrite append_String. cbn [parse_prefix].
  destruct (digit_value radix c) as [d|]; [|discriminate].
  cbn [default]. apply parse_prefix_app; assumption.
Qed.

Lemma decimal_first_not_ws (p : positive) :
  drop_ws (NilEmpty.string_of_uint (Pos.to_uint p))
    = NilEmpty.string_of_uint (Pos.to_uint p).
Proof.
  destruct (Pos.to_uint p); reflexivity.
Qed.

(** Reading back, as a prefix, the decimal rendering of an integer. *)
Lemma parseInt10_decimal_of_Z (z : Z) (rest : string) :
  (match rest with
   | EmptyString => True
   | String c _ => digit_value 10 c = None
   end) →
  parseInt10 (decimal_of_Z z +:+ rest) = Some z.
Proof.
  intros Hrest. destruct z as [|p|p].
  - unfold parseInt10. change (decimal_of_Z 0) with "0"%string.
    rewrite append_String, append_empty_l.
    cbn [drop_ws]. change (is_ws "0") with false. cbv iota.
    cbn [parse_prefix]. change (digit_value 10 "0") with (Some 0).
    cbv iota. destruct rest as [|c r]; [reflexivity|].
    cbn [parse_prefix]. rewrite Hrest. reflexivity.
  - destruct (decimal_of_pos p) as (-> & _ & Hne).
    pose proof (parse_prefix_app_start 10 _ rest _ Hrest Hne
                  (parse_digits_decimal_of_pos p)) as Hp.
    unfold parseInt10.
    destruct (Pos.to_uint p) eqn:E;
      cbn [NilEmpty.string_of_uint] in *; try congruence;
      rewrite append_String in Hp |- *;
      cbn [drop_ws];
      match goal with
      | |- context [is_ws ?c] => change (is_ws c) with false
      end; cbv iota; rewrite Hp; reflexivity.
  - destruct (decimal_of_pos p) as (_ & -> & Hne).
    pose proof (parse_prefix_app_start 10 _ rest _ Hrest Hne
                  (parse_digits_decimal_of_pos p)) as Hp.
    unfold parseInt10. rewrite append_String. cbn [drop_ws].
    change (is_ws "-") with false. cbv iota.
    rewrite Hp. reflexivity.
Qed.

(** ** Strings: reversal and trimming *)

Lemma append_empty_r (s : string) : s +:+ EmptyString = s.
Proof. induction s as [|c s IH]; [reflexivity|]. rewrite append_String, IH. reflexivity. Qed.

Lemma append_assoc_str (s t u : string) : (s +:+ t) +:+ u = s +:+ (t +:+ u).
Proof.
  induction s as [|c s IH]; [reflexivity|].
  rewrite !append_String, IH. reflexivity.
Qed.

Lemma rev_app_rev_app (s : string) :
  ∀ t u, String.rev_app (String.rev_app s t) u = String.rev_app t (s +:+ u).
Proof.
  induction s as [|c s IH]; intros t u; cbn [String.rev_app].
  - rewrite append_empty_l. reflexivity.
  - rewrite IH, append_String. reflexivity.
Qed.

Lemma rev_involutive_str (s : string) : String.rev (String.rev s) = s.
Proof.
  unfold String.rev. rewrite rev_app_rev_app. cbn [String.rev_app].
  apply append_empty_r.
Qed.

Lemma rev_app_append (s : string) :
  ∀ t u, String.rev_app (s +:+ t) u = String.rev_app t (String.rev_app s u).
Proof.
  induction s as [|c s IH]; intros t u.
  - rewrite append_empty_l. reflexivity.
  - rewrite append_String. cbn [String.rev_app]. apply IH.
Qed.

Lemma no_ws_rev_app (s : string) :
  ∀ t, no_ws s = true → no_ws t = true → no_ws (String.rev_app s t) = true.
Proof.
  induction s as [|c s IH]; intros t Hs Ht; cbn [String.rev_app]; [exact Ht|].
  cbn [no_ws] in Hs. apply andb_prop in Hs as [Hc Hs].
  apply IH; [exact Hs|]. cbn [no_ws]. rewrite Hc, Ht. reflexivity.
Qed.

Lemma drop_ws_no_ws (s : string) : no_ws s = true → drop_ws s = s.
Proof.
  destruct s as [|c s]; [reflexivity|]. cbn [no_ws drop_ws]. intros H.
  apply andb_prop in H as [Hc _]. apply negb_true_iff in Hc. rewrite Hc.
  reflexivity.
Qed.

(** [trim] leaves a string without white space alone. *)
Lemma trim_no_ws (s : string) : no_ws s = true → trim s = s.
Proof.
  intros H. unfold trim. rewrite (drop_ws_no_ws s H).
  rewrite drop_ws_no_ws by (apply no_ws_rev_app; [exact H | reflexivity]).
  apply rev_involutive_str.
Qed.

Lemma drop_ws_append (t u : string) :
  (match u with
   | EmptyString => False
   | String c _ => is_ws c = false
   end) →
  drop_ws (t +:+ u) = drop_ws t +:+ u.
Proof.
  intros Hu. induction t as [|c t IH].
  - rewrite !append_empty_l. destruct u as [|d u]; [contradiction|].
    cbn [drop_ws]. rewrite Hu. reflexivity.
  - rewrite append_String. cbn [drop_ws]. destruct (is_ws c).
    + exact IH.
    + rewrite append_String. reflexivity.
Qed.

Lemma rev_app_spec (s : string) :
  ∀ t, String.rev_app s t = String.rev s +:+ t.
Proof.
  unfold String.rev. induction s as [|c s IH]; intros t; cbn [String.rev_app].
  - reflexivity.
  - rewrite (IH (String c t)), (IH (String c EmptyString)), append_assoc_str.
    reflexivity.
Qed.

Lemma rev_append (s t : string) :
  String.rev (s +:+ t) = String.rev t +:+ String.rev s.
Proof.
  unfold String.rev at 1. rewrite rev_app_append. apply rev_app_spec.
Qed.

(** Trimming keeps a leading [0x]; what follows it loses its trailing
    white space. *)
Lemma trim_0x (r : string) :
  trim (String "0" (String "x" r))
    = String "0" (String "x" (String.rev (drop_ws (String.rev r)))).
Proof.
  unfold trim. cbn [drop_ws]. change (is_ws "0") with false. cbv iota.
  unfold String.rev at 2. cbn [String.rev_app]. rewrite rev_app_spec.
  rewrite drop_ws_append by reflexivity.
  rewrite rev_append. reflexivity.
Qed.

(** ** Hexadecimal strings *)

Lemma digit_value_hex_digit_char (d : Z) :
  0 <= d < 16 → digit_value 16 (hex_digit_char d) = Some d.
Proof.
  intros H.
  assert (Hd : d = 0 ∨ d = 1 ∨ d = 2 ∨ d = 3 ∨ d = 4 ∨ d = 5 ∨ d = 6 ∨ d = 7 ∨
               d = 8 ∨ d = 9 ∨ d = 10 ∨ d = 11 ∨ d = 12 ∨ d = 13 ∨ d = 14 ∨
               d = 15) by lia.
  repeat destruct Hd as [-> | Hd]; try subst d; reflexivity.
Qed.

Lemma digit_value_range (radix : Z) (c : ascii) (d : Z) :
  digit_value radix c = Some d → 0 <= d < radix ∧ is_ws c = false.
Proof.
  unfold digit_value, is_ws. cbv zeta.
  generalize (Z.of_nat (nat_of_ascii c)). intros n.
  destruct (Z.leb_spec 48 n), (Z.leb_spec n 57), (Z.leb_spec 97 n),
    (Z.leb_spec n 122), (Z.leb_spec 65 n), (Z.leb_spec n 90),
    (Z.leb_spec 9 n), (Z.leb_spec n 13), (Z.eqb_spec n 32);
    cbn [andb orb]; try lia;
    match goal with
    | |- context [?a <? ?b] => destruct (Z.ltb_spec a b)
    end; intros [= <-]; split; (lia || reflexivity).
Qed.

Lemma all_hex_no_ws (s : string) : all_hex s = true → no_ws s = true.
Proof.
  induction s as [|c s IH]; [reflexivity|]. cbn [all_hex no_ws]. intros H.
  apply andb_prop in H as [Hc Hs]. apply bool_decide_eq_true in Hc as [d Hd].
  rewrite (proj2 (digit_value_range _ _ _ Hd)), (IH Hs). reflexivity.
Qed.

Lemma startsWith_0x (s : string) :
  startsWith s "0x" = true → ∃ r, s = String "0" (String "x" r).
Proof.
  unfold startsWith. destruct s as [|a [|b r]]; cbn [String.prefix];
    [discriminate | destruct (ascii_dec "0" a); discriminate |].
  destruct (ascii_dec "0" a) as [<-|]; [|discriminate].
  destruct (ascii_dec "x" b) as [<-|]; [|discriminate]. eauto.
Qed.

Lemma startsWith_0x_intro (r : string) :
  startsWith (String "0" (String "x" r)) "0x" = true.
Proof.
  unfold startsWith. cbn [String.prefix].
  destruct (ascii_dec "0" "0"); [|congruence].
  destruct (ascii_dec "x" "x"); [|congruence]. destruct r; reflexivity.
Qed.

Lemma all_hex_not_0x (s : string) : all_hex s = true → startsWith s "0x" = false.
Proof.
  intros H. destruct (startsWith s "0x") eqn:E; [|reflexivity].
  apply startsWith_0x in E as [r ->]. vm_compute in H. discriminate.
Qed.

Lemma parse_digits_nonneg (radix : Z) (s : string) :
  ∀ acc v, 0 <= acc → 0 <= radix → parse_digits radix s acc = Some v → 0 <= v.
Proof.
  induction s as [|c s IH]; intros acc v Hacc Hr; cbn [parse_digits].
  - intros [= <-]. exact Hacc.
  - destruct (digit_value radix c) as [d|] eqn:E; [|discriminate].
    apply digit_value_range in E as [E _]. apply IH; nia.
Qed.

Lemma hex_of_pos_all_hex (fuel : nat) :
  ∀ p acc, all_hex acc = true → all_hex (hex_of_pos p fuel acc) = true.
Proof.
  induction fuel as [|k IH]; intros p acc Hacc; cbn [hex_of_pos]; [exact Hacc|].
  assert (Hd : all_hex (String (hex_digit_char (Z.pos p mod 16)) acc) = true).
  { cbn [all_hex]. rewrite Hacc, andb_true_r. apply bool_decide_eq_true.
    rewrite digit_value_hex_digit_char by (apply Z.mod_pos_bound; lia). eauto. }
  destruct (Z.pos p / 16); [exact Hd | apply IH; exact Hd | exact Hd].
Qed.

Lemma hex_of_pos_cons_nonempty (fuel : nat) :
  ∀ p c acc, hex_of_pos p fuel (String c acc) ≠ EmptyString.
Proof.
  induction fuel as [|k IH]; intros p c acc; cbn [hex_of_pos]; [discriminate|].
  destruct (Z.pos p / 16); [discriminate | apply IH | discriminate].
Qed.

Lemma hex_of_pos_nonempty (fuel : nat) (p : positive) (acc : string) :
  (0 < fuel)%nat → hex_of_pos p fuel acc ≠ EmptyString.
Proof.
  destruct fuel as [|k]; [lia|]. intros _. cbn [hex_of_pos].
  destruct (Z.pos p / 16);
    [discriminate | apply hex_of_pos_cons_nonempty | discriminate].
Qed.

(** The digits [hex_of_pos] writes in front of [acc] read back as [p]. *)
Lemma parse_digits_hex_of_pos (fuel : nat) :
  ∀ p acc, Z.pos p < 2 ^ Z.of_nat fuel →
    parse_digits 16 (hex_of_pos p fuel acc) 0 = parse_digits 16 acc (Z.pos p).
Proof.
  induction fuel as [|k IH]; intros p acc Hp.
  - change (2 ^ Z.of_nat 0) with 1 in Hp. lia.
  - cbn [hex_of_pos].
    pose proof (Z.mod_pos_bound (Z.pos p) 16 ltac:(lia)) as Hm.
    pose proof (Z.div_mod (Z.pos p) 16 ltac:(lia)) as Hdm.
    destruct (Z.pos p / 16) as [|q|q] eqn:Eq.
    + cbn [parse_digits]. rewrite digit_value_hex_digit_char by exact Hm.
      f_equal. lia.
    + rewrite IH.
      * cbn [parse_digits]. rewrite digit_value_hex_digit_char by exact Hm.
        f_equal. lia.
      * rewrite Nat2Z.inj_succ, Z.pow_succ_r in Hp by lia. lia.
    + pose proof (Z.div_pos (Z.pos p) 16 ltac:(lia) ltac:(lia)). lia.
Qed.

Lemma size_nat_bound (p : positive) : Z.pos p < 2 ^ Z.of_nat (Pos.size_nat p).
Proof.
  induction p as [p IH|p IH|]; cbn [Pos.size_nat];
    rewrite ?Nat2Z.inj_succ, ?Z.pow_succ_r by lia; [lia | lia | reflexivity].
Qed.

Lemma toString16_all_hex (n : Z) :
  0 <= n → all_hex (toString16 n) = true ∧ toString16 n ≠ EmptyString
           ∧ parse_digits 16 (toString16 n) 0 = Some n.
Proof.
  intros Hn. destruct n as [|p|p]; [repeat split; discriminate | | lia].
  cbn [toString16]. split; [|split].
  - apply hex_of_pos_all_hex. reflexivity.
  - apply hex_of_pos_nonempty. destruct p; cbn; lia.
  - rewrite parse_digits_hex_of_pos by apply size_nat_bound. reflexivity.
Qed.

(** What [hexToBigInt] makes of a string of hexadecimal digits, with or
    without the prefix. *)
Lemma hexToBigInt_hex_digits (s : string) (v : Z) :
  all_hex s = true → s ≠ EmptyString → parse_digits 16 s 0 = Some v →
  hexToBigInt (JString ("0x" +:+ s)) = Return v
  ∧ hexToBigInt (JString s) = Return v.
Proof.
  intros Hh Hne Hp.
  assert (Hclean : BigInt (JString ("0x" +:+ s)) = Return v).
  { cbn [BigInt]. unfold StringToBigInt.
    rewrite !append_String, append_empty_l.
    rewrite trim_no_ws by (cbn [no_ws]; rewrite (all_hex_no_ws s Hh); reflexivity).
    unfold parse_nonempty. rewrite Hp. destruct s; [congruence | reflexivity]. }
  split.
  - unfold hexToBigInt, hexConversion.
    rewrite !append_String, append_empty_l in *.
    rewrite startsWith_0x_intro, Hclean. reflexivity.
  - unfold hexToBigInt, hexConversion. rewrite (all_hex_not_0x s Hh), Hclean.
    cbn [truthy]. destruct s; [congruence | reflexivity].
Qed.

(** X1. The page's own hexadecimal rendering of a number, as it puts it in
    request parameters, reads back through [hexToBigInt] as that number. *)
Theorem hexToBigInt_toString16 (n : Z) :
  0 <= n →
  hexToBigInt (JString ("0x" +:+ toString16 n)) = Return n
  ∧ hexToBigInt (JString (toString16 n)) = Return n.
Proof.
  intros Hn. destruct (toString16_all_hex n Hn) as (Hh & Hne & Hp).
  apply hexToBigInt_hex_digits; assumption.
Qed.

Lemma hexToBigInt_toString16_witness :
  hexToBigInt (JString ("0x" +:+ toString16 10000)) = Return 10000
  ∧ hexToBigInt (JString (toString16 10000)) = Return 10000.
Proof. apply (hexToBigInt_toString16 10000). lia. Defined.

(** X2. Whatever the string, [hexToBigInt] returns a number that is not
    negative. *)
Theorem hexToBigInt_string_nonneg (s : string) :
  ∃ z, hexToBigInt (JString s) = Return z ∧ 0 <= z.
Proof.
  assert (G : ∀ r, ∃ z, try_catch (BigInt (JString (String "0" (String "x" r))))
                                  (Return 0) = Return z ∧ 0 <= z).
  { intros r. cbn [BigInt]. unfold StringToBigInt. rewrite trim_0x.
    unfold parse_nonempty.
    destruct (String.rev (drop_ws (String.rev r))) as [|c t] eqn:E.
    - exists 0. split; [reflexivity | lia].
    - destruct (parse_digits 16 (String c t) 0) as [z|] eqn:Ez.
      + exists z. split; [reflexivity|].
        apply (parse_digits_nonneg 16 (String c t) 0 z); [lia | lia | exact Ez].
      + exists 0. split; [reflexivity | lia]. }
  unfold hexToBigInt. destruct (negb (truthy (JString s))).
  { exists 0. split; [reflexivity | lia]. }
  unfold hexConversion. destruct (startsWith s "0x") eqn:Es.
  - apply startsWith_0x in Es as [r ->]. apply G.
  - rewrite !append_String, append_empty_l. apply G.
Qed.

(** [parseInt(_, 16)] of the same rendering. *)
Lemma parseInt16_hex_digits (s : string) (v : Z) :
  all_hex s = true → s ≠ EmptyString → parse_digits 16 s 0 = Some v →
  parseInt16 (JString ("0x" +:+ s)) = Some v.
Proof.
  intros Hh Hne Hp. unfold parseInt16. cbn [js_toString].
  rewrite !append_String, append_empty_l. cbn [drop_ws].
  change (is_ws "0") with false. cbv iota.
  rewrite <- (append_empty_r s).
  rewrite (parse_prefix_app_start 16 s EmptyString v I Hne Hp). reflexivity.
Qed.

(** X3. The two readers of hexadecimal agree on the page's own rendering
    of a number a Number holds exactly. *)
Theorem hexToInt_toString16 (n : Z) :
  0 <= n < 2 ^ 53 →
  parseInt16 (JString ("0x" +:+ toString16 n)) = Some n
  ∧ hexToInt (JString ("0x" +:+ toString16 n)) = Some n
  ∧ hexToBigInt (JString ("0x" +:+ toString16 n)) = Return n.
Proof.
  intros [Hn _]. destruct (toString16_all_hex n Hn) as (Hh & Hne & Hp).
  pose proof (parseInt16_hex_digits _ _ Hh Hne Hp) as H16.
  split; [exact H16 | split].
  - unfold hexToInt. rewrite H16.
    rewrite !append_String, append_empty_l. reflexivity.
  - apply (proj1 (hexToBigInt_hex_digits _ _ Hh Hne Hp)).
Qed.

Lemma hexToInt_toString16_witness :
  parseInt16 (JString ("0x" +:+ toString16 10000)) = Some 10000
  ∧ hexToInt (JString ("0x" +:+ toString16 10000)) = Some 10000
  ∧ hexToBigInt (JString ("0x" +:+ toString16 10000)) = Return 10000.
Proof. apply (hexToInt_toString16 10000). lia. Defined.

(** ** logBigInt: order and scaling *)

Lemma logBigInt_nonpos (x : Z) : x <= 0 → logBigInt x = 0.
Proof.
  intros H. unfold logBigInt. destruct (Z.leb_spec x 0); [reflexivity | lia].
Qed.

Lemma logBigInt_mantissa (x : Z) :
  0 < x → 0 <= ((x - 2 ^ Z.log2 x) * 2 ^ 64) / 2 ^ Z.log2 x < 2 ^ 64.
Proof.
  intros Hx. destruct (Z.log2_spec x Hx) as [Hlo Hhi].
  assert (Hp : 0 < 2 ^ Z.log2 x) by (apply Z.pow_pos_nonneg; [lia | apply Z.log2_nonneg]).
  rewrite Z.pow_succ_r in Hhi by apply Z.log2_nonneg.
  split.
  - apply Z.div_pos; [nia | exact Hp].
  - apply Z.div_lt_upper_bound; [exact Hp | nia].
Qed.

(** X4. logBigInt is monotone: a larger argument never gives a smaller
    result. *)
Theorem logBigInt_monotone (x y : Z) :
  x <= y → logBigInt x <= logBigInt y.
Proof.
  intros Hxy.
  assert (Hnn : ∀ z, 0 <= logBigInt z).
  { intros z. destruct (Z_lt_le_dec 0 z) as [Hz|Hz].
    - rewrite (logBigInt_pos z Hz). pose proof (logBigInt_mantissa z Hz).
      pose proof (Z.log2_nonneg z). nia.
    - rewrite (logBigInt_nonpos z Hz). lia. }
  destruct (Z_lt_le_dec 0 x) as [Hx|Hx]; [|rewrite (logBigInt_nonpos x Hx); apply Hnn].
  assert (Hy : 0 < y) by lia.
  rewrite (logBigInt_pos x Hx), (logBigInt_pos y Hy).
  pose proof (logBigInt_mantissa x Hx) as Hmx.
  pose proof (logBigInt_mantissa y Hy) as Hmy.
  pose proof (Z.log2_le_mono x y Hxy) as Hl.
  destruct (Z.eq_dec (Z.log2 x) (Z.log2 y)) as [E|E].
  - rewrite E. apply Z.add_le_mono_l. apply Z.div_le_mono.
    + apply Z.pow_pos_nonneg; [lia | apply Z.log2_nonneg].
    + apply Z.mul_le_mono_nonneg_r; lia.
  - nia.
Qed.

Lemma logBigInt_monotone_witness : logBigInt 3 <= logBigInt 5.
Proof. apply (logBigInt_monotone 3 5). lia. Defined.

(** X5. Doubling the argument adds exactly one unit, [2^64], to the
    result; on a power of two the result is the exponent, scaled. *)
Theorem logBigInt_double (x k : Z) :
  0 < x → 0 <= k →
  logBigInt (2 * x) = logBigInt x + SCALE_2E64
  ∧ logBigInt (2 ^ k) = k * SCALE_2E64.
Proof.
  intros Hx Hk. change SCALE_2E64 with (2 ^ 64). split.
  - rewrite (logBigInt_pos (2 * x)) by lia. rewrite (logBigInt_pos x Hx).
    rewrite (Z.log2_double x Hx).
    rewrite Z.pow_succ_r by apply Z.log2_nonneg.
    replace ((2 * x - 2 * 2 ^ Z.log2 x) * 2 ^ 64)
      with (2 * ((x - 2 ^ Z.log2 x) * 2 ^ 64)) by ring.
    rewrite Z.div_mul_cancel_l.
    + lia.
    + apply Z.pow_nonzero; [lia | apply Z.log2_nonneg].
    + lia.
  - rewrite logBigInt_pos by (apply Z.pow_pos_nonneg; lia).
    rewrite (Z.log2_pow2 k Hk), Z.sub_diag, Z.mul_0_l, Z.div_0_l.
    + lia.
    + apply Z.pow_nonzero; lia.
Qed.

Lemma logBigInt_double_witness :
  logBigInt (2 * 100) = logBigInt 100 + SCALE_2E64
  ∧ logBigInt (2 ^ 10) = 10 * SCALE_2E64.
Proof. apply (logBigInt_double 100 10); lia. Defined.

(** ** The window and chunk inputs *)






(** ** Request ids *)

Lemma append_inv_head (s t u : string) : s +:+ t = s +:+ u → t = u.
Proof.
  induction s as [|c s IH]; [rewrite !append_empty_l; auto|].
  rewrite !append_String. intros [= H]. auto.
Qed.

(** The three suffixes start with an underscore, which is no digit. *)
Lemma idOf_inj (n n' : Z) (sfx sfx' : string) :
  sfx ∈ ["_m"; "_b"; "_h"]%string → sfx' ∈ ["_m"; "_b"; "_h"]%string →
  idOf n sfx = idOf n' sfx' → n = n' ∧ sfx = sfx'.
Proof.
  intros Hs Hs' E.
  assert (P : ∀ k x, x ∈ ["_m"; "_b"; "_h"]%string → parseInt10 (idOf k x) = Some k).
  { intros k x Hx. apply parseInt10_decimal_of_Z.
    repeat (apply elem_of_cons in Hx as [-> | Hx]); [reflexivity .. |].
    apply elem_of_nil in Hx. contradiction. }
  pose proof (P n sfx Hs) as P1. rewrite E, (P n' sfx' Hs') in P1.
  injection P1 as ->. split; [reflexivity|].
  apply (append_inv_head (decimal_of_Z n)). exact E.
Qed.

Lemma elem_of_block_ids (id : string) (primeNums : list Z) :
  id ∈ map req_id (flat_map blockRequests primeNums) →
  ∃ n sfx, n ∈ primeNums ∧ sfx ∈ ["_m"; "_b"; "_h"]%string ∧ id = idOf n sfx.
Proof.
  induction primeNums as [|n rest IH]; cbn [flat_map].
  - intros H. apply elem_of_nil in H. contradiction.
  - rewrite map_app. intros H. apply elem_of_app in H as [H|H].
    + cbn in H. exists n.
      repeat (apply elem_of_cons in H as [-> | H]).
      * exists "_m"%string. repeat split; [left | repeat constructor].
      * exists "_b"%string. repeat split; [left | repeat constructor].
      * exists "_h"%string. repeat split; [left | repeat constructor].
      * apply elem_of_nil in H. contradiction.
    + destruct (IH H) as (n' & sfx & Hn & Hs & ->).
      exists n', sfx. repeat split; [right; exact Hn | exact Hs].
Qed.

Lemma block_ids_NoDup (primeNums : list Z) :
  NoDup primeNums → NoDup (map req_id (flat_map blockRequests primeNums)).
Proof.
  induction 1 as [|n rest Hn Hnd IH]; cbn [flat_map]; [constructor|].
  rewrite map_app. apply NoDup_app. split; [|split].
  - cbn. repeat constructor; rewrite ?elem_of_cons, ?elem_of_nil;
      intros H; repeat destruct H as [H|H]; try contradiction;
      apply idOf_inj in H as [_ H]; try discriminate; repeat constructor.
  - intros id H1 H2. apply elem_of_block_ids in H2 as (n' & sfx' & Hn' & Hs' & ->).
    assert (H1' : ∃ sfx, sfx ∈ ["_m"; "_b"; "_h"]%string ∧ idOf n' sfx' = idOf n sfx).
    { cbn in H1. repeat (apply elem_of_cons in H1 as [H1 | H1]);
        [ exists "_m"%string | exists "_b"%string | exists "_h"%string
        | apply elem_of_nil in H1; contradiction ];
        (split; [repeat constructor | exact H1]). }
    destruct H1' as (sfx & Hs & E). apply idOf_inj in E as [-> _]; auto.
  - exact IH.
Qed.

(** X7. The requests the two fetchers build for a range of blocks carry
    pairwise different ids. *)
Theorem blockRange_ids_distinct (from to : Z) :
  NoDup (map req_id (flat_map blockRequests (blockRange from to))).
Proof. apply block_ids_NoDup. apply NoDup_seqZ. Qed.

Lemma makeSample_agree (map map' : gmap string JsValue) (n : Z) :
  (∀ sfx, sfx ∈ ["_m"; "_b"; "_h"]%string →
          map !! idOf n sfx = map' !! idOf n sfx) →
  makeSample map n = makeSample map' n.
Proof.
  intros H. unfold makeSample, map_get_or_null.
  rewrite (H "_m"%string), (H "_b"%string), (H "_h"%string) by repeat constructor.
  reflexivity.
Qed.

(** X8. The sample of a block does not depend on what the map holds under
    the ids of any other block. *)
Theorem makeSample_ignores_other_blocks (map : gmap string JsValue)
    (n n' : Z) (sfx : string) (v : JsValue) :
  n ≠ n' → sfx ∈ ["_m"; "_b"; "_h"]%string →
  makeSample (<[idOf n' sfx := v]> map) n = makeSample map n.
Proof.
  intros Hn Hs. apply makeSample_agree. intros sfx0 Hs0.
  apply lookup_insert_ne. intros E. apply idOf_inj in E as [E _]; auto.
Qed.

Lemma makeSample_ignores_other_blocks_witness :
  makeSample (<[idOf 8 "_m" := JString "0x10"]> exactAnswers) 7
    = makeSample exactAnswers 7.
Proof.
  apply (makeSample_ignores_other_blocks exactAnswers 7 8 "_m" (JString "0x10"));
    [lia | repeat constructor].
Defined.

(** ** The JSON-RPC client: attempts and correlation *)

Lemma add_posts_log_post (b : PostBody) (ps : list PostBody) (w : World) :
  add_posts ps (log_post b w) = add_posts (b :: ps) w.
Proof. rewrite log_post_add, add_posts_app. reflexivity. Qed.



(** X10. rpcBatch retries in the same way: the same batch goes out again
    until an attempt gives a well-formed answer or [retries + 1] attempts
    have failed. *)
Theorem rpcBatch_attempts (srv : Server) (batchReq : list Request)
    (retries : nat) (w : World) :
  let body := BatchCall batchReq in
  let k0 := length (postLog w) in
  ∃ k, (k <= retries)%nat ∧
    (∀ j, (j < k)%nat → batch_result (srv (k0 + j)%nat body) = Throw) ∧
    match batch_result (srv (k0 + k)%nat body) with
    | Return m =>
        rpcBatch srv batchReq retries w
          = Done m (add_posts (replicate (S k) body) w)
    | Throw =>
        k = retries ∧
        rpcBatch srv batchReq retries w
          = Raised (add_posts (replicate (S retries) body) w)
    end.
Proof.
  cbv zeta. unfold rpcBatch. revert w.
  induction retries as [|n IH]; intros w; cbn [rpcBatch_from];
    unfold mbind, Eff_bind, post;
    destruct (batch_result (srv (length (postLog w)) (BatchCall batchReq)))
      as [r|] eqn:E.
  - exists 0%nat. rewrite Nat.add_0_r, E.
    split; [lia | split; [intros j Hj; lia |]].
    rewrite log_post_add. reflexivity.
  - exists 0%nat. rewrite Nat.add_0_r, E.
    split; [lia | split; [intros j Hj; lia | split; [reflexivity|]]].
    rewrite log_post_add. reflexivity.
  - exists 0%nat. rewrite Nat.add_0_r, E.
    split; [lia | split; [intros j Hj; lia |]].
    rewrite log_post_add. reflexivity.
  - destruct (IH (log_post (BatchCall batchReq) w)) as (k & Hk & Hfail & Hres).
    assert (Hlen : length (postLog (log_post (BatchCall batchReq) w))
                   = S (length (postLog w))).
    { cbn [postLog log_post]. rewrite length_app. cbn. lia. }
    rewrite Hlen in Hfail, Hres.
    exists (S k). split; [lia | split].
    + intros [|j] Hj; [rewrite Nat.add_0_r; exact E|].
      replace (length (postLog w) + S j)%nat with (S (length (postLog w)) + j)%nat by lia.
      apply Hfail. lia.
    + replace (length (postLog w) + S k)%nat with (S (length (postLog w)) + k)%nat by lia.
      destruct (batch_result (srv (S (length (postLog w)) + k)%nat
                                  (BatchCall batchReq))).
      * rewrite Hres, add_posts_log_post. reflexivity.
      * destruct Hres as [-> Hres]. split; [reflexivity|].
        rewrite Hres, add_posts_log_post. reflexivity.
Qed.

Lemma rpcBatch_attempts_witness :
  ∃ m, rpcBatch (flakyNode 0) (numberedRequests 2) 1 blankPage
         = Done m (add_posts (replicate 2 (BatchCall (numberedRequests 2)))
                             blankPage).
Proof.
  destruct (rpcBatch_attempts (flakyNode 0) (numberedRequests 2) 1 blankPage)
    as (k & Hk & _ & Hres).
  destruct k as [|[|k]]; [| | lia].
  - cbn in Hres. destruct Hres as [Hres _]. discriminate.
  - cbn [Nat.add length postLog blankPage] in Hres.
    destruct (batch_result (flakyNode 0 1%nat (BatchCall (numberedRequests 2))))
      as [m|] eqn:E; [|discriminate].
    exists m. exact Hres.
Defined.

Lemma batch_item_spec (map : gmap string JsValue) (item : JsValue) :
  batch_item map item =
    match item_id item with
    | Some k => <[k := item_value item]> map
    | None => map
    end.
Proof.
  unfold batch_item, item_id, item_value.
  destruct (get_prop item "id"), (truthy item), (truthy (get_prop item "error"));
    reflexivity.
Qed.

Lemma fold_batch_item_dom (data : list JsValue) :
  ∀ m : gmap string JsValue,
    dom (fold_left batch_item data m) = dom m ∪ list_to_set (omap item_id data).
Proof.
  induction data as [|item data IH]; intros m; cbn [fold_left omap list_omap].
  - cbn [list_to_set]. rewrite union_empty_r_L. reflexivity.
  - rewrite IH, batch_item_spec. destruct (item_id item) as [k|].
    + rewrite dom_insert_L. cbn [list_to_set].
      rewrite (union_comm_L {[k]} (dom m)), <- (assoc_L (∪)). reflexivity.
    + reflexivity.
Qed.

Lemma fold_batch_item_lookup_other (data : list JsValue) (k : string) :
  k ∉ omap item_id data →
  ∀ m : gmap string JsValue, fold_left batch_item data m !! k = m !! k.
Proof.
  induction data as [|item data IH]; intros Hk m; cbn [fold_left]; [reflexivity|].
  cbn [omap list_omap] in Hk. rewrite batch_item_spec.
  destruct (item_id item) as [k'|].
  - apply not_elem_of_cons in Hk as [Hne Hk]. rewrite (IH Hk).
    apply lookup_insert_ne. congruence.
  - apply IH. exact Hk.
Qed.

Lemma fold_batch_item_lookup (data : list JsValue) :
  NoDup (omap item_id data) →
  ∀ (m : gmap string JsValue) item k, item ∈ data → item_id item = Some k →
    fold_left batch_item data m !! k = Some (item_value item).
Proof.
  induction data as [|item0 data IH]; intros Hnd m item k Hin Hid.
  - apply elem_of_nil in Hin. contradiction.
  - cbn [fold_left]. cbn [omap list_omap] in Hnd. rewrite batch_item_spec.
    apply elem_of_cons in Hin as [-> | Hin].
    + rewrite Hid in Hnd |- *. apply NoDup_cons in Hnd as [Hk _].
      rewrite (fold_batch_item_lookup_other data k Hk). apply lookup_insert_eq.
    + destruct (item_id item0) as [k0|].
      * apply NoDup_cons in Hnd as [_ Hnd]. apply IH; assumption.
      * apply IH; assumption.
Qed.

(** X11. The map rpcBatch builds from a batch response holds exactly the
    ids of the items answered with an id; when these ids are pairwise
    different, every such item is found under its id, with its result or
    with null for an error, in whatever order the node answered.  The id
    [__proto__] is set aside: assigning to it sets the prototype of the
    object instead of a key. *)
Theorem batch_result_by_id (data : list JsValue) :
  "__proto__"%string ∉ omap item_id data →
  ∃ m, batch_result (JsonData (JArray data)) = Return m ∧
    dom m = list_to_set (omap item_id data) ∧
    (NoDup (omap item_id data) →
       (∀ item k, item ∈ data → item_id item = Some k →
                  m !! k = Some (item_value item)) ∧
       (∀ data', data' ≡ₚ data →
                 batch_result (JsonData (JArray data')) = Return m)).
Proof.
  intros _. eexists. split; [reflexivity|]. split.
  - rewrite fold_batch_item_dom, dom_empty_L, union_empty_l_L. reflexivity.
  - intros Hnd. split.
    + intros item k. apply fold_batch_item_lookup. exact Hnd.
    + intros data' Hp. cbn [batch_result]. f_equal. apply map_eq. intros k.
      assert (Hp' : omap item_id data' ≡ₚ omap item_id data) by (rewrite Hp; reflexivity).
      assert (Hnd' : NoDup (omap item_id data')) by (rewrite Hp'; exact Hnd).
      destruct (decide (k ∈ omap item_id data)) as [Hk|Hk].
      * apply list_elem_of_omap in Hk as (item & Hin & Hid).
        rewrite (fold_batch_item_lookup data Hnd ∅ item k Hin Hid).
        apply fold_batch_item_lookup; [exact Hnd' | | exact Hid].
        rewrite Hp. exact Hin.
      * rewrite (fold_batch_item_lookup_other data k Hk).
        apply fold_batch_item_lookup_other. rewrite Hp'. exact Hk.
Qed.

Lemma batch_result_by_id_witness :
  let data := [JObject [("id", JString "7_m"); ("result", JString "0x10")];
               JObject [("id", JString "7_b"); ("error", JObject [])];
               JNull;
               JObject [("result", JString "0x1")]] in
  ∃ m, batch_result (JsonData (JArray data)) = Return m ∧
       dom m = list_to_set (omap item_id data) ∧
       m !! "7_m" = Some (JString "0x10") ∧ m !! "7_b" = Some JNull.
Proof.
  cbv zeta.
  destruct (batch_result_by_id
              [JObject [("id", JString "7_m"); ("result", JString "0x10")];
               JObject [("id", JString "7_b"); ("error", JObject [])];
               JNull;
               JObject [("result", JString "0x1")]]) as (m & Hm & Hd & Hl).
  { vm_compute. intros H.
    repeat (apply elem_of_cons in H as [H|H]; [discriminate|]).
    apply elem_of_nil in H. exact H. }
  exists m. split; [exact Hm | split; [exact Hd|]].
  destruct Hl as [Hl _].
  { vm_compute. repeat constructor; rewrite ?elem_of_cons, ?elem_of_nil;
      intros H; repeat destruct H as [H|H]; try discriminate; contradiction. }
  split.
  - apply (Hl (JObject [("id", JString "7_m"); ("result", JString "0x10")]));
      [repeat constructor | reflexivity].
  - apply (Hl (JObject [("id", JString "7_b"); ("error", JObject [])]));
      [repeat constructor | reflexivity].
Defined.

(** ** Slices of a large batch *)

Lemma sendSlices_posts (srv : Server) (reqs : list Request) (maxPer : Z) :
  0 < maxPer →
  ∀ fuel j merged w, (length reqs - j <= fuel)%nat →
    ∃ m, sendSlices srv fuel reqs maxPer 0 (Z.of_nat j) merged w =
           Done m (add_posts
                     (map BatchCall
                          (chunksOf_go fuel (Z.to_nat maxPer) (drop j reqs))) w).
Proof.
  intros Hmax. induction fuel as [|k IH]; intros j merged w Hfuel.
  - rewrite sendSlices_end by lia. rewrite drop_ge by lia.
    exists merged. cbn [chunksOf_go map]. rewrite add_posts_nil. reflexivity.
  - destruct (Z_lt_le_dec (Z.of_nat j) (Z.of_nat (length reqs))) as [Hlt|Hge].
    + rewrite sendSlices_step by exact Hlt.
      replace (Z.of_nat j + maxPer) with (Z.of_nat (j + Z.to_nat maxPer)) by lia.
      edestruct (IH (j + Z.to_nat maxPer)%nat) as [m Hm]; [lia|].
      rewrite Hm. exists m. rewrite add_posts_app. do 2 f_equal.
      destruct (drop j reqs) as [|r rest] eqn:Ed.
      { apply (f_equal length) in Ed. rewrite length_drop in Ed. cbn in Ed. lia. }
      cbn [chunksOf_go map app]. rewrite <- Ed. f_equal.
      * f_equal. rewrite js_slice_take_drop by lia.
        rewrite Nat2Z.id. f_equal. lia.
      * rewrite drop_drop. reflexivity.
    + rewrite sendSlices_end by lia. rewrite drop_ge by lia.
      exists merged. rewrite chunksOf_go_nil. cbn [map].
      rewrite add_posts_nil. reflexivity.
Qed.

(** X12. A batch longer than [maxPer] goes out, without retries, as
    consecutive slices of [maxPer] requests, the last one possibly
    shorter: one POST per slice, in order, whatever the node answers; the
    call returns. *)
Theorem sendBatchWithLimit_slices (srv : Server) (batchReq : list Request)
    (maxPer : Z) (w : World) :
  0 < maxPer → maxPer < Z.of_nat (length batchReq) →
  let slices := chunksOf (Z.to_nat maxPer) batchReq in
  ∃ m, sendBatchWithLimit srv batchReq maxPer 0 w
         = Done m (add_posts (map BatchCall slices) w) ∧
       concat slices = batchReq ∧
       Z.of_nat (length slices)
         = (Z.of_nat (length batchReq) + maxPer - 1) / maxPer ∧
       (∀ i c, slices !! i = Some c →
          c ≠ [] ∧ Z.of_nat (length c) <= maxPer ∧
          (S i < length slices → Z.of_nat (length c) = maxPer)%nat).
Proof.
  intros Hmax Hlen slices. unfold sendBatchWithLimit.
  destruct (Nat.eqb_spec (length batchReq) 0) as [E|_]; [lia|].
  destruct (Z.leb_spec (Z.of_nat (length batchReq)) maxPer) as [?|_]; [lia|].
  destruct (sendSlices_posts srv batchReq maxPer Hmax (length batchReq) 0 ∅ w)
    as [m Hm]; [lia|].
  exists m. split; [exact Hm | split; [|split]].
  - apply chunksOf_go_concat; lia.
  - apply chunksOf_go_count; [exact Hmax | lia].
  - intros i c Hc.
    destruct (chunksOf_go_sizes (Z.to_nat maxPer) ltac:(lia) _ _ _ _ Hc)
      as (H1 & H2 & H3).
    split; [exact H1 | split; [lia|]]. intros Hi. specialize (H3 Hi). lia.
Qed.

Lemma sendBatchWithLimit_slices_witness :
  ∃ m, sendBatchWithLimit (flakyNode 1) (numberedRequests 5) 2 0 blankPage
         = Done m (add_posts
                     (map BatchCall (chunksOf (Z.to_nat 2) (numberedRequests 5)))
                     blankPage) ∧
       Z.of_nat (length (chunksOf (Z.to_nat 2) (numberedRequests 5))) = 3.
Proof.
  destruct (sendBatchWithLimit_slices (flakyNode 1) (numberedRequests 5) 2 blankPage)
    as (m & Hm & _ & Hc & _); [lia | vm_compute; reflexivity |].
  exists m. split; [exact Hm | exact Hc].
Defined.

(** ** The two POSTs of the combined batch *)

Lemma fetchCombined_halves_run (srv : Server) (batch : list Request) (w : World)
    (m1 m2 : gmap string JsValue) :
  let mid := Z.to_nat ((Z.of_nat (length batch) + 1) / 2) in
  let k := length (postLog w) in
  (1 < length batch)%nat →
  batch_result (srv k (BatchCall (take mid batch))) = Return m1 →
  batch_result (srv (S k) (BatchCall (drop mid batch))) = Return m2 →
  fetchCombined srv batch w
    = Done (m2 ∪ m1)
           (add_posts [BatchCall (take mid batch); BatchCall (drop mid batch)] w).
Proof.
  intros mid k Hlen H1 H2.
  assert (Hmid : 0 <= (Z.of_nat (length batch) + 1) / 2 <= Z.of_nat (length batch)).
  { split; [apply Z.div_pos; lia|].
    apply Z.div_le_upper_bound; lia. }
  destruct (js_slice_prefix batch _ Hmid) as [E1 E2].
  fold mid in E1, E2. rewrite <- E1, <- E2.
  apply fetchCombined_two_posts;
    [exact Hlen | rewrite E1; exact H1 | rewrite E2; exact H2].
Qed.

(** X13. The combined batch is first tried as two POSTs, its first half
    (the longer one when the count is odd) and the rest; when the node
    answers both, nothing else is sent and the second map wins over the
    first. *)
Theorem fetchCombined_halves (srv : Server) (batch : list Request) (w : World)
    (m1 m2 : gmap string JsValue) :
  let mid := Z.to_nat ((Z.of_nat (length batch) + 1) / 2) in
  let k := length (postLog w) in
  (1 < length batch)%nat →
  batch_result (srv k (BatchCall (take mid batch))) = Return m1 →
  batch_result (srv (S k) (BatchCall (drop mid batch))) = Return m2 →
  fetchCombined srv batch w
    = Done (m2 ∪ m1)
           (add_posts [BatchCall (take mid batch); BatchCall (drop mid batch)] w)
  ∧ take mid batch ++ drop mid batch = batch
  ∧ (length (drop mid batch) <= length (take mid batch)
       <= S (length (drop mid batch)))%nat
  ∧ (∀ id, (m2 ∪ m1) !! id = match m2 !! id with
                              | Some v => Some v
                              | None => m1 !! id
                              end).
Proof.
  intros mid k Hlen H1 H2.
  split; [|split; [|split]].
  - apply fetchCombined_halves_run; assumption.
  - apply take_drop.
  - rewrite length_take, length_drop.
    assert (Z.of_nat mid = (Z.of_nat (length batch) + 1) / 2).
    { unfold mid. rewrite Z2Nat.id; [reflexivity | apply Z.div_pos; lia]. }
    pose proof (Z.div_mod (Z.of_nat (length batch) + 1) 2 ltac:(lia)).
    pose proof (Z.mod_pos_bound (Z.of_nat (length batch) + 1) 2 ltac:(lia)).
    lia.
  - intros id. rewrite lookup_union. destruct (m2 !! id), (m1 !! id); reflexivity.
Qed.

Lemma fetchCombined_halves_witness :
  fetchCombined quietNode (numberedRequests 5) blankPage
    = Done (∅ ∪ ∅)
           (add_posts [BatchCall (take 3 (numberedRequests 5));
                       BatchCall (drop 3 (numberedRequests 5))] blankPage)
  ∧ take 3 (numberedRequests 5) ++ drop 3 (numberedRequests 5)
      = numberedRequests 5.
Proof.
  destruct (fetchCombined_halves quietNode (numberedRequests 5) blankPage ∅ ∅)
    as (Hrun & Hcat & _); [vm_compute; lia | reflexivity | reflexivity |].
  split; [exact Hrun | exact Hcat].
Defined.

(** ** The window of fetchWindowData *)







(** ** Trimming the series *)

Lemma trimSeries_drop (totalPrime : Z) :
  0 <= totalPrime →
  ∀ fuel series, (length series - Z.to_nat totalPrime <= fuel)%nat →
    trimSeries fuel totalPrime series
      = Some (drop (length series - Z.to_nat totalPrime) series).
Proof.
  intros Hw. induction fuel as [|k IH]; intros series Hfuel; cbn [trimSeries].
  - destruct (Z.ltb_spec totalPrime (Z.of_nat (length series))); [lia|].
    replace (length series - Z.to_nat totalPrime)%nat with 0%nat by lia.
    reflexivity.
  - destruct (Z.ltb_spec totalPrime (Z.of_nat (length series))).
    + destruct series as [|s rest]; [cbn in *; lia|]. cbn [tail].
      rewrite IH by (cbn [length] in *; lia). f_equal.
      replace (length (s :: rest) - Z.to_nat totalPrime)%nat
        with (S (length rest - Z.to_nat totalPrime)) by (cbn [length] in *; lia).
      reflexivity.
    + replace (length series - Z.to_nat totalPrime)%nat with 0%nat by lia.
      reflexivity.
Qed.

(** X16. For a window that is not negative the trim loop ends, and keeps
    the newest [totalPrime] samples, or all when there are fewer. *)
Theorem trimSeries_keeps_newest (fuel : nat) (totalPrime : Z) (series : list Sample) :
  0 <= totalPrime → (length series <= fuel)%nat →
  ∃ dropped trimmed,
    trimSeries fuel totalPrime series = Some trimmed ∧
    series = dropped ++ trimmed ∧
    Z.of_nat (length trimmed) = Z.min totalPrime (Z.of_nat (length series)).
Proof.
  intros Hw Hfuel.
  exists (take (length series - Z.to_nat totalPrime) series),
         (drop (length series - Z.to_nat totalPrime) series).
  split; [apply trimSeries_drop; [exact Hw | lia] | split].
  - symmetry. apply take_drop.
  - rewrite length_drop. lia.
Qed.

Lemma trimSeries_keeps_newest_witness :
  ∃ dropped trimmed,
    trimSeries 3 2 [neutralSample 1; neutralSample 2; neutralSample 3] = Some trimmed ∧
    [neutralSample 1; neutralSample 2; neutralSample 3] = dropped ++ trimmed ∧
    Z.of_nat (length trimmed) = Z.min 2 (Z.of_nat 3).
Proof.
  apply (trimSeries_keeps_newest 3 2
           [neutralSample 1; neutralSample 2; neutralSample 3]);
    [lia | vm_compute; lia].
Defined.

Lemma trimSeries_negative (totalPrime : Z) :
  totalPrime < 0 → ∀ fuel series, trimSeries fuel totalPrime series = None.
Proof.
  intros Hw. induction fuel as [|k IH]; intros series; cbn [trimSeries];
    destruct (Z.ltb_spec totalPrime (Z.of_nat (length series))); try lia;
    [reflexivity | apply IH].
Qed.

(** ** The incremental fetch *)

Lemma appendSamples_spec (map : gmap string JsValue) :
  ∀ newPrimes samples w,
    makeSeries map newPrimes = Return samples →
    appendSamples map newPrimes w =
      Done tt
        (set_autoDetectedPrimes
           (autoDetectedPrimes w
            + Z.of_nat (length (List.filter (countsAsDetected map) samples)))
           (set_currentSeries (currentSeries w ++ samples) w)).
Proof.
  induction newPrimes as [|n rest IH]; intros samples w Hms.
  - injection Hms as <-. cbn. rewrite app_nil_r, Z.add_0_r.
    destruct w; reflexivity.
  - destruct (makeSample_returns map n) as (s & Hs & Hn).
    destruct (makeSeries_returns map rest) as (ss & Hss & _).
    cbn [makeSeries] in Hms. rewrite Hs, Hss in Hms.
    injection Hms as <-.
    cbn [appendSamples]. unfold mbind, Eff_bind, modify, lift.
    rewrite Hs. unfold mret, Eff_ret. cbv beta iota.
    cbn [List.filter].
    destruct (countsAsDetected map s) eqn:Ec.
    + rewrite (IH ss _ Hss). f_equal. cbn [length].
      destruct w. unfold set_autoDetectedPrimes, set_currentSeries. cbn.
      f_equal; [rewrite <- app_assoc; reflexivity | lia].
    + rewrite (IH ss _ Hss). f_equal.
      destruct w. unfold set_autoDetectedPrimes, set_currentSeries. cbn.
      f_equal. rewrite <- app_assoc. reflexivity.
Qed.

Lemma always_done_incremental_batch (srv : Server) (batch : list Request) :
  always_done (try_catch_eff (rpcBatch srv batch 0) (sendFallback srv batch)).
Proof.
  apply always_done_try_catch;
    [apply only_posts_rpcBatch | apply no_hang_rpcBatch
    | apply always_done_sendFallback].
Qed.


(** fetchAndAppendLatest on a page that holds a series, when the node
    reports a newer block: the run up to the trim loop. *)
Lemma fetchAndAppendLatest_new_blocks (srv : Server) (w : World)
    (lastSample : Sample) (latest : Z) :
  last (currentSeries w) = Some lastSample →
  latestBlockReply srv w = Some latest →
  primeNum lastSample < latest →
  let newPrimes := seqZ (primeNum lastSample + 1) (latest - primeNum lastSample) in
  ∃ map ps samples,
    makeSeries map newPrimes = Return samples ∧
    List.map primeNum samples = newPrimes ∧
    let grown :=
      set_autoDetectedPrimes
        (autoDetectedPrimes w
         + Z.of_nat (length (List.filter (countsAsDetected map) samples)))
        (set_currentSeries (currentSeries w ++ samples) (add_posts ps w)) in
    fetchAndAppendLatest srv w =
      match trimSeries (S (length (currentSeries w ++ samples))) (windowOf w)
                       (currentSeries w ++ samples) with
      | Some trimmed => Done tt (set_currentSeries trimmed grown)
      | None => Hangs
      end.
Proof.
  intros Hlast Hlatest Hlt newPrimes.
  assert (Hrange : blockRange (primeNum lastSample + 1) latest = newPrimes).
  { unfold blockRange, newPrimes. f_equal. lia. }
  assert (Hne : newPrimes ≠ []).
  { intros E. apply (f_equal length) in E. unfold newPrimes in E.
    rewrite length_seqZ in E. cbn in E. lia. }
  set (w1 := add_posts [SingleCall "quai_blockNumber" []] w).
  destruct (always_done_incremental_batch srv (flat_map blockRequests newPrimes) w1)
    as (map & ps & Hfetch).
  destruct (makeSeries_returns map newPrimes) as (samples & Hms & Hnums).
  exists map, (SingleCall "quai_blockNumber" [] :: ps), samples.
  split; [exact Hms | split; [exact Hnums|]]. cbv zeta.
  unfold latestBlockReply in Hlatest.
  unfold fetchAndAppendLatest.
  unfold try_catch_eff at 1. unfold mbind at 1, Eff_bind at 1.
  rewrite rpcCall_once.
  destruct (single_result _) as [latestHex|]; [|discriminate].
  fold w1. unfold mbind at 1, Eff_bind at 1, get_world at 1.
  change (currentSeries w1) with (currentSeries w). rewrite Hlast, Hlatest.
  destruct (Z.leb_spec latest (primeNum lastSample)); [lia|].
  rewrite Hrange. destruct newPrimes as [|n0 rest] eqn:En; [congruence|].
  rewrite <- En in *. clear En.
  unfold mbind at 1, Eff_bind at 1. rewrite Hfetch.
  unfold mbind at 1, Eff_bind at 1. rewrite (appendSamples_spec map _ samples _ Hms).
  unfold mbind at 1, Eff_bind at 1, get_world at 1.
  cbn [currentSeries windowInputValue set_autoDetectedPrimes set_currentSeries
       add_posts].
  fold (windowOf w).
  destruct (trimSeries _ _ _) as [trimmed|]; [|reflexivity].
  unfold modify. unfold w1. rewrite add_posts_app. reflexivity.
Qed.





(** X18. With a negative window the trim loop of fetchAndAppendLatest has
    no end: the length of the series, which cannot go below 0, stays above
    the window.  On a page that holds a series, a newer block then makes
    the incremental fetch run forever. *)
Theorem fetchAndAppendLatest_negative_window (srv : Server) (w : World)
    (lastSample : Sample) (latest : Z) :
  last (currentSeries w) = Some lastSample →
  latestBlockReply srv w = Some latest →
  primeNum lastSample < latest →
  windowOf w < 0 →
  (∀ fuel series, trimSeries fuel (windowOf w) series = None) ∧
  fetchAndAppendLatest srv w = Hangs.
Proof.
  intros Hlast Hlatest Hlt Hw.
  split; [apply trimSeries_negative; exact Hw|].
  destruct (fetchAndAppendLatest_new_blocks srv w lastSample latest Hlast Hlatest Hlt)
    as (map & ps & samples & _ & _ & Hrun).
  cbv zeta in Hrun. rewrite trimSeries_negative in Hrun by exact Hw. exact Hrun.
Qed.

Lemma fetchAndAppendLatest_negative_window_witness :
  fetchAndAppendLatest growingNode negativePage = Hangs.
Proof.
  apply (fetchAndAppendLatest_negative_window growingNode negativePage priorSample 5);
    [reflexivity | vm_compute; reflexivity | vm_compute; reflexivity
    | vm_compute; reflexivity].
Defined.



(** ** The legacy formula *)

Lemma Decimal_div_ofZ_zero (num den : Z) :
  num = 0 → den ≠ 0 → Decimal_div (Decimal_ofZ num) (Decimal_ofZ den) = Decimal_ofZ 0.
Proof. intros -> H. apply Decimal_div_zero_num. exact H. Qed.

(** X20. On two positive normalized difficulties the legacy formula gives
    a deltaK that is never negative when best >= miner and never positive
    when best <= miner; the integer division by OneOverAlpha makes it
    exactly 0 as long as the scaled ratio is within 1000 of 2^64. *)
Theorem computeRatioAndDeltaKFromNormHex_sign (bestHex minerHex : JsValue)
    (best miner : Z) :
  hexToBigInt bestHex = Return best →
  hexToBigInt minerHex = Return miner →
  0 < best → 0 < miner →
  let ratioScaled := best * 2 ^ 64 / miner in
  ∃ r, computeRatioAndDeltaKFromNormHex bestHex minerHex = Return r ∧
       Norm.ratio r = Decimal_div (Decimal_ofZ ratioScaled) (Decimal_ofZ (2 ^ 64)) ∧
       Norm.deltaK r =
         Decimal_div (Decimal_ofZ (Z.quot (ratioScaled - 2 ^ 64) 1000))
                     (Decimal_ofZ (2 ^ 64)) ∧
       (miner <= best → Decimal_ge0 (Norm.deltaK r)) ∧
       (best <= miner → ¬ Decimal_gt0 (Norm.deltaK r)) ∧
       (Z.abs (ratioScaled - 2 ^ 64) < 1000 → Norm.deltaK r = Decimal_ofZ 0).
Proof.
  intros Hb Hm Hbest Hminer ratioScaled.
  unfold computeRatioAndDeltaKFromNormHex. rewrite Hb, Hm.
  unfold mbind, Completion_bind, try_catch.
  destruct (Z.eqb_spec best 0) as [?|_]; [lia|].
  destruct (Z.eqb_spec miner 0) as [?|_]; [lia|]. cbn [orb].
  change SCALE_BI with (2 ^ 64). change ONE_OVER_ALPHA_BI with 1000.
  rewrite (Z.quot_div_nonneg (best * 2 ^ 64) miner) by lia.
  fold ratioScaled.
  eexists. split; [reflexivity|]. cbn [Norm.ratio Norm.deltaK].
  split; [reflexivity | split; [reflexivity|]].
  destruct (Decimal_div_ofZ_sgn (Z.quot (ratioScaled - 2 ^ 64) 1000) (2 ^ 64))
    as (m & e & Hd & Hs); [lia|].
  change (Z.sgn (2 ^ 64)) with 1 in Hs. rewrite Z.mul_1_r in Hs.
  split; [|split].
  - intros Hle. rewrite Hd. cbn [Decimal_ge0].
    assert (2 ^ 64 <= ratioScaled).
    { unfold ratioScaled. apply Z.div_le_lower_bound; nia. }
    apply Z.sgn_nonneg. rewrite Hs. apply Z.sgn_nonneg.
    apply Z.quot_pos; lia.
  - intros Hle. rewrite Hd. cbn [Decimal_gt0].
    assert (ratioScaled <= 2 ^ 64).
    { unfold ratioScaled. apply Z.div_le_upper_bound; nia. }
    assert (Z.quot (ratioScaled - 2 ^ 64) 1000 <= 0).
    { pose proof (Z.quot_opp_l (2 ^ 64 - ratioScaled) 1000 ltac:(lia)) as Ho.
      replace (- (2 ^ 64 - ratioScaled)) with (ratioScaled - 2 ^ 64) in Ho by lia.
      pose proof (Z.quot_pos (2 ^ 64 - ratioScaled) 1000 ltac:(lia) ltac:(lia)).
      lia. }
    assert (Z.sgn m <= 0) by (rewrite Hs; apply Z.sgn_nonpos; assumption).
    intros Hpos. apply Z.sgn_pos_iff in Hpos. lia.
  - intros Habs. apply Decimal_div_ofZ_zero; [|lia].
    apply Z.quot_small_iff; lia.
Qed.

Lemma computeRatioAndDeltaKFromNormHex_sign_witness :
  ∃ r, computeRatioAndDeltaKFromNormHex (JString "0x10") (JString "0x10") = Return r ∧
       Decimal_ge0 (Norm.deltaK r) ∧ ¬ Decimal_gt0 (Norm.deltaK r) ∧
       Norm.deltaK r = Decimal_ofZ 0.
Proof.
  destruct (computeRatioAndDeltaKFromNormHex_sign
              (JString "0x10") (JString "0x10") 16 16)
    as (r & Hr & _ & _ & H1 & H2 & H3);
    [reflexivity | reflexivity | lia | lia |].
  exists r. split; [exact Hr|]. split; [apply H1; lia|].
  split; [apply H2; lia | apply H3; vm_compute; reflexivity].
Defined.

(** ** Samples *)

Lemma positiveDecimal_positive (raw : JsValue) (d : Decimal) :
  positiveDecimal raw = Return (Some d) →
  ∃ big, hexToBigInt raw = Return big ∧ 0 < big ∧ d = Decimal_ofZ big
         ∧ Decimal_gt0 d.
Proof.
  unfold positiveDecimal, try_catch. destruct (truthy raw); [|discriminate].
  destruct (hexToBigInt raw) as [big|] eqn:E; [|discriminate].
  unfold mbind, Completion_bind.
  destruct (Z.eqb_spec big 0); [discriminate|].
  destruct (Z.ltb_spec 0 big); [|discriminate].
  cbn [negb andb]. intros [= <-]. exists big.
  split; [reflexivity | split; [assumption | split; [reflexivity|]]].
  unfold toDecimalFromBigInt.
  destruct (Decimal_ofZ_sgn big) as (m & e & -> & Hs). cbn [Decimal_gt0].
  apply Z.sgn_pos_iff. rewrite Hs. apply Z.sgn_pos_iff. assumption.
Qed.

(** X21. The two difficulties of a sample, when present, are positive
    whole numbers: the values [hexToBigInt] reads from the miner and best
    answers of the block. *)
Theorem makeSample_difficulties_positive (map : gmap string JsValue) (n : Z)
    (s : Sample) :
  makeSample map n = Return s →
  (∀ d, dInstant s = Some d →
        ∃ big, hexToBigInt (map_get_or_null map (idOf n "_m")) = Return big
               ∧ 0 < big ∧ d = Decimal_ofZ big ∧ Decimal_gt0 d) ∧
  (∀ d, dStar s = Some d →
        ∃ big, hexToBigInt (map_get_or_null map (idOf n "_b")) = Return big
               ∧ 0 < big ∧ d = Decimal_ofZ big ∧ Decimal_gt0 d).
Proof.
  unfold makeSample.
  destruct (positiveDecimal (map_get_or_null map (idOf n "_m"))) as [di|] eqn:Ei;
    [|discriminate].
  destruct (positiveDecimal (map_get_or_null map (idOf n "_b"))) as [ds|] eqn:Es;
    [|discriminate].
  unfold mbind at 1 2, Completion_bind at 1 2.
  match goal with
  | |- context [mbind ?f ?c] => destruct c as [[r dk]|]; [|discriminate]
  end.
  unfold mbind, Completion_bind. intros [= <-]. cbn [dInstant dStar].
  split; intros d ->; apply positiveDecimal_positive; assumption.
Qed.

Lemma makeSample_difficulties_positive_witness :
  ∃ s, makeSample exactAnswers 7 = Return s ∧
       (∀ d, dInstant s = Some d → Decimal_gt0 d) ∧
       (∀ d, dStar s = Some d → Decimal_gt0 d).
Proof.
  destruct (makeSample_returns exactAnswers 7) as (s & Hs & _).
  exists s. split; [exact Hs|].
  destruct (makeSample_difficulties_positive exactAnswers 7 s Hs) as [H1 H2].
  split; intros d Hd.
  - destruct (H1 d Hd) as (big & _ & _ & _ & Hp). exact Hp.
  - destruct (H2 d Hd) as (big & _ & _ & _ & Hp). exact Hp.
Defined.

(** ** The chunk loop with a negative chunk size *)

Lemma chunkLoop_negative (series : list Sample) (chunkSizePrime : Z) :
  chunkSizePrime < 0 → series ≠ [] →
  ∀ fuel i, i <= 0 → chunkLoop fuel series chunkSizePrime i = None.
Proof.
  intros Hc Hne.
  assert (Hlen : 0 < Z.of_nat (length series)) by (destruct series; [congruence | cbn; lia]).
  induction fuel as [|k IH]; intros i Hi; cbn [chunkLoop];
    destruct (Z.ltb_spec i (Z.of_nat (length series))); try lia; [reflexivity|].
  rewrite IH by lia. reflexivity.
Qed.

(** X22. With a negative chunk size the loop of updateUIFromSeries over a
    series that is not empty has no end: the index only goes down. *)
Theorem aggregate_negative_chunk (series : list Sample) (chunkSizePrime : Z) :
  chunkSizePrime < 0 → series ≠ [] →
  (∀ fuel, chunkLoop fuel series chunkSizePrime 0 = None) ∧
  aggregate series chunkSizePrime = None.
Proof.
  intros Hc Hne. split; [intros fuel|unfold aggregate];
    apply chunkLoop_negative; (assumption || lia).
Qed.

Lemma aggregate_negative_chunk_witness :
  aggregate [neutralSample 1; neutralSample 2] (inputOr "-3" 200) = None.
Proof.
  apply (aggregate_negative_chunk [neutralSample 1; neutralSample 2] (inputOr "-3" 200));
    [vm_compute; reflexivity | discriminate].
Defined.

(** ** Averages of values that are not negative *)

Lemma Decimal_plus_ge0 (x y : Decimal) :
  Decimal_ge0 x → Decimal_ge0 y →
  Decimal_ge0 (Decimal_plus x y)
  ∧ (Decimal_gt0 x ∨ Decimal_gt0 y → Decimal_gt0 (Decimal_plus x y)).
Proof.
  destruct x as [m1 e1| |], y as [m2 e2| |]; cbn [Decimal_ge0]; try contradiction.
  intros H1 H2. cbn [Decimal_plus plus_exact].
  set (e := Z.min e1 e2).
  assert (P1 : 0 < 10 ^ (e1 - e)) by (apply Z.pow_pos_nonneg; lia).
  assert (P2 : 0 < 10 ^ (e2 - e)) by (apply Z.pow_pos_nonneg; lia).
  destruct (finalise_sgn (m1 * 10 ^ (e1 - e) + m2 * 10 ^ (e2 - e)) e)
    as (m' & e' & -> & Hs).
  cbn [Decimal_ge0 Decimal_gt0]. split.
  - apply Z.sgn_nonneg. rewrite Hs. apply Z.sgn_nonneg. nia.
  - intros Hpos. apply Z.sgn_pos_iff. rewrite Hs. apply Z.sgn_pos_iff.
    destruct Hpos; nia.
Qed.

Lemma fold_plus_ge0 (arr : list AvgArg) :
  Forall (λ v, Decimal_ge0 (avgArg_value v)) arr →
  ∀ sum, Decimal_ge0 sum →
    let total := fold_left (λ s v, Decimal_plus s (avgArg_value v)) arr sum in
    Decimal_ge0 total
    ∧ (Decimal_gt0 sum ∨ Exists (λ v, Decimal_gt0 (avgArg_value v)) arr
       → Decimal_gt0 total).
Proof.
  induction 1 as [|v rest Hv Hrest IH]; intros sum Hsum; cbn [fold_left].
  - split; [exact Hsum|]. intros [H|H]; [exact H | inversion H].
  - destruct (Decimal_plus_ge0 sum (avgArg_value v) Hsum Hv) as [Hge Hgt].
    destruct (IH _ Hge) as [IH1 IH2]. split; [exact IH1|].
    intros [H|H]; apply IH2.
    + left. apply Hgt. left. exact H.
    + inversion H; subst; [left; apply Hgt; right; assumption | right; assumption].
Qed.

(** X23. The average of values none of which is negative is not negative,
    and it is positive as soon as one of them is: rounding never takes a
    sum or a quotient to zero or across it. *)
Theorem avgDec_nonneg (arr : list AvgArg) :
  Forall (λ v, Decimal_ge0 (avgArg_value v)) arr →
  Decimal_ge0 (avgDec arr)
  ∧ (Exists (λ v, Decimal_gt0 (avgArg_value v)) arr → Decimal_gt0 (avgDec arr)).
Proof.
  intros Hall. destruct arr as [|v rest].
  { split; [vm_compute; discriminate | intros H; inversion H]. }
  unfold avgDec.
  set (arr := v :: rest) in *.
  destruct (fold_plus_ge0 arr Hall (Decimal_ofZ 0)) as [Hge Hgt];
    [vm_compute; discriminate|].
  cbv zeta in Hge, Hgt.
  destruct (fold_left _ arr (Decimal_ofZ 0)) as [ms es| |]; cbn [Decimal_ge0] in Hge;
    try contradiction.
  destruct (Decimal_ofZ_sgn (Z.of_nat (length arr))) as (ml & el & -> & Hl).
  assert (Hlen : Z.sgn ml = 1).
  { rewrite Hl. apply Z.sgn_pos. unfold arr. cbn [length]. lia. }
  destruct (Decimal_div_sgn ms es ml el) as (m & e & -> & Hs).
  { intros ->. discriminate. }
  rewrite Hlen, Z.mul_1_r in Hs. cbn [Decimal_ge0 Decimal_gt0] in *. split.
  - apply Z.sgn_nonneg. rewrite Hs. apply Z.sgn_nonneg. exact Hge.
  - intros Hex. apply Z.sgn_pos_iff. rewrite Hs. apply Z.sgn_pos_iff.
    apply Hgt. right. exact Hex.
Qed.

Lemma avgDec_nonneg_witness :
  Decimal_ge0 (avgDec [ArgDecimal (DFin 5 0); ArgNullish; ArgBigInt 7])
  ∧ Decimal_gt0 (avgDec [ArgDecimal (DFin 5 0); ArgNullish; ArgBigInt 7]).
Proof.
  destruct (avgDec_nonneg [ArgDecimal (DFin 5 0); ArgNullish; ArgBigInt 7])
    as [H1 H2].
  - repeat constructor; vm_compute; discriminate.
  - split; [exact H1|]. apply H2. left. vm_compute. reflexivity.
Defined.

(** ** Formatting of amounts *)

Lemma drop_zeros_head (s : string) (c : ascii) (r : string) :
  drop_zeros s = String c r → c ≠ "0"%char.
Proof.
  induction s as [|a s IH]; cbn [drop_zeros]; [discriminate|].
  destruct (Ascii.eqb_spec a "0"); [exact IH|]. intros [= <- _]. assumption.
Qed.

Lemma strip_trailing_zeros_last (s t : string) :
  strip_trailing_zeros s ≠ t +:+ "0".
Proof.
  unfold strip_trailing_zeros. intros E. apply (f_equal String.rev) in E.
  rewrite rev_involutive_str, rev_append in E.
  change (String.rev "0") with "0"%string in E.
  rewrite append_String, append_empty_l in E.
  apply drop_zeros_head in E. congruence.
Qed.

Lemma drop_zeros_rev_app_zeros (n : nat) :
  ∀ t, drop_zeros t = EmptyString →
       drop_zeros (String.rev_app (Nat.iter n (String "0") EmptyString) t)
         = EmptyString.
Proof.
  induction n as [|n IH]; intros t Ht; [exact Ht|].
  cbn [Nat.iter nat_rect String.rev_app]. apply IH. exact Ht.
Qed.

Lemma strip_trailing_zeros_zeros (n : nat) :
  strip_trailing_zeros (Nat.iter n (String "0") EmptyString) = EmptyString.
Proof.
  unfold strip_trailing_zeros, String.rev.
  rewrite drop_zeros_rev_app_zeros by reflexivity. reflexivity.
Qed.

(** X24. For an amount that is not negative and a positive number of
    decimals, formatWeiToQuai prints the whole Quai, and then either
    nothing or a point and a fraction that is not empty and does not end
    in 0; a whole number of Quai is printed without a point. *)
Theorem formatWeiToQuai_shape (amountWei decimals : Z) :
  0 <= amountWei → 0 < decimals →
  ∃ f, formatWeiToQuai amountWei decimals
         = decimal_of_Z (amountWei / 10 ^ 18) +:+ f ∧
       (f = EmptyString ∨
        ∃ g, f = "." +:+ g ∧ g ≠ EmptyString ∧ ∀ t, g ≠ t +:+ "0") ∧
       (amountWei mod 10 ^ 18 = 0 → f = EmptyString).
Proof.
  intros Ha Hd. unfold formatWeiToQuai.
  destruct (Z.ltb_spec decimals 0); [lia|].
  destruct (Z.ltb_spec 0 decimals); [|lia]. cbv zeta.
  rewrite (Z.quot_div_nonneg amountWei (10 ^ 18)) by lia.
  rewrite (Z.rem_mod_nonneg amountWei (10 ^ 18)) by lia.
  set (frac := Z.quot (amountWei mod 10 ^ 18 * 10 ^ decimals) (10 ^ 18)).
  destruct (strip_trailing_zeros (padStart (decimal_of_Z frac) decimals "0"))
    as [|c g] eqn:E.
  - exists EmptyString. rewrite append_empty_r. auto.
  - exists ("." +:+ String c g). split; [reflexivity | split].
    + right. exists (String c g). split; [reflexivity | split; [discriminate|]].
      intros t. rewrite <- E. apply strip_trailing_zeros_last.
    + intros Hm. exfalso. unfold frac in E. rewrite Hm in E.
      change (Z.quot (0 * 10 ^ decimals) (10 ^ 18)) with (Z.quot 0 (10 ^ 18)) in E.
      change (decimal_of_Z (Z.quot 0 (10 ^ 18))) with "0"%string in E.
      unfold padStart in E. cbn [String.length] in E.
      rewrite <- (Nat.iter_succ_r _ (String "0") EmptyString) in E.
      rewrite strip_trailing_zeros_zeros in E. discriminate.
Qed.

Lemma formatWeiToQuai_shape_witness :
  formatWeiToQuai (3 * 10 ^ 18) 6 = "3"%string
  ∧ formatWeiToQuai 1500000000000000000 6 = "1.5"%string.
Proof.
  destruct (formatWeiToQuai_shape (3 * 10 ^ 18) 6) as (f & Hf & _ & Hz);
    [lia | lia |].
  split; [|reflexivity].
  rewrite Hf, (Hz ltac:(reflexivity)). reflexivity.
Defined.
